(** * requestform-by-jotform: form model extraction and prefill reconciliation

    A shallow embedding of [src/jotform-parser.ts] (field extraction and
    grouping) and of the form modifier ([parseQueryParameters] and
    [applyDataToForm]), with the properties the specification states
    about them.

    JavaScript strings are sequences of UTF-16 code units; the rendered
    page is a store of element records addressed by node handles, so that
    a node list obtained before a mutation keeps denoting the same
    elements afterwards. *)

From Stdlib Require Import String Ascii.
From stdpp Require Import base option list numbers sorting.

Local Open Scope nat_scope.

(* ===================================================================== *)
(** * Part I: definitions *)
(* ===================================================================== *)

(** ** JavaScript strings *)

(** A string value: its UTF-16 code units. *)
Abbreviation jsstring := (list N).

(** An ASCII literal of the source as a [jsstring]. *)
Definition lit (s : string) : jsstring :=
  map N_of_ascii (list_ascii_of_string s).

(** [a === b] on strings. *)
Definition str_eqb (a b : jsstring) : bool := bool_decide (a = b).

(** [a === b] where either side may be [null] or [undefined]. *)
Definition opt_str_eqb (a b : option jsstring) : bool := bool_decide (a = b).

(** Truthiness of a string: every string but the empty one. *)
Definition truthy (s : jsstring) : bool :=
  match s with [] => false | _ :: _ => true end.

(** Truthiness of a [string | null] value. *)
Definition truthy_opt (s : option jsstring) : bool :=
  match s with Some s => truthy s | None => false end.

(** The class [\s] of ECMAScript regular expressions: WhiteSpace and
    LineTerminator code points (all of them in the basic plane). *)
Definition isWhiteSpace (c : N) : bool :=
  ((9 <=? c) && (c <=? 13) ||
   (c =? 32) || (c =? 160) || (c =? 5760) ||
   (8192 <=? c) && (c <=? 8202) ||
   (c =? 8232) || (c =? 8233) || (c =? 8239) || (c =? 8287) ||
   (c =? 12288) || (c =? 65279))%N.

(** [s.replace(/\s/g, '')]: the label and key normalisation of
    [applyDataToForm]. *)
Definition removeWhiteSpace (s : jsstring) : jsstring :=
  filter (fun c => isWhiteSpace c = false) s.

(** [s.trim()]. *)
Fixpoint trimStart (s : jsstring) : jsstring :=
  match s with
  | c :: s' => if isWhiteSpace c then trimStart s' else s
  | [] => []
  end.

Definition trim (s : jsstring) : jsstring :=
  reverse (trimStart (reverse (trimStart s))).

(** ASCII white space of the HTML standard. *)
Definition isAsciiWhiteSpace (c : N) : bool :=
  ((c =? 9) || (c =? 10) || (c =? 12) || (c =? 13) || (c =? 32))%N.

(** "Strip newlines" of the HTML standard: no U+000A and no U+000D is
    left. *)
Definition stripNewlines (s : jsstring) : jsstring :=
  filter (fun c => ((c =? 10) || (c =? 13))%N = false) s.

(** "Strip leading and trailing ASCII whitespace". *)
Fixpoint stripLeadingAscii (s : jsstring) : jsstring :=
  match s with
  | c :: s' => if isAsciiWhiteSpace c then stripLeadingAscii s' else s
  | [] => []
  end.

Definition stripAsciiWhiteSpace (s : jsstring) : jsstring :=
  reverse (stripLeadingAscii (reverse (stripLeadingAscii s))).

(** "Strip and collapse ASCII whitespace": every run of ASCII white space
    becomes one space, and none is left at either end. *)
Fixpoint collapseAscii (afterSpace : bool) (s : jsstring) : jsstring :=
  match s with
  | [] => []
  | c :: s' =>
      if isAsciiWhiteSpace c
      then if afterSpace then collapseAscii true s'
           else 32%N :: collapseAscii true s'
      else c :: collapseAscii false s'
  end.

Definition stripAndCollapse (s : jsstring) : jsstring :=
  stripAsciiWhiteSpace (collapseAscii false s).

(** "Normalize newlines": CR LF and a CR alone become LF. *)
Fixpoint normalizeNewlines (s : jsstring) : jsstring :=
  match s with
  | [] => []
  | c :: rest =>
      if (c =? 13)%N then
        10%N :: match rest with
                | c' :: rest' =>
                    if (c' =? 10)%N then normalizeNewlines rest'
                    else normalizeNewlines rest
                | [] => []
                end
      else c :: normalizeNewlines rest
  end.

(** [s.split(sep)] for a one-unit separator: always at least one part. *)
Fixpoint split (sep : N) (s : jsstring) : list jsstring :=
  match s with
  | [] => [[]]
  | c :: s' =>
      if (c =? sep)%N then [] :: split sep s'
      else match split sep s' with
           | p :: ps => (c :: p) :: ps
           | [] => [[c]]
           end
  end.

(** Two strings that differ only by white space, anywhere: one is obtained
    from the other by deleting and inserting white-space units. *)
Inductive sameUpToWhiteSpace : jsstring -> jsstring -> Prop :=
| sws_nil : sameUpToWhiteSpace [] []
| sws_keep c s t :
    sameUpToWhiteSpace s t -> sameUpToWhiteSpace (c :: s) (c :: t)
| sws_left c s t :
    isWhiteSpace c = true ->
    sameUpToWhiteSpace s t -> sameUpToWhiteSpace (c :: s) t
| sws_right c s t :
    isWhiteSpace c = true ->
    sameUpToWhiteSpace s t -> sameUpToWhiteSpace s (c :: t).

(** ** The structured model ([jotform-parser.ts]) *)

(** [FormField], restricted to the properties that grouping and
    reconciliation read: [id], [type], [text] and [order].  ([qid], [name],
    [subLabel], [options], [subfields], [validation] and [hidden] are
    written by the extractor and read by nobody in this code base.) *)
Record FormField := mkFormField {
  id : option jsstring;
  type : option jsstring;
  text : option jsstring;
  order : nat
}.

Record FieldGroup := mkFieldGroup {
  collapseField : FormField;
  childFields : list FormField
}.

Global Instance FormField_eq_dec : EqDecision FormField.
Proof. solve_decision. Defined.

Global Instance FieldGroup_eq_dec : EqDecision FieldGroup.
Proof. solve_decision. Defined.

Definition control_collapse : jsstring := lit "control_collapse".
Definition control_datetime : jsstring := lit "control_datetime".
Definition control_button : jsstring := lit "control_button".

(** [field.type === 'control_collapse'] *)
Definition isCollapse (field : FormField) : bool :=
  opt_str_eqb (type field) (Some control_collapse).

(** The two variables of [groupFields] that its loop updates. *)
Record GroupingState := mkGroupingState {
  fieldGroups : list FieldGroup;
  currentGroup : option FieldGroup
}.

(** [fieldGroups.push(currentGroup)] guarded by [if (currentGroup)]. *)
Definition pushCurrent (st : GroupingState) : list FieldGroup :=
  match currentGroup st with
  | Some g => fieldGroups st ++ [g]
  | None => fieldGroups st
  end.

(** The body of the [forEach] callback of [groupFields]. *)
Definition groupStep (st : GroupingState) (field : FormField) : GroupingState :=
  if isCollapse field then
    {| fieldGroups := pushCurrent st;
       currentGroup := Some {| collapseField := field; childFields := [] |} |}
  else
    match currentGroup st with
    | Some g =>
        {| fieldGroups := fieldGroups st;
           currentGroup :=
             Some {| collapseField := collapseField g;
                     childFields := childFields g ++ [field] |} |}
    | None => st
    end.

Definition groupFields (fields : list FormField) : list FieldGroup :=
  pushCurrent
    (foldl groupStep {| fieldGroups := []; currentGroup := None |} fields).

(** The descriptors of a group, header first. *)
Definition groupDescriptors (g : FieldGroup) : list FormField :=
  collapseField g :: childFields g.

(** All descriptors of a grouped model, in output order. *)
Definition allDescriptors (gs : list FieldGroup) : list FormField :=
  concat (map groupDescriptors gs).

(** The input list from its first section header onward. *)
Fixpoint fromFirstHeader (fields : list FormField) : list FormField :=
  match fields with
  | [] => []
  | f :: fs => if isCollapse f then fields else fromFirstHeader fs
  end.

(** The descriptors in front of the first section header. *)
Fixpoint beforeFirstHeader (fields : list FormField) : list FormField :=
  match fields with
  | [] => []
  | f :: fs => if isCollapse f then [] else f :: beforeFirstHeader fs
  end.

(** Number of section headers of a field list. *)
Definition headerCount (fields : list FormField) : nat :=
  length (filter (fun f => isCollapse f = true) fields).

(** ** The rendered document

    The page is a store of element records in document (tree) order; a
    node handle is a position in the store, so handles stay valid across
    mutations, as element references do in the browser.  Each element
    records where it hangs: under the [Document] node, under another
    element, or nowhere once [remove()] has detached it.  Only the
    attributes and properties that the extractor and the form modifier read
    or write are kept.  The text nodes of an element are kept as one string
    placed in front of its child elements. *)

Abbreviation Node := nat.

Inductive Place :=
| InDocument            (* the root element: child of the Document node *)
| Detached              (* no parent *)
| ChildOf (p : Node).

Global Instance Place_eq_dec : EqDecision Place.
Proof. solve_decision. Defined.

Record Element := mkElement {
  place : Place;
  tagName : jsstring;            (* local name, lower case *)
  elemId : jsstring;             (* [el.id]: empty when there is no id *)
  classList : list jsstring;
  dataType : option jsstring;    (* the data-type attribute: [dataset.type] *)
  nameAttr : option jsstring;    (* the name content attribute *)
  inputType : jsstring;          (* the [type] property of a control *)
  valueAttr : option jsstring;   (* the value content attribute *)
  value : jsstring;              (* the [value] property *)
  checked : bool;
  ownText : jsstring
}.

Global Instance Element_eq_dec : EqDecision Element.
Proof. solve_decision. Defined.

Abbreviation Document := (list Element).

Definition withPlace (p : Place) (el : Element) : Element :=
  mkElement p (tagName el) (elemId el) (classList el) (dataType el)
    (nameAttr el) (inputType el) (valueAttr el) (value el) (checked el)
    (ownText el).

Definition withChecked (b : bool) (el : Element) : Element :=
  mkElement (place el) (tagName el) (elemId el) (classList el) (dataType el)
    (nameAttr el) (inputType el) (valueAttr el) (value el) b (ownText el).

Definition withOwnText (t : jsstring) (el : Element) : Element :=
  mkElement (place el) (tagName el) (elemId el) (classList el) (dataType el)
    (nameAttr el) (inputType el) (valueAttr el) (value el) (checked el) t.

(** Input types whose [value] setter writes the content attribute (the
    "default" and "default/on" modes of the HTML standard); every other
    control keeps the written string as its own state. *)
Definition valueInAttribute (el : Element) : bool :=
  str_eqb (tagName el) (lit "input") &&
  bool_decide (elem_of (inputType el) [lit "hidden"; lit "submit"; lit "image";
                                       lit "reset"; lit "button";
                                       lit "checkbox"; lit "radio"]).

(** The control once it holds the value [v]: its [value] property reads
    [v], as does its content attribute where the setter writes that.  (For
    a select the property stands for the selection.)  Which value a control
    holds after [el.value = x] is the matter of [valueSetter] below. *)
Definition withValue (v : jsstring) (el : Element) : Element :=
  mkElement (place el) (tagName el) (elemId el) (classList el) (dataType el)
    (nameAttr el) (inputType el)
    (if valueInAttribute el then Some v else valueAttr el)
    v (checked el) (ownText el).

(** Document order: ancestors come before their descendants. *)
Definition wellFormed (d : Document) : Prop :=
  forall n el p, d !! n = Some el -> place el = ChildOf p -> p < n.

(** The same, as a check that runs. *)
Fixpoint wellFormedFrom (n : Node) (els : list Element) : bool :=
  match els with
  | [] => true
  | el :: rest =>
      match place el with
      | ChildOf p => p <? n
      | _ => true
      end && wellFormedFrom (S n) rest
  end.

(** [below fuel d a n]: node [n] lies strictly below [a], where [None]
    stands for the Document node; the parent chain of [n] is followed for
    at most [fuel] steps. *)
Fixpoint below (fuel : nat) (d : Document) (a : option Node) (n : Node) : bool :=
  match fuel with
  | 0 => false
  | S fuel' =>
      match place <$> d !! n with
      | Some InDocument => bool_decide (a = None)
      | Some (ChildOf p) => bool_decide (a = Some p) || below fuel' d a p
      | _ => false
      end
  end.

(** [el.isConnected] *)
Definition connected (d : Document) (n : Node) : bool :=
  below (length d) d None n.

(** [n] is a descendant of the element [e]. *)
Definition descendantOf (d : Document) (e n : Node) : bool :=
  below (length d) d (Some e) n.

(** The nodes that satisfy [P], in document order. *)
Definition nodesWhere (d : Document) (P : Node -> Element -> bool) : list Node :=
  List.filter
    (fun n => match d !! n with Some el => P n el | None => false end)
    (seq 0 (length d)).

Definition hasClass (c : jsstring) (el : Element) : bool :=
  bool_decide (elem_of c (classList el)).

Definition hasTag (t : jsstring) (el : Element) : bool := str_eqb (tagName el) t.

(** Does [s] start with [p] / end with [p]? *)
Fixpoint startsWith (p s : jsstring) : bool :=
  match p, s with
  | [], _ => true
  | c :: p', c' :: s' => (c =? c')%N && startsWith p' s'
  | _ :: _, [] => false
  end.

Definition endsWith (p s : jsstring) : bool :=
  startsWith (reverse p) (reverse s).

(** [e.textContent]: the text of the element and of its descendants, in
    tree order. *)
Definition textContent (d : Document) (e : Node) : jsstring :=
  match d !! e with
  | Some el =>
      ownText el ++
      concat (omap (fun n => ownText <$> d !! n)
                   (nodesWhere d (fun n _ => descendantOf d e n)))
  | None => []
  end.

(** *** Mutations *)

(** [node.remove()] *)
Definition detach (n : Node) (d : Document) : Document :=
  alter (withPlace Detached) n d.

(** *** The [value] setter of the HTML standard

    What [node.value = v] does depends on the control.  The model covers
    input elements of the types below, select and textarea elements; for
    anything else the outcome is left open. *)

Inductive Assignment :=
| Holds (s : jsstring)     (* the setter returns; the control then holds [s] *)
| RaisesInvalidState       (* the setter throws InvalidStateError *)
| NotCovered.              (* the model does not say *)

Definition hasInputType (types : list string) (el : Element) : bool :=
  bool_decide (elem_of (inputType el) (map lit types)).

(** The setter of an input element.  In the "default" and "default/on"
    modes the string becomes the content attribute; in the "value" mode it
    is sanitised: text, search, tel and password strip newlines, url strips
    newlines and then white space at the ends.  An email input does the
    same as url without the multiple attribute and splits on commas with
    it; the model has no such attribute and answers where both give the
    same.  A file-upload input ("filename" mode) takes the empty string
    only.  The types with a number, date, time or colour format
    are not covered. *)
Definition inputValue (el : Element) (v : jsstring) : Assignment :=
  if valueInAttribute el then Holds v
  else if hasInputType ["text"%string; "search"%string; "tel"%string;
                        "password"%string] el
  then Holds (stripNewlines v)
  else if hasInputType ["url"%string] el
  then Holds (stripAsciiWhiteSpace (stripNewlines v))
  else if hasInputType ["email"%string] el
  then if existsb (N.eqb 44) v ||
          negb (str_eqb (stripAsciiWhiteSpace (stripNewlines v))
                        (stripAsciiWhiteSpace v))
       then NotCovered
       else Holds (stripAsciiWhiteSpace v)
  else if hasInputType ["file"%string] el
  then match v with
       | [] => Holds []
       | _ :: _ => RaisesInvalidState
       end
  else NotCovered.

(** The list of options of a select: its option children and the option
    children of its optgroup children, in tree order. *)
Definition isOptionOf (d : Document) (select : Node) (el : Element) : bool :=
  hasTag (lit "option") el &&
  match place el with
  | ChildOf p =>
      bool_decide (p = select) ||
      match d !! p with
      | Some parent =>
          hasTag (lit "optgroup") parent &&
          bool_decide (place parent = ChildOf select)
      | None => false
      end
  | _ => false
  end.

Definition optionsOf (d : Document) (select : Node) : list Node :=
  nodesWhere d (fun _ el => isOptionOf d select el).

(** [m], below the option [o], is a script element or inside one that is
    below [o]. *)
Definition inScriptBelow (d : Document) (o m : Node) (el : Element) : bool :=
  hasTag (lit "script") el ||
  existsb (fun s => descendantOf d o s && descendantOf d s m &&
                    match d !! s with
                    | Some script => hasTag (lit "script") script
                    | None => false
                    end)
          (seq 0 (length d)).

(** The text of an option: as [textContent], without what stands in
    script elements, white space stripped and collapsed. *)
Definition optionText (d : Document) (o : Node) : jsstring :=
  match d !! o with
  | Some el =>
      stripAndCollapse
        (ownText el ++
         concat (omap (fun m => ownText <$> d !! m)
                      (nodesWhere d (fun m el' =>
                         descendantOf d o m && negb (inScriptBelow d o m el')))))
  | None => []
  end.

(** The value of an option: its value attribute, or else its text. *)
Definition optionValue (d : Document) (o : Node) : jsstring :=
  match d !! o with
  | Some el => default (optionText d o) (valueAttr el)
  | None => []
  end.

(** [node.value = v]: what the control holds afterwards.  A select takes
    the value when one of its options carries it and is left without
    selection, its value the empty string, otherwise; a textarea holds the
    string with its newlines normalised. *)
Definition valueSetter (d : Document) (n : Node) (v : jsstring) : Assignment :=
  match d !! n with
  | Some el =>
      if hasTag (lit "input") el then inputValue el v
      else if hasTag (lit "select") el then
        Holds (if bool_decide (elem_of v (map (optionValue d) (optionsOf d n)))
               then v else [])
      else if hasTag (lit "textarea") el then Holds (normalizeNewlines v)
      else NotCovered
  | None => NotCovered
  end.

(** The document after [node.value = v]; it is the same document where
    the setter does not return. *)
Definition writeValue (n : Node) (v : jsstring) (d : Document) : Document :=
  match valueSetter d n v with
  | Holds s => alter (withValue s) n d
  | _ => d
  end.

(** *** Radio button groups

    The form owner of a control is taken to be its nearest form ancestor
    (the form content attribute is not part of the model). *)

Fixpoint formOwner (fuel : nat) (d : Document) (n : Node) : option Node :=
  match fuel with
  | 0 => None
  | S fuel' =>
      match place <$> d !! n with
      | Some (ChildOf p) =>
          match d !! p with
          | Some parent =>
              if hasTag (lit "form") parent then Some p else formOwner fuel' d p
          | None => None
          end
      | _ => None
      end
  end.

(** The root of the tree a node is in: [None] stands for the document. *)
Fixpoint rootOf (fuel : nat) (d : Document) (n : Node) : option Node :=
  match fuel with
  | 0 => Some n
  | S fuel' =>
      match place <$> d !! n with
      | Some InDocument => None
      | Some (ChildOf p) => rootOf fuel' d p
      | _ => Some n
      end
  end.

Definition isRadio (el : Element) : bool :=
  hasTag (lit "input") el && str_eqb (inputType el) (lit "radio").

(** [m] is another radio button of the group of [n]: both are radio
    inputs in the same tree with the same form owner and the same name,
    which is not empty. *)
Definition inRadioGroupOf (d : Document) (n m : Node) : bool :=
  negb (bool_decide (m = n)) &&
  match d !! n, d !! m with
  | Some a, Some b =>
      isRadio a && isRadio b && truthy (default [] (nameAttr a)) &&
      bool_decide (nameAttr a = nameAttr b) &&
      bool_decide (formOwner (length d) d n = formOwner (length d) d m) &&
      bool_decide (rootOf (length d) d n = rootOf (length d) d m)
  | _, _ => false
  end.

(** [node.checked = true]: the node is checked, and the other radio
    buttons of its group, if it is one, are unchecked. *)
Definition writeChecked (n : Node) (d : Document) : Document :=
  imap (fun m el => if bool_decide (m = n) then withChecked true el
                    else if inRadioGroupOf d n m then withChecked false el
                    else el) d.

(** [node.textContent = t], for a non-empty [t]: every child leaves the
    node and one text node takes their place. *)
Definition writeTextContent (n : Node) (t : jsstring) (d : Document) : Document :=
  alter (withOwnText t) n
    (map (fun el => if bool_decide (place el = ChildOf n)
                    then withPlace Detached el else el) d).

(** *** Selectors built from data

    Two selectors of [applyDataToForm] splice a string into the selector
    text.  The model covers the splices that are certainly well-formed
    (and then mean what the source intends) and those that are certainly
    rejected; any other splice is left undetermined. *)

Inductive SelectorText := WellFormed | Rejected | Undetermined.

Definition isDigit (c : N) : bool := ((48 <=? c) && (c <=? 57))%N.

Definition isSurrogate (c : N) : bool := ((55296 <=? c) && (c <=? 57343))%N.

Definition isNameStart (c : N) : bool :=
  ((65 <=? c) && (c <=? 90) || (97 <=? c) && (c <=? 122) || (c =? 95) ||
   (128 <=? c) && negb (isSurrogate c))%N.

Definition isNameChar (c : N) : bool :=
  (isNameStart c || isDigit c || (c =? 45))%N.

(** A plain CSS identifier: a name-start unit followed by name units. *)
Definition cssIdentifier (s : jsstring) : bool :=
  match s with
  | c :: rest => isNameStart c && forallb isNameChar rest
  | [] => false
  end.

(** The text [#<i> .form-collapse-mid]: an id selector cannot start with a
    digit (nor be empty). *)
Definition idSelectorText (i : jsstring) : SelectorText :=
  if cssIdentifier i then WellFormed
  else match i with
       | [] => Rejected
       | c :: _ => if isDigit c then Rejected else Undetermined
       end.

Definition isHighSurrogate (c : N) : bool := ((55296 <=? c) && (c <=? 56319))%N.

Definition isLowSurrogate (c : N) : bool := ((56320 <=? c) && (c <=? 57343))%N.

(** The units that do not stand for themselves between double quotes:
    the quote, the backslash, the line breaks and NUL. *)
Definition breaksQuotes (c : N) : bool :=
  ((c =? 34) || (c =? 92) || (c =? 10) || (c =? 13) || (c =? 12) || (c =? 0))%N.

(** A string that stands for itself between double quotes in a selector:
    no quote, backslash, line break, NUL or lone surrogate. *)
Fixpoint plainInQuotes (s : jsstring) : bool :=
  match s with
  | [] => true
  | c :: rest =>
      if isHighSurrogate c then
        match rest with
        | c' :: rest' => isLowSurrogate c' && plainInQuotes rest'
        | [] => false
        end
      else negb (breaksQuotes c || isLowSurrogate c) && plainInQuotes rest
  end.

(** The text [input[name="<n>"][value="<v>"]].  A value that is plain up
    to one double quote at its end closes the string early and leaves a
    second string behind it, which no attribute selector admits. *)
Definition attributeSelectorText (n v : jsstring) : SelectorText :=
  if plainInQuotes n && plainInQuotes v then WellFormed
  else
    match reverse v with
    | c :: front =>
        if (c =? 34)%N && plainInQuotes n && plainInQuotes front
        then Rejected else Undetermined
    | [] => Undetermined
    end.

(** ** Scripts: document state and exceptions *)

Inductive Exception :=
  SyntaxError | TypeError | InvalidCharacterError | InvalidStateError.

Inductive Completion (A : Type) :=
| Normal (a : A)
| Throw (e : Exception)
| OutsideModel.

Arguments Normal {A} a.
Arguments Throw {A} e.
Arguments OutsideModel {A}.

(** A computation on the live document: the document it leaves behind is
    kept also when it throws, as mutations made before an exception
    persist. *)
Definition Script (A : Type) : Type := Document -> Completion A * Document.

Definition ret {A} (a : A) : Script A := fun d => (Normal a, d).

Definition bind {A B} (m : Script A) (k : A -> Script B) : Script B :=
  fun d =>
    match m d with
    | (Normal a, d') => k a d'
    | (Throw e, d') => (Throw e, d')
    | (OutsideModel, d') => (OutsideModel, d')
    end.

Notation "x <- m ;; k" := (bind m (fun x => k))
  (at level 100, m at next level, right associativity).
Notation "m ;; k" := (bind m (fun _ => k))
  (at level 100, right associativity).

Definition throw {A} (e : Exception) : Script A := fun d => (Throw e, d).

Definition outsideModel {A} : Script A := fun d => (OutsideModel, d).

(** Read the document. *)
Definition query {A} (f : Document -> A) : Script A := fun d => (Normal (f d), d).

(** Mutate the document. *)
Definition mutate (f : Document -> Document) : Script unit :=
  fun d => (Normal tt, f d).

(** How [node.value = v] completes on [d]. *)
Definition assigning (d : Document) (n : Node) (v : jsstring) : Completion unit :=
  match valueSetter d n v with
  | Holds _ => Normal tt
  | RaisesInvalidState => Throw InvalidStateError
  | NotCovered => OutsideModel
  end.

(** [node.value = v] *)
Definition assignValue (n : Node) (v : jsstring) : Script unit :=
  fun d => (assigning d n v, writeValue n v d).

(** The document a script leaves behind, and how it completes. *)
Definition finalDocument {A} (m : Script A) (d : Document) : Document := (m d).2.
Definition completion {A} (m : Script A) (d : Document) : Completion A := (m d).1.

(** [list.forEach((x, index) => body)], indices counted from [index]. *)
Fixpoint forEachFrom {A} (body : A -> nat -> Script unit) (index : nat)
    (l : list A) : Script unit :=
  match l with
  | [] => ret tt
  | x :: l' => body x index ;; forEachFrom body (S index) l'
  end.

Definition forEach {A} (body : A -> nat -> Script unit) (l : list A) : Script unit :=
  forEachFrom body 0 l.

(** [for (const key in object) body], the object given by its properties
    in enumeration order. *)
Fixpoint forIn {V} (body : jsstring -> V -> Script unit)
    (object : list (jsstring * V)) : Script unit :=
  match object with
  | [] => ret tt
  | (key, v) :: rest => body key v ;; forIn body rest
  end.

(** *** Document queries *)

(** [document.getElementById(i)] *)
Definition getElementById (i : jsstring) : Script (option Node) :=
  query (fun d =>
    if truthy i
    then head (nodesWhere d (fun n el => connected d n && str_eqb (elemId el) i))
    else None).

(** [e.querySelectorAll(sel)] for a selector [sel] on single elements. *)
Definition querySelectorAllIn (e : Node) (sel : Element -> bool) : Script (list Node) :=
  query (fun d => nodesWhere d (fun n el => descendantOf d e n && sel el)).

(** [e.querySelector(sel)] *)
Definition querySelectorIn (e : Node) (sel : Element -> bool) : Script (option Node) :=
  query (fun d => head (nodesWhere d (fun n el => descendantOf d e n && sel el))).

(** [document.querySelectorAll(sel)] *)
Definition querySelectorAll (sel : Element -> bool) : Script (list Node) :=
  query (fun d => nodesWhere d (fun n el => connected d n && sel el)).

(** Has [n] an ancestor element with id [i]? *)
Definition underId (d : Document) (i : jsstring) (n : Node) : bool :=
  existsb (fun a => descendantOf d a n &&
                    match d !! a with
                    | Some el => str_eqb (elemId el) i
                    | None => false
                    end)
          (seq 0 (length d)).

(** [document.querySelector(`#${i} .form-collapse-mid`)] *)
Definition querySelectorCollapseMid (i : jsstring) : Script (option Node) :=
  match idSelectorText i with
  | WellFormed =>
      query (fun d =>
        head (nodesWhere d (fun n el =>
                connected d n && hasClass (lit "form-collapse-mid") el &&
                underId d i n)))
  | Rejected => throw SyntaxError
  | Undetermined => outsideModel
  end.

(** [document.querySelectorAll(`input[name="${n}"][value="${v}"]`)] *)
Definition querySelectorAllNameValue (n v : jsstring) : Script (list Node) :=
  match attributeSelectorText n v with
  | WellFormed =>
      querySelectorAll (fun el =>
        hasTag (lit "input") el && bool_decide (nameAttr el = Some n) &&
        bool_decide (valueAttr el = Some v))
  | Rejected => throw SyntaxError
  | Undetermined => outsideModel
  end.

(** ** The prefill payload and the form modifier *)

Record QueryGroupData := mkQueryGroupData {
  headerText : jsstring;
  fields : list (jsstring * jsstring)   (* properties in enumeration order *)
}.

Record PrefillData := mkPrefillData {
  topLevel : option (list (jsstring * jsstring));
  groups : option (list QueryGroupData)
}.

(** [object[key]] *)
Definition property (object : list (jsstring * jsstring)) (key : jsstring)
  : option jsstring :=
  snd <$> List.find (fun kv => str_eqb kv.1 key) object.

(** The literals of the source that are not ASCII, as code units. *)
Definition requestContent : jsstring :=            (* the request-content label *)
  [12522; 12463; 12456; 12473; 12488; 20869; 23481]%N.
Definition hourKey : jsstring := [26178]%N.
Definition minuteKey : jsstring := [20998]%N.
Definition childFamilyNameKey : jsstring :=
  [12362; 23376; 12373; 12435; 12398; 27663; 21517; 95; 22995]%N.
Definition childGivenNameKey : jsstring :=
  [12362; 23376; 12373; 12435; 12398; 27663; 21517; 95; 21517]%N.
Definition guardianEmailKey : jsstring :=
  [20445; 35703; 32773; 12513; 12540; 12523; 12450; 12489; 12524; 12473]%N.
Definition targetMonthKey : jsstring := [23550; 35937; 26376]%N.

(** One of the four top-level bindings:
    [if (topLevel[key]) { const el = getElementById(i); if (el) el.value = topLevel[key]; }] *)
Definition prefillById (v : option jsstring) (i : jsstring) : Script unit :=
  if truthy_opt v then
    el <- getElementById i ;;
    match el with
    | Some n => assignValue n (default [] v)
    | None => ret tt
    end
  else ret tt.

Definition applyTopLevel (prefillData : option PrefillData) : Script unit :=
  match prefillData with
  | Some pd =>
      match topLevel pd with
      | Some tl =>
          prefillById (property tl childFamilyNameKey) (lit "first_195") ;;
          prefillById (property tl childGivenNameKey) (lit "last_195") ;;
          prefillById (property tl guardianEmailKey) (lit "input_6") ;;
          prefillById (property tl targetMonthKey) (lit "input_34")
      | None => ret tt
      end
  | None => ret tt
  end.

(** [prefillData && prefillData.groups ? prefillData.groups[index] : undefined] *)
Definition groupDataAt (prefillData : option PrefillData) (index : nat)
  : option QueryGroupData :=
  match prefillData with
  | Some pd =>
      match groups pd with
      | Some gs => gs !! index
      | None => None
      end
  | None => None
  end.

(** [targetGroup.childFields.find(f => f.text === requestContent)] *)
Definition requestFieldOf (targetGroup : FieldGroup) : option FormField :=
  List.find (fun f => opt_str_eqb (text f) (Some requestContent))
            (childFields targetGroup).

(** The id of a field when it is truthy. *)
Definition usableId (f : FormField) : option jsstring :=
  match id f with
  | Some i => if truthy i then Some i else None
  | None => None
  end.

(** [items[i].remove()] *)
Definition removeItem (items : list Node) (i : nat) : Script unit :=
  match items !! i with
  | Some n => mutate (detach n)
  | None => throw TypeError
  end.

Definition isRadioItem (el : Element) : bool := hasClass (lit "form-radio-item") el.

(** The choice items of an element: [e.querySelectorAll('.form-radio-item')]. *)
Definition radioItemsOf (d : Document) (e : Node) : list Node :=
  nodesWhere d (fun n el => descendantOf d e n && isRadioItem el).

(** Branch selection on the request-content element. *)
Definition selectBranch (requestFieldElement : Node)
    (groupData : option QueryGroupData) : Script unit :=
  radioItems <- querySelectorAllIn requestFieldElement isRadioItem ;;
  if 4 <=? length radioItems then
    match groupData with
    | Some _ => removeItem radioItems 3 ;; removeItem radioItems 2
    | None => removeItem radioItems 1 ;; removeItem radioItems 0
    end
  else ret tt.

(** Step 1 of the prefill: the header text. *)
Definition overrideHeader (targetGroup : FieldGroup) (groupData : QueryGroupData)
  : Script unit :=
  match usableId (collapseField targetGroup) with
  | Some i =>
      headerElement <- querySelectorCollapseMid i ;;
      match headerElement with
      | Some h =>
          if truthy (headerText groupData)
          then mutate (writeTextContent h (headerText groupData))
          else ret tt
      | None => ret tt
      end
  | None => ret tt
  end.

(** Hour and minute values of one unit get a leading zero. *)
Definition zeroPad (normalizedKey value : jsstring) : jsstring :=
  if str_eqb normalizedKey hourKey || str_eqb normalizedKey minuteKey then
    if length value =? 1 then 48%N :: value else value
  else value.

(** The field a key denotes. *)
Definition resolveField (targetGroup : FieldGroup) (key normalizedKey : jsstring)
  : option FormField :=
  if str_eqb key (lit "timeOption") then
    List.find (fun f => opt_str_eqb (text f) None) (childFields targetGroup)
  else
    List.find (fun f => opt_str_eqb (removeWhiteSpace <$> text f)
                                    (Some normalizedKey))
              (childFields targetGroup).

Definition isLiteModeInput (el : Element) : bool :=
  hasTag (lit "input") el && startsWith (lit "lite_mode_") (elemId el).

(** [input[name$="<suffix>"]] *)
Definition isInputNamedWithSuffix (suffix : jsstring) (el : Element) : bool :=
  hasTag (lit "input") el &&
  match nameAttr el with
  | Some n => endsWith suffix n
  | None => false
  end.

(** [if (input) input.value = v] *)
Definition writeIfPresent (input : option Node) (v : jsstring) : Script unit :=
  match input with
  | Some n => assignValue n v
  | None => ret tt
  end.

(** The date/time branch. *)
Definition applyDateValue (fieldElement : Node) (value : jsstring) : Script unit :=
  visibleDateInput <- querySelectorIn fieldElement isLiteModeInput ;;
  writeIfPresent visibleDateInput value ;;
  match split 45 value with
  | [year; month; day] =>
      yearInput <- querySelectorIn fieldElement (isInputNamedWithSuffix (lit "[year]")) ;;
      monthInput <- querySelectorIn fieldElement (isInputNamedWithSuffix (lit "[month]")) ;;
      dayInput <- querySelectorIn fieldElement (isInputNamedWithSuffix (lit "[day]")) ;;
      writeIfPresent yearInput year ;;
      writeIfPresent monthInput month ;;
      writeIfPresent dayInput day
  | _ => ret tt
  end.

Definition isFormControl (el : Element) : bool :=
  hasTag (lit "input") el || hasTag (lit "select") el || hasTag (lit "textarea") el.

(** The branch of every other field type. *)
Definition applyPlainValue (fieldElement : Node) (value : jsstring) : Script unit :=
  input <- querySelectorIn fieldElement isFormControl ;;
  match input with
  | Some n =>
      el <- query (fun d => d !! n) ;;
      match el with
      | Some el =>
          if hasTag (lit "select") el then assignValue n value
          else if hasTag (lit "input") el then
            if str_eqb (inputType el) (lit "radio") then
              radioGroup <- querySelectorAllNameValue (default [] (nameAttr el)) value ;;
              match radioGroup with
              | first :: _ => mutate (writeChecked first)
              | [] => ret tt
              end
            else assignValue n value
          else assignValue n value
      | None => ret tt
      end
  | None => ret tt
  end.

(** Writing a value into the element of the resolved field. *)
Definition applyToField (targetField : FormField) (value : jsstring) : Script unit :=
  match usableId targetField with
  | Some i =>
      fieldElement <- getElementById i ;;
      match fieldElement with
      | Some e =>
          if opt_str_eqb (type targetField) (Some control_datetime)
          then applyDateValue e value
          else applyPlainValue e value
      | None => ret tt
      end
  | None => ret tt
  end.

(** The body of the [for ... in] loop over [groupData.fields]. *)
Definition applyFieldValue (targetGroup : FieldGroup) (key value : jsstring)
  : Script unit :=
  if str_eqb key requestContent then ret tt
  else
    let normalizedKey := removeWhiteSpace key in
    let value := zeroPad normalizedKey value in
    match resolveField targetGroup key normalizedKey with
    | Some targetField => applyToField targetField value
    | None => ret tt
    end.

(** Branch selection for a group whose request-content field has the
    usable id [i]. *)
Definition branchSelection (i : jsstring) (groupData : option QueryGroupData)
  : Script unit :=
  requestFieldElement <- getElementById i ;;
  match requestFieldElement with
  | Some e => selectBranch e groupData
  | None => ret tt
  end.

(** The prefill of a group that has a payload entry: header text, then
    field values. *)
Definition prefillGroup (targetGroup : FieldGroup) (groupData : QueryGroupData)
  : Script unit :=
  overrideHeader targetGroup groupData ;;
  forIn (applyFieldValue targetGroup) (fields groupData).

(** The callback of [formGroups.forEach], given the payload entry aligned
    with the group. *)
Definition processGroup (groupData : option QueryGroupData)
    (targetGroup : FieldGroup) : Script unit :=
  match requestFieldOf targetGroup with
  | Some requestField =>
      match usableId requestField with
      | Some i =>
          branchSelection i groupData ;;
          match groupData with
          | Some gd => prefillGroup targetGroup gd
          | None => ret tt
          end
      | None => ret tt
      end
  | None => ret tt
  end.

(** [applyDataToForm] of the form modifier with top-level bindings. *)
Definition applyDataToForm (formGroups : list FieldGroup)
    (prefillData : option PrefillData) : Script unit :=
  applyTopLevel prefillData ;;
  forEach (fun targetGroup index =>
             processGroup (groupDataAt prefillData index) targetGroup)
          formGroups.

(** [src/form-modifier.ts]: the payload is the list of group entries
    itself and there are no top-level bindings; the loop body is the same. *)
Module FormModifierTs.

Definition groupDataAt (queryData : option (list QueryGroupData)) (index : nat)
  : option QueryGroupData :=
  match queryData with
  | Some q => q !! index
  | None => None
  end.

Definition applyDataToForm (formGroups : list FieldGroup)
    (queryData : option (list QueryGroupData)) : Script unit :=
  forEach (fun targetGroup index =>
             processGroup (groupDataAt queryData index) targetGroup)
          formGroups.

End FormModifierTs.

(** ** Decoding the payload ([parseQueryParameters]) *)


(** [try { body } catch (e) { handler }] *)
Definition tryCatch {A} (body : Completion A) (handler : Exception -> Completion A)
  : Completion A :=
  match body with
  | Throw e => handler e
  | c => c
  end.

(** *** [atob]: the forgiving base64 decoding of the HTML standard *)






(** *** [new TextDecoder().decode]: UTF-8, malformed input replaced *)










(** *** [JSON.parse] *)

(** A parsed value.  A number is kept as its text; an object is kept as
    its members in the order of the text. *)
#[local] Set Warnings "-register-all".
Inductive JSON :=
| JNull
| JBool (b : bool)
| JNumber (lexeme : jsstring)
| JString (s : jsstring)
| JArray (items : list JSON)
| JObject (members : list (jsstring * JSON)).

Fixpoint skipWhiteSpace (s : jsstring) : jsstring :=
  match s with
  | c :: s' =>
      if ((c =? 32) || (c =? 9) || (c =? 10) || (c =? 13))%N
      then skipWhiteSpace s' else s
  | [] => []
  end.

Definition hexValue (c : N) : option N :=
  (if (48 <=? c) && (c <=? 57) then Some (c - 48)
   else if (97 <=? c) && (c <=? 102) then Some (c - 87)
   else if (65 <=? c) && (c <=? 70) then Some (c - 55)
   else None)%N.

(** The unit a one-letter escape stands for. *)
Definition escapeUnit (c : N) : option N :=
  (if (c =? 34) || (c =? 92) || (c =? 47) then Some c
   else if c =? 98 then Some 8
   else if c =? 102 then Some 12
   else if c =? 110 then Some 10
   else if c =? 114 then Some 13
   else if c =? 116 then Some 9
   else None)%N.

(** A string from behind its opening quote: its value and what follows
    its closing quote. *)
Fixpoint stringBody (s : jsstring) : option (jsstring * jsstring) :=
  match s with
  | [] => None
  | c :: rest =>
      if (c =? 34)%N then Some ([], rest)
      else if (c =? 92)%N then
        match rest with
        | e :: rest' =>
            if (e =? 117)%N then
              match rest' with
              | h1 :: h2 :: h3 :: h4 :: rest'' =>
                  match hexValue h1, hexValue h2, hexValue h3, hexValue h4,
                        stringBody rest'' with
                  | Some a, Some b, Some c', Some d, Some (str, tail) =>
                      Some ((a * 4096 + b * 256 + c' * 16 + d)%N :: str, tail)
                  | _, _, _, _, _ => None
                  end
              | _ => None
              end
            else
              match escapeUnit e, stringBody rest' with
              | Some u, Some (str, tail) => Some (u :: str, tail)
              | _, _ => None
              end
        | [] => None
        end
      else if (c <? 32)%N then None
      else
        match stringBody rest with
        | Some (str, tail) => Some (c :: str, tail)
        | None => None
        end
  end.

(** The longest prefix of digits, and the rest. *)
Fixpoint digitsOf (s : jsstring) : jsstring * jsstring :=
  match s with
  | c :: s' =>
      if isDigit c then (c :: (digitsOf s').1, (digitsOf s').2) else ([], s)
  | [] => ([], [])
  end.

(** A number: its text and what follows it. *)
Definition numberLexeme (s : jsstring) : option (jsstring * jsstring) :=
  let '(sign, s1) := match s with
                     | c :: r => if (c =? 45)%N then ([c], r) else ([], s)
                     | [] => ([], s)
                     end in
  let integer := match s1 with
                 | c :: r =>
                     if (c =? 48)%N then Some ([c], r)
                     else if isDigit c then Some (digitsOf s1)
                     else None
                 | [] => None
                 end in
  match integer with
  | None => None
  | Some (int, s2) =>
      let fraction := match s2 with
                      | c :: r =>
                          if (c =? 46)%N then
                            match digitsOf r with
                            | ([], _) => None
                            | (ds, r') => Some (c :: ds, r')
                            end
                          else Some ([], s2)
                      | [] => Some ([], s2)
                      end in
      match fraction with
      | None => None
      | Some (frac, s3) =>
          let exponent :=
            match s3 with
            | c :: r =>
                if ((c =? 101) || (c =? 69))%N then
                  let '(esign, r1) :=
                    match r with
                    | c' :: r' => if ((c' =? 43) || (c' =? 45))%N
                                  then ([c'], r') else ([], r)
                    | [] => ([], r)
                    end in
                  match digitsOf r1 with
                  | ([], _) => None
                  | (ds, r2) => Some (c :: esign ++ ds, r2)
                  end
                else Some ([], s3)
            | [] => Some ([], s3)
            end in
          match exponent with
          | None => None
          | Some (ex, s4) => Some (sign ++ int ++ frac ++ ex, s4)
          end
      end
  end.

(** A word of the grammar at the head of the text. *)
Definition keyword (w : string) (v : JSON) (s : jsstring) : option (JSON * jsstring) :=
  if startsWith (lit w) s then Some (v, drop (length (lit w)) s) else None.

(** The recursive descent; [fuel] bounds the nesting of the calls and is
    spent at most twice per unit of text. *)
Fixpoint parseValue (fuel : nat) (s : jsstring) : option (JSON * jsstring) :=
  match fuel with
  | 0 => None
  | S fuel' =>
      match skipWhiteSpace s with
      | [] => None
      | c :: rest =>
          if (c =? 123)%N then
            match skipWhiteSpace rest with
            | c' :: tail =>
                if (c' =? 125)%N then Some (JObject [], tail)
                else match parseMembers fuel' rest with
                     | Some (ms, tail') => Some (JObject ms, tail')
                     | None => None
                     end
            | [] => None
            end
          else if (c =? 91)%N then
            match skipWhiteSpace rest with
            | c' :: tail =>
                if (c' =? 93)%N then Some (JArray [], tail)
                else match parseElements fuel' rest with
                     | Some (vs, tail') => Some (JArray vs, tail')
                     | None => None
                     end
            | [] => None
            end
          else if (c =? 34)%N then
            match stringBody rest with
            | Some (str, tail) => Some (JString str, tail)
            | None => None
            end
          else if (c =? 116)%N then keyword "true" (JBool true) (c :: rest)
          else if (c =? 102)%N then keyword "false" (JBool false) (c :: rest)
          else if (c =? 110)%N then keyword "null" JNull (c :: rest)
          else match numberLexeme (c :: rest) with
               | Some (lexeme, tail) => Some (JNumber lexeme, tail)
               | None => None
               end
      end
  end
with parseElements (fuel : nat) (s : jsstring) : option (list JSON * jsstring) :=
  match fuel with
  | 0 => None
  | S fuel' =>
      match parseValue fuel' s with
      | Some (v, rest) =>
          match skipWhiteSpace rest with
          | c :: rest' =>
              if (c =? 44)%N then
                match parseElements fuel' rest' with
                | Some (vs, tail) => Some (v :: vs, tail)
                | None => None
                end
              else if (c =? 93)%N then Some ([v], rest')
              else None
          | [] => None
          end
      | None => None
      end
  end
with parseMembers (fuel : nat) (s : jsstring)
  : option (list (jsstring * JSON) * jsstring) :=
  match fuel with
  | 0 => None
  | S fuel' =>
      match skipWhiteSpace s with
      | c :: rest =>
          if (c =? 34)%N then
            match stringBody rest with
            | Some (key, rest1) =>
                match skipWhiteSpace rest1 with
                | c1 :: rest2 =>
                    if (c1 =? 58)%N then
                      match parseValue fuel' rest2 with
                      | Some (v, rest3) =>
                          match skipWhiteSpace rest3 with
                          | c3 :: rest4 =>
                              if (c3 =? 44)%N then
                                match parseMembers fuel' rest4 with
                                | Some (ms, tail) => Some ((key, v) :: ms, tail)
                                | None => None
                                end
                              else if (c3 =? 125)%N then Some ([(key, v)], rest4)
                              else None
                          | [] => None
                          end
                      | None => None
                      end
                    else None
                | [] => None
                end
            | None => None
            end
          else None
      | [] => None
      end
  end.

(** [JSON.parse(text)]: the value, or [None] where it throws SyntaxError. *)
Definition JSONparse (text : jsstring) : option JSON :=
  match parseValue (2 * length text + 2) text with
  | Some (v, rest) =>
      match skipWhiteSpace rest with
      | [] => Some v
      | _ :: _ => None
      end
  | None => None
  end.

(** *** [parseQueryParameters] *)




(** ** The field extractor ([extractFieldsFromDOM]) *)

(** [.form-section > li, .form-section-closed > li] *)
Definition isSectionItem (d : Document) (el : Element) : bool :=
  hasTag (lit "li") el &&
  match place el with
  | ChildOf p =>
      match d !! p with
      | Some parent => hasClass (lit "form-section") parent ||
                       hasClass (lit "form-section-closed") parent
      | None => false
      end
  | _ => false
  end.

Definition fieldElementsOf (d : Document) : list Node :=
  nodesWhere d (fun n el => connected d n && isSectionItem d el).

(** [document.querySelector('#id_2')] *)
Definition buttonElementOf (d : Document) : option Node :=
  head (nodesWhere d (fun n el => connected d n && str_eqb (elemId el) (lit "id_2"))).

(** The candidate elements: the section items, then the submit element
    unless it is one of them. *)
Definition allElementsOf (d : Document) : list Node :=
  fieldElementsOf d ++
  match buttonElementOf d with
  | Some b => if bool_decide (elem_of b (fieldElementsOf d)) then [] else [b]
  | None => []
  end.

Definition isLabelElement (el : Element) : bool :=
  hasClass (lit "form-label") el || hasClass (lit "form-header") el ||
  hasClass (lit "form-collapse-mid") el.

(** [x || null] on a string. *)
Definition orNull (s : jsstring) : option jsstring :=
  if truthy s then Some s else None.

(** [el.id] and [el.dataset.type] of a node. *)
Definition idOf (d : Document) (n : Node) : jsstring :=
  default [] (elemId <$> d !! n).

Definition dataTypeOf (d : Document) (n : Node) : option jsstring :=
  match d !! n with
  | Some el => dataType el
  | None => None
  end.

(** The descriptor of one candidate element (the callback of [map]), for
    the current value of the counter. *)
Definition describeElement (d : Document) (order : nat) (n : Node) : FormField :=
  let type := match dataTypeOf d n with Some t => orNull t | None => None end in
  let labelEl := head (nodesWhere d (fun m e => descendantOf d n m && isLabelElement e)) in
  let text := match labelEl with
              | Some l => orNull (trim (textContent d l))
              | None => None
              end in
  let text :=
    if opt_str_eqb type (Some control_button) then
      match head (nodesWhere d (fun m e => descendantOf d n m && hasTag (lit "button") e)) with
      | Some b => Some (trim (textContent d b))
      | None => None
      end
    else text in
  {| id := Some (idOf d n); type := type; text := text; order := order |}.

(** [allElements.map(el => { ...; field.order = order++; ... })] *)
Fixpoint describeFrom (d : Document) (order : nat) (els : list Node)
  : list FormField :=
  match els with
  | [] => []
  | n :: rest => describeElement d order n :: describeFrom d (S order) rest
  end.

Definition extractFieldsFromDOM (d : Document) : list FormField :=
  describeFrom d 1 (allElementsOf d).

(** ** A sample page

    One section with a header, the request-content radio set with its four
    choice items, a month dropdown, a date field with its visible input and
    its three split inputs, and the submit element outside the list. *)

Definition noString : string := EmptyString.

Definition sampleElement (p : Place) (tag i : string) (classes : list string)
    (data_type name : option string) (ty : string) (value_attr : option string)
    (txt : jsstring) : Element :=
  mkElement p (lit tag) (lit i) (map lit classes) (lit <$> data_type)
    (lit <$> name) (lit ty) (lit <$> value_attr) [] false txt.

Definition samplePage : Document :=
  let item := ["form-radio-item"%string] in
  let label := ["form-label"%string] in
  let radio v := sampleElement (ChildOf 0) "input" noString [] None
                   (Some "q11_request"%string) "radio" (Some v) [] in
  [ (* 0 *) sampleElement InDocument "body" noString [] None None noString None [];
    (* 1 *) sampleElement (ChildOf 0) "ul" noString ["form-section"%string] None None noString None [];
    (* 2 *) sampleElement (ChildOf 1) "li" "id_10" [] (Some "control_collapse"%string) None noString None [];
    (* 3 *) sampleElement (ChildOf 2) "div" noString ["form-collapse-mid"%string] None None noString None (lit " Pickup ");
    (* 4 *) sampleElement (ChildOf 1) "li" "id_11" [] (Some "control_radio"%string) None noString None [];
    (* 5 *) sampleElement (ChildOf 4) "label" noString label None None noString None requestContent;
    (* 6 *) sampleElement (ChildOf 4) "span" noString item None None noString None [];
    (* 7 *) withPlace (ChildOf 6) (radio "change"%string);
    (* 8 *) sampleElement (ChildOf 4) "span" noString item None None noString None [];
    (* 9 *) withPlace (ChildOf 8) (radio "cancel"%string);
    (* 10 *) sampleElement (ChildOf 4) "span" noString item None None noString None [];
    (* 11 *) withPlace (ChildOf 10) (radio "add"%string);
    (* 12 *) sampleElement (ChildOf 4) "span" noString item None None noString None [];
    (* 13 *) withPlace (ChildOf 12) (radio "none"%string);
    (* 14 *) sampleElement (ChildOf 1) "li" "id_12" [] (Some "control_dropdown"%string) None noString None [];
    (* 15 *) sampleElement (ChildOf 14) "label" noString label None None noString None targetMonthKey;
    (* 16 *) sampleElement (ChildOf 14) "select" "input_12" [] None (Some "q12_month"%string) "select-one" None [];
    (* 17 *) sampleElement (ChildOf 1) "li" "id_13" [] (Some "control_datetime"%string) None noString None [];
    (* 18 *) sampleElement (ChildOf 17) "label" noString label None None noString None (lit "Date");
    (* 19 *) sampleElement (ChildOf 17) "input" "lite_mode_13" [] None None "text" None [];
    (* 20 *) sampleElement (ChildOf 17) "input" "year_13" [] None (Some "q13_date[year]"%string) "tel" None [];
    (* 21 *) sampleElement (ChildOf 17) "input" "month_13" [] None (Some "q13_date[month]"%string) "tel" None [];
    (* 22 *) sampleElement (ChildOf 17) "input" "day_13" [] None (Some "q13_date[day]"%string) "tel" None [];
    (* 23 *) sampleElement (ChildOf 0) "li" "id_2" [] (Some "control_button"%string) None noString None [];
    (* 24 *) sampleElement (ChildOf 23) "button" noString [] None None "submit" None (lit " Send ") ].

(** The descriptors of the sample page, as the extractor yields them. *)
Definition sampleHeader : FormField :=
  mkFormField (Some (lit "id_10")) (Some control_collapse) (Some (lit "Pickup")) 1.
Definition sampleRequestField : FormField :=
  mkFormField (Some (lit "id_11")) (Some (lit "control_radio")) (Some requestContent) 2.
Definition sampleMonthField : FormField :=
  mkFormField (Some (lit "id_12")) (Some (lit "control_dropdown")) (Some targetMonthKey) 3.
Definition sampleDateField : FormField :=
  mkFormField (Some (lit "id_13")) (Some control_datetime) (Some (lit "Date")) 4.
Definition sampleButtonField : FormField :=
  mkFormField (Some (lit "id_2")) (Some control_button) (Some (lit "Send")) 5.

Definition sampleGroup : FieldGroup :=
  mkFieldGroup sampleHeader
    [sampleRequestField; sampleMonthField; sampleDateField; sampleButtonField].

(** ** Specification vocabulary for scripts *)

(** Two documents agree on an observation [h] of every element. *)
Definition agreeOn {B} (h : Element -> B) (d d' : Document) : Prop :=
  map h d = map h d'.

(** [m] keeps [R] between the document it starts from and the one it
    leaves behind, however it completes. *)
Definition keeps {A} (R : Document -> Document -> Prop) (m : Script A) : Prop :=
  forall d, R d (finalDocument m d).

(** Observations that a kind of mutation cannot change. *)
Definition ignoresPlace {B} (h : Element -> B) : Prop :=
  forall p el, h (withPlace p el) = h el.
Definition ignoresValue {B} (h : Element -> B) : Prop :=
  forall v el, h (withValue v el) = h el.
Definition ignoresChecked {B} (h : Element -> B) : Prop :=
  forall b el, h (withChecked b el) = h el.

(** No choice item sits inside another one. *)
Definition flatItems (d : Document) : Prop :=
  forall x y ex ey,
    d !! x = Some ex -> d !! y = Some ey ->
    isRadioItem ex = true -> isRadioItem ey = true ->
    descendantOf d x y = false.

(** Everything of an element but the place where it hangs. *)
Definition contentOf (el : Element) : Element := withPlace Detached el.

(** What a loop state of [groupFields] holds so far, the group under
    construction last. *)
Definition held (st : GroupingState) : list FormField :=
  allDescriptors (pushCurrent st).

(** A group is anchored: opened by a header, no header among its members. *)
Definition anchored (g : FieldGroup) : Prop :=
  isCollapse (collapseField g) = true /\
  Forall (fun f => isCollapse f = false) (childFields g).

(** The same as a check that runs. *)
Definition flatItemsCheck (d : Document) : bool :=
  let items := nodesWhere d (fun _ el => isRadioItem el) in
  forallb (fun x => forallb (fun y => negb (descendantOf d x y)) items) items.

(** The document after [if (input) input.value = v]. *)
Definition written (input : option Node) (v : jsstring) (d : Document) : Document :=
  match input with
  | Some n => writeValue n v d
  | None => d
  end.

(** How [if (input) input.value = v] completes on [d]. *)
Definition assignment (d : Document) (input : option Node) (v : jsstring)
  : Completion unit :=
  match input with
  | Some n => assigning d n v
  | None => Normal tt
  end.

(** Assignments [if (input) input.value = v] one after the other, the
    inputs looked up beforehand; one that raises ends the run. *)
Fixpoint assignAll (l : list (option Node * jsstring)) : Script unit :=
  match l with
  | [] => ret tt
  | (input, v) :: rest => writeIfPresent input v ;; assignAll rest
  end.

(** What the [value] setter of any element goes by: no assignment of a
    value changes it. *)
Definition setterView (el : Element)
  : Place * jsstring * jsstring * jsstring * option jsstring :=
  (place el, tagName el, inputType el, ownText el,
   if hasTag (lit "input") el then None else valueAttr el).







(** The inputs of a date field element: the visible one and the three
    split ones, each the first of its kind inside [e], if any. *)
Definition visibleDateInputOf (d : Document) (e : Node) : option Node :=
  head (nodesWhere d (fun n el => descendantOf d e n && isLiteModeInput el)).

Definition splitInputOf (d : Document) (e : Node) (suffix : jsstring) : option Node :=
  head (nodesWhere d (fun n el =>
          descendantOf d e n && isInputNamedWithSuffix suffix el)).

(** A variant of the sample page whose date field is labelled with the
    hour key, and its group. *)
Definition hourPage : Document :=
  alter (withOwnText hourKey) 18 samplePage.

Definition hourField : FormField :=
  mkFormField (Some (lit "id_13")) (Some control_datetime) (Some hourKey) 4.

Definition hourGroup : FieldGroup :=
  mkFieldGroup sampleHeader
    [sampleRequestField; sampleMonthField; hourField; sampleButtonField].


Definition namesPlainCheck (d : Document) : bool :=
  forallb (fun el => plainInQuotes (default [] (nameAttr el))) d.


(** The group entries of a payload. *)
Definition payloadGroups (prefillData : option PrefillData) : list QueryGroupData :=
  match prefillData with
  | Some pd => default [] (groups pd)
  | None => []
  end.



(** A page with two sections, each with its header, its request-content
    radio set and a second radio field labelled Option. *)
Definition sectionElements (base : nat)
    (header field option name optionName : string) : list Element :=
  let item := ["form-radio-item"%string] in
  let label := ["form-label"%string] in
  let radio p v := sampleElement (ChildOf p) "input" noString [] None (Some name)
                     "radio" (Some v) [] in
  [ (* +0 *) sampleElement (ChildOf 1) "li" header [] (Some "control_collapse"%string) None noString None [];
    (* +1 *) sampleElement (ChildOf base) "div" noString ["form-collapse-mid"%string] None None noString None (lit "Trip");
    (* +2 *) sampleElement (ChildOf 1) "li" field [] (Some "control_radio"%string) None noString None [];
    (* +3 *) sampleElement (ChildOf (base + 2)) "label" noString label None None noString None requestContent;
    (* +4 *) sampleElement (ChildOf (base + 2)) "span" noString item None None noString None [];
    (* +5 *) radio (base + 4) "change"%string;
    (* +6 *) sampleElement (ChildOf (base + 2)) "span" noString item None None noString None [];
    (* +7 *) radio (base + 6) "cancel"%string;
    (* +8 *) sampleElement (ChildOf (base + 2)) "span" noString item None None noString None [];
    (* +9 *) radio (base + 8) "add"%string;
    (* +10 *) sampleElement (ChildOf (base + 2)) "span" noString item None None noString None [];
    (* +11 *) radio (base + 10) "none"%string;
    (* +12 *) sampleElement (ChildOf 1) "li" option [] (Some "control_radio"%string) None noString None [];
    (* +13 *) sampleElement (ChildOf (base + 12)) "label" noString label None None noString None (lit "Option");
    (* +14 *) sampleElement (ChildOf (base + 12)) "input" noString [] None (Some optionName) "radio" (Some "yes"%string) [] ].

Definition twoSectionPage : Document :=
  [ sampleElement InDocument "body" noString [] None None noString None [];
    sampleElement (ChildOf 0) "ul" noString ["form-section"%string] None None noString None [] ]
  ++ sectionElements 2 "id_10" "id_11" "id_12" "q11_request" "q12_option"
  ++ sectionElements 17 "id_20" "id_21" "id_22" "q21_request" "q22_option".

Definition twoSectionGroups : list FieldGroup :=
  [ mkFieldGroup
      (mkFormField (Some (lit "id_10")) (Some control_collapse) (Some (lit "Trip")) 1)
      [ mkFormField (Some (lit "id_11")) (Some (lit "control_radio")) (Some requestContent) 2;
        mkFormField (Some (lit "id_12")) (Some (lit "control_radio")) (Some (lit "Option")) 3 ];
    mkFieldGroup
      (mkFormField (Some (lit "id_20")) (Some control_collapse) (Some (lit "Trip")) 4)
      [ mkFormField (Some (lit "id_21")) (Some (lit "control_radio")) (Some requestContent) 5;
        mkFormField (Some (lit "id_22")) (Some (lit "control_radio")) (Some (lit "Option")) 6 ] ].


(** The same payload without the quote. *)
Definition plainPayload : option PrefillData :=
  Some (mkPrefillData None
          (Some [ mkQueryGroupData [] [(lit "Option", lit "yes")];
                  mkQueryGroupData [] [(lit "Option", lit "yes")] ])).

(** The sample page with a file-upload input in place of the select of
    its month field, and a payload with a value for that field. *)
Definition filePage : Document :=
  alter (fun el => mkElement (place el) (lit "input") (elemId el) (classList el)
                     (dataType el) (nameAttr el) (lit "file") (valueAttr el)
                     (value el) (checked el) (ownText el))
        16 samplePage.

Definition monthPayload : option PrefillData :=
  Some (mkPrefillData None
          (Some [mkQueryGroupData [] [(targetMonthKey, lit "5")]])).

(** [d'] comes from [d] by detaching elements and nothing else. *)
Definition reducedFrom (d d' : Document) : Prop :=
  agreeOn contentOf d d' /\
  forall n el', d' !! n = Some el' -> place el' = Detached \/ d !! n = Some el'.

(** The document in which the group at position [k] is processed when
    [applyDataToForm] runs without a payload. *)
Definition documentBefore (formGroups : list FieldGroup) (k : nat) (d : Document)
  : Document :=
  finalDocument (applyDataToForm (take k formGroups) None) d.

(** ** Vocabulary for the properties of the form modifier *)

(** What [document.getElementById(i)] returns on [d]. *)
Definition elementById (d : Document) (i : jsstring) : option Node :=
  if truthy i
  then head (nodesWhere d (fun n el => connected d n && str_eqb (elemId el) i))
  else None.

(** The first control inside [e]: [e.querySelector('input, select, textarea')]. *)
Definition firstControlOf (d : Document) (e : Node) : option Node :=
  head (nodesWhere d (fun n el => descendantOf d e n && isFormControl el)).

(** The connected inputs with name attribute [nm] and value attribute [v],
    in document order. *)
Definition inputsNamed (d : Document) (nm v : jsstring) : list Node :=
  nodesWhere d (fun n el =>
    connected d n &&
    (hasTag (lit "input") el && bool_decide (nameAttr el = Some nm) &&
     bool_decide (valueAttr el = Some v))).

(** The element a top-level binding with the value [v] assigns to, if
    any. *)
Definition topLevelTargetOf (d : Document) (v : option jsstring) (i : jsstring)
  : option Node :=
  if truthy_opt v then elementById d i else None.

Definition topLevelTarget (d : Document) (tl : list (jsstring * jsstring))
    (key i : jsstring) : option Node :=
  topLevelTargetOf d (property tl key) i.

(** [x] is the first element of [l] with the property [P]. *)
Definition firstWhere {X} (P : X -> Prop) (l : list X) (x : X) : Prop :=
  exists pre post, l = pre ++ x :: post /\ P x /\ Forall (fun y => ~ P y) pre.



(** The usable id of the request-content field of a group, if it has one. *)
Definition requestFieldIdOf (g : FieldGroup) : option jsstring :=
  match requestFieldOf g with
  | Some requestField => usableId requestField
  | None => None
  end.

(** The attributes of an element that no script of the form modifier
    assigns. *)
Definition attributesOf (el : Element)
  : jsstring * jsstring * list jsstring * option jsstring * option jsstring *
    jsstring :=
  (tagName el, elemId el, classList el, dataType el, nameAttr el, inputType el).

(** [el'] is a later state of [el]: same attributes, and still in its
    place or detached. *)
Definition fadesTo (el el' : Element) : Prop :=
  attributesOf el' = attributesOf el /\
  (place el' = place el \/ place el' = Detached).

Definition fades (d d' : Document) : Prop := Forall2 fadesTo d d'.

(** A string without '-'. *)
Definition hyphenFree (s : jsstring) : Prop := Forall (fun c => c <> 45%N) s.

(** [parts.join(sep)] for a one-unit separator. *)
Fixpoint joinWith (sep : N) (parts : list jsstring) : jsstring :=
  match parts with
  | [] => []
  | [p] => p
  | p :: rest => p ++ sep :: joinWith sep rest
  end.

(** ** The conditions extractor ([extractConditionsFromScripts]) *)

(** The units that [.] of a regular expression without flags does not
    match: the line terminators. *)
Definition isLineTerminator (c : N) : bool :=
  ((c =? 10) || (c =? 13) || (c =? 8232) || (c =? 8233))%N.

(** The literal parts of [/JotForm\.setConditions\((.*?)\);/]. *)
Definition setConditionsCall : jsstring := lit "JotForm.setConditions(".
Definition closeCall : jsstring := lit ");".

(** [(.*?)\);] matched at the start of [s]: the group takes as few units
    as possible, none of them a line terminator, and is followed by [);]. *)
Fixpoint lazyUntilClose (s : jsstring) : option jsstring :=
  if startsWith closeCall s then Some []
  else match s with
       | c :: s' =>
           if isLineTerminator c then None else cons c <$> lazyUntilClose s'
       | [] => None
       end.

(** The regular expression matched at the start of [s]: its group. *)
Definition conditionsAt (s : jsstring) : option jsstring :=
  if startsWith setConditionsCall s
  then lazyUntilClose (drop (length setConditionsCall) s)
  else None.

(** [text.match(conditionsRegex)]: group 1 of the leftmost match, [None]
    where [match] returns [null]. *)
Fixpoint matchConditions (text : jsstring) : option jsstring :=
  match conditionsAt text with
  | Some c => Some c
  | None =>
      match text with
      | _ :: text' => matchConditions text'
      | [] => None
      end
  end.

(** [document.querySelectorAll('script')] *)
Definition scriptsOf (d : Document) : list Node :=
  nodesWhere d (fun n el => connected d n && hasTag (lit "script") el).

(** The loop over the scripts: the first script whose text is not empty
    and matches with a group that is not empty decides. *)
Fixpoint conditionsFrom (d : Document) (scripts : list Node) : JSON :=
  match scripts with
  | [] => JArray []
  | script :: rest =>
      if truthy (textContent d script) then
        match matchConditions (textContent d script) with
        | Some c =>
            if truthy c then
              match JSONparse c with
              | Some conditions => conditions
              | None => JArray []
              end
            else conditionsFrom d rest
        | None => conditionsFrom d rest
        end
      else conditionsFrom d rest
  end.

Definition extractConditionsFromScripts (d : Document) : JSON :=
  conditionsFrom d (scriptsOf d).

(** A script whose text gives no group, or an empty one. *)
Definition withoutConditions (d : Document) (script : Node) : Prop :=
  matchConditions (textContent d script) = None \/
  matchConditions (textContent d script) = Some [].

(** A text of one line in which [);] does not occur. *)
Definition withinCall (c : jsstring) : Prop :=
  Forall (fun u => isLineTerminator u = false) c /\
  forall k, startsWith closeCall (drop k c) = false.

(** A page with three scripts: one that calls [setConditions] with
    nothing, one whose argument holds [);] inside a string, one with an
    empty list. *)
Definition scriptPage : Document :=
  [ sampleElement InDocument "body" noString [] None None noString None [];
    sampleElement (ChildOf 0) "script" noString [] None None noString None
      (lit "JotForm.init(); JotForm.setConditions();");
    sampleElement (ChildOf 0) "script" noString [] None None noString None
      (lit "JotForm.setConditions([" ++ [34%N] ++ lit ");" ++ [34%N] ++ lit "]);");
    sampleElement (ChildOf 0) "script" noString [] None None noString None
      (lit "JotForm.setConditions([]);") ].

(** ** Script loading ([main.ts]) *)

Module Main.

(** A script element, as far as the loader reads it. *)
Record HTMLScriptElement := mkScript {
  src : jsstring;           (* [script.src]: empty without a src attribute *)
  defer : bool;
  textContent : jsstring
}.

(** What a run does to the page and the console. *)
Inductive Event :=
| LoadExternal (url : jsstring)   (* [loadExternalScript(url)] *)
| RunInline (code : jsstring)     (* [new Function(code)()] *)
| ConsoleError
| ConsoleWarn.

(** How the load of a script, or the run of a piece of code, ends: the
    load event or a normal return; the error event or an exception;
    neither of them, ever. *)
Inductive Outcome := Succeeds | Fails | NeverEnds.

(** The environment decides how each load and each run ends, from what
    has happened so far. *)
Record World := mkWorld {
  loading : list Event -> jsstring -> Outcome;
  running : list Event -> jsstring -> Outcome
}.

(** The state of a promise once nothing more can happen to it. *)
Inductive Settled (A : Type) :=
| Fulfilled (a : A)
| Rejected
| Pending.

Arguments Fulfilled {A} a.
Arguments Rejected {A}.
Arguments Pending {A}.

(** An asynchronous computation, with the events so far. *)
Definition Async (A : Type) : Type := list Event -> Settled A * list Event.

Definition done : Async unit := fun log => (Fulfilled tt, log).

Definition emit (e : Event) : Async unit := fun log => (Fulfilled tt, log ++ [e]).

(** [await m; k] *)
Definition await {A B} (m : Async A) (k : A -> Async B) : Async B :=
  fun log =>
    match m log with
    | (Fulfilled a, log') => k a log'
    | (Rejected, log') => (Rejected, log')
    | (Pending, log') => (Pending, log')
    end.

(** [try { m } catch (e) { handler }] *)
Definition tryCatch {A} (m : Async A) (handler : Async A) : Async A :=
  fun log =>
    match m log with
    | (Rejected, log') => handler log'
    | r => r
    end.

Definition settle (o : Outcome) : Settled unit :=
  match o with
  | Succeeds => Fulfilled tt
  | Fails => Rejected
  | NeverEnds => Pending
  end.

(** The promise of [loadExternalScript]: resolved by [onload], rejected by
    [onerror]. *)
Definition loadExternalScript (w : World) (url : jsstring) : Async unit :=
  fun log => (settle (loading w log url), log ++ [LoadExternal url]).

Definition executeInlineScript (w : World) (code : jsstring) : Async unit :=
  tryCatch (fun log => (settle (running w log code), log ++ [RunInline code]))
           (emit ConsoleWarn).

(** [for (const x of l) { body }] *)
Fixpoint forOf {X} (body : X -> Async unit) (l : list X) : Async unit :=
  match l with
  | [] => done
  | x :: rest => await (body x) (fun _ => forOf body rest)
  end.

Definition executeScriptsSequentially (w : World)
    (scriptElements : list HTMLScriptElement) : Async unit :=
  await
    (forOf (fun script =>
              if truthy (src script) && negb (defer script) then
                tryCatch (loadExternalScript w (src script)) (emit ConsoleError)
              else if truthy (textContent script) then
                executeInlineScript w (textContent script)
              else done)
           scriptElements)
    (fun _ =>
       forOf (fun script =>
                if truthy (src script) && defer script then
                  tryCatch (loadExternalScript w (src script)) (emit ConsoleError)
                else done)
             scriptElements).

(** *** Vocabulary *)

(** The loads and runs among the events. *)
Definition isCall (e : Event) : bool :=
  match e with
  | LoadExternal _ | RunInline _ => true
  | ConsoleError | ConsoleWarn => false
  end.

(** The call a script element gives rise to in the first pass, and in the
    second. *)
Definition immediateCall (script : HTMLScriptElement) : list Event :=
  if truthy (src script) && negb (defer script) then [LoadExternal (src script)]
  else if truthy (textContent script) then [RunInline (textContent script)]
  else [].

Definition deferredCall (script : HTMLScriptElement) : list Event :=
  if truthy (src script) && defer script then [LoadExternal (src script)] else [].

(** A world in which every load and every run ends. *)
Definition alwaysEnds (w : World) : Prop :=
  (forall log url, loading w log url <> NeverEnds) /\
  (forall log code, running w log code <> NeverEnds).

(** [m] adds events to the log, never rejects, makes the calls [calls] in
    this order as far as it gets, all of them when it is fulfilled, and is
    fulfilled in a world where everything ends. *)
Definition makes (w : World) (m : Async unit) (calls : list Event) : Prop :=
  forall log, exists happened,
    (m log).2 = log ++ happened /\
    (m log).1 <> Rejected /\
    filter (fun e => isCall e = true) happened `prefix_of` calls /\
    ((m log).1 = Fulfilled tt -> filter (fun e => isCall e = true) happened = calls) /\
    (alwaysEnds w -> (m log).1 = Fulfilled tt).

(** A world where the load of any URL fails and the code [boom] throws. *)
Definition failingWorld : World :=
  mkWorld (fun _ _ => Fails)
          (fun _ code => if str_eqb code (lit "boom") then Fails else Succeeds).

End Main.

(* ===================================================================== *)
(** * Part II: properties *)
(* ===================================================================== *)

(** ** White-space normalisation *)

Lemma removeWhiteSpace_cons c s :
  removeWhiteSpace (c :: s) =
  if isWhiteSpace c then removeWhiteSpace s else c :: removeWhiteSpace s.
Proof.
  unfold removeWhiteSpace. rewrite filter_cons.
  destruct (isWhiteSpace c); case_decide; congruence.
Qed.

Lemma removeWhiteSpace_free s :
  Forall (fun c => isWhiteSpace c = false) (removeWhiteSpace s).
Proof.
  induction s as [|c s IH]; [constructor|].
  rewrite removeWhiteSpace_cons.
  destruct (isWhiteSpace c) eqn:E; [exact IH | constructor; assumption].
Qed.

Lemma removeWhiteSpace_fixed s :
  Forall (fun c => isWhiteSpace c = false) s -> removeWhiteSpace s = s.
Proof.
  induction 1 as [|c s Hc _ IH]; [reflexivity|].
  rewrite removeWhiteSpace_cons, Hc, IH. reflexivity.
Qed.

Lemma sameUpToWhiteSpace_normal s t :
  sameUpToWhiteSpace s t -> removeWhiteSpace s = removeWhiteSpace t.
Proof.
  induction 1 as [|c s t _ IH|c s t Hc _ IH|c s t Hc _ IH];
    rewrite ?removeWhiteSpace_cons, ?Hc; try destruct (isWhiteSpace c);
    congruence.
Qed.

Lemma sameUpToWhiteSpace_removed s : sameUpToWhiteSpace s (removeWhiteSpace s).
Proof.
  induction s as [|c s IH]; [constructor|].
  rewrite removeWhiteSpace_cons. destruct (isWhiteSpace c) eqn:E.
  - apply sws_left; assumption.
  - apply sws_keep; assumption.
Qed.

Lemma sameUpToWhiteSpace_sym s t :
  sameUpToWhiteSpace s t -> sameUpToWhiteSpace t s.
Proof. induction 1; constructor; assumption. Qed.

Lemma sameUpToWhiteSpace_to_removed s t :
  sameUpToWhiteSpace s t -> sameUpToWhiteSpace s (removeWhiteSpace t).
Proof.
  induction 1 as [|c s t _ IH|c s t Hc _ IH|c s t Hc _ IH];
    rewrite ?removeWhiteSpace_cons, ?Hc; try exact IH.
  - constructor.
  - destruct (isWhiteSpace c) eqn:E.
    + apply sws_left; assumption.
    + apply sws_keep; assumption.
  - apply sws_left; assumption.
Qed.

(** ** Grouping *)

Section Grouping.

Implicit Types (st : GroupingState) (fields : list FormField).

Lemma allDescriptors_snoc gs g :
  allDescriptors (gs ++ [g]) = allDescriptors gs ++ groupDescriptors g.
Proof.
  unfold allDescriptors. rewrite map_app, concat_app. simpl.
  rewrite app_nil_r. reflexivity.
Qed.

Lemma groupStep_open st field :
  is_Some (currentGroup st) ->
  is_Some (currentGroup (groupStep st field)) /\
  held (groupStep st field) = held st ++ [field].
Proof.
  intros [g Hg]. unfold held, groupStep, pushCurrent.
  destruct (isCollapse field); rewrite Hg; simpl.
  - split; [eauto|]. rewrite allDescriptors_snoc. reflexivity.
  - split; [eauto|]. rewrite !allDescriptors_snoc.
    unfold groupDescriptors. simpl. rewrite <- app_assoc. reflexivity.
Qed.

Lemma foldl_groupStep_open fields : forall st,
  is_Some (currentGroup st) ->
  held (foldl groupStep st fields) = held st ++ fields.
Proof.
  induction fields as [|f fs IH]; intros st Hst; simpl.
  - rewrite app_nil_r. reflexivity.
  - destruct (groupStep_open st f Hst) as [Hopen Hheld].
    rewrite (IH _ Hopen), Hheld, <- app_assoc. reflexivity.
Qed.

Lemma foldl_groupStep_closed fields :
  held (foldl groupStep (mkGroupingState [] None) fields) =
  fromFirstHeader fields.
Proof.
  induction fields as [|f fs IH]; [reflexivity|].
  simpl. unfold groupStep at 2. simpl.
  destruct (isCollapse f) eqn:E; [|exact IH].
  rewrite foldl_groupStep_open by (simpl; eauto). reflexivity.
Qed.

Lemma length_pushCurrent_step st field :
  length (pushCurrent (groupStep st field)) =
  length (pushCurrent st) + (if isCollapse field then 1 else 0).
Proof.
  unfold groupStep, pushCurrent.
  destruct (isCollapse field), (currentGroup st) eqn:E; simpl;
    rewrite ?E, ?length_app; simpl; lia.
Qed.

Lemma length_foldl_groupStep fields : forall st,
  length (pushCurrent (foldl groupStep st fields)) =
  length (pushCurrent st) + headerCount fields.
Proof.
  unfold headerCount.
  induction fields as [|f fs IH]; intros st; simpl; [lia|].
  rewrite IH, length_pushCurrent_step, filter_cons.
  destruct (isCollapse f); case_decide; simpl; try congruence; lia.
Qed.

Lemma split_at_first_header fields :
  fields = beforeFirstHeader fields ++ fromFirstHeader fields.
Proof.
  induction fields as [|f fs IH]; [reflexivity|].
  simpl. destruct (isCollapse f); simpl; congruence.
Qed.

Lemma beforeFirstHeader_plain fields :
  Forall (fun f => isCollapse f = false) (beforeFirstHeader fields).
Proof.
  induction fields as [|f fs IH]; simpl; [constructor|].
  destruct (isCollapse f) eqn:E; constructor; assumption.
Qed.

Lemma groupStep_anchored st field :
  Forall anchored (pushCurrent st) ->
  Forall anchored (pushCurrent (groupStep st field)).
Proof.
  unfold groupStep, pushCurrent.
  destruct (isCollapse field) eqn:E, (currentGroup st) as [g|] eqn:Eg;
    simpl; rewrite ?Eg, ?Forall_app, ?Forall_singleton; unfold anchored;
    simpl; rewrite ?Forall_app, ?Forall_singleton; intuition.
Qed.

Lemma foldl_groupStep_anchored fields : forall st,
  Forall anchored (pushCurrent st) ->
  Forall anchored (pushCurrent (foldl groupStep st fields)).
Proof.
  induction fields as [|f fs IH]; intros st H; simpl; [exact H|].
  apply IH, groupStep_anchored, H.
Qed.

End Grouping.

(** C3. [groupFields] yields at most as many groups as the input has
    section headers (in fact exactly as many); the groups' descriptors,
    header then members, concatenated in output order, are the input list
    from its first header onward, position by position; the descriptors in
    front of the first header are the remaining prefix of the input and
    contain no header, so none of them is in a group; and every group is
    opened by a header and has no header among its members. *)
Theorem groupFields_partition (fields : list FormField) :
  length (groupFields fields) <= headerCount fields /\
  length (groupFields fields) = headerCount fields /\
  allDescriptors (groupFields fields) = fromFirstHeader fields /\
  fields = beforeFirstHeader fields ++ allDescriptors (groupFields fields) /\
  Forall (fun f => isCollapse f = false) (beforeFirstHeader fields) /\
  Forall anchored (groupFields fields).
Proof.
  assert (Hlen : length (groupFields fields) = headerCount fields).
  { unfold groupFields. rewrite length_foldl_groupStep. reflexivity. }
  assert (Hall : allDescriptors (groupFields fields) = fromFirstHeader fields).
  { apply foldl_groupStep_closed. }
  repeat split.
  - lia.
  - exact Hlen.
  - exact Hall.
  - rewrite Hall. apply split_at_first_header.
  - apply beforeFirstHeader_plain.
  - apply foldl_groupStep_anchored. constructor.
Qed.

(** C8. Removing white space is idempotent: a normalised string has no
    white space left and normalising it again returns it unchanged; and two
    strings that differ only by white space, inside or at either end, have
    the same normal form. *)
Theorem removeWhiteSpace_idempotent_and_invariant :
  (forall s, removeWhiteSpace (removeWhiteSpace s) = removeWhiteSpace s) /\
  (forall s, Forall (fun c => isWhiteSpace c = false) s ->
             removeWhiteSpace s = s) /\
  (forall s t, sameUpToWhiteSpace s t ->
               removeWhiteSpace s = removeWhiteSpace t).
Proof.
  split; [|split].
  - intros s. apply removeWhiteSpace_fixed, removeWhiteSpace_free.
  - apply removeWhiteSpace_fixed.
  - apply sameUpToWhiteSpace_normal.
Qed.

(** ** The field extractor: sequence numbers *)

Lemma describeFrom_order d els : forall k,
  map order (describeFrom d k els) = seq k (length els).
Proof.
  induction els as [|n els IH]; intros k; simpl; [reflexivity|].
  rewrite IH. reflexivity.
Qed.

Lemma length_describeFrom d els k : length (describeFrom d k els) = length els.
Proof.
  rewrite <- (length_map order), describeFrom_order. apply length_seq.
Qed.

(** C4. The [order] values of the extracted list are 1, 2, ..., n in this
    order, where n is the number of candidate elements: the section list
    items, plus one for the submit element when it exists and is not one of
    them.  Hence the i-th descriptor (from 0) has order i+1, orders are
    strictly increasing along the list, and no order occurs twice. *)
Theorem extractFieldsFromDOM_order (d : Document) :
  map order (extractFieldsFromDOM d) = seq 1 (length (allElementsOf d)) /\
  length (extractFieldsFromDOM d) = length (allElementsOf d) /\
  length (allElementsOf d) =
    length (fieldElementsOf d) +
    match buttonElementOf d with
    | Some b => if bool_decide (elem_of b (fieldElementsOf d)) then 0 else 1
    | None => 0
    end /\
  (forall i f, extractFieldsFromDOM d !! i = Some f -> order f = S i) /\
  (forall i j f g, i < j ->
     extractFieldsFromDOM d !! i = Some f ->
     extractFieldsFromDOM d !! j = Some g -> order f < order g) /\
  NoDup (map order (extractFieldsFromDOM d)).
Proof.
  assert (Hseq : map order (extractFieldsFromDOM d) =
                 seq 1 (length (allElementsOf d)))
    by apply describeFrom_order.
  assert (Hnth : forall i f, extractFieldsFromDOM d !! i = Some f -> order f = S i).
  { intros i f Hi.
    assert (H : map order (extractFieldsFromDOM d) !! i = Some (order f))
      by (rewrite list_lookup_fmap, Hi; reflexivity).
    rewrite Hseq in H. apply lookup_seq in H. lia. }
  repeat split.
  - exact Hseq.
  - apply length_describeFrom.
  - unfold allElementsOf. rewrite length_app.
    destruct (buttonElementOf d) as [b|]; [|reflexivity].
    case_bool_decide; reflexivity.
  - exact Hnth.
  - intros i j f g Hij Hi Hj. rewrite (Hnth _ _ Hi), (Hnth _ _ Hj). lia.
  - rewrite Hseq. apply NoDup_seq.
Qed.

(** ** Scripts: general facts *)

Section ScriptFacts.

Context {A B : Type}.

Lemma finalDocument_bind (m : Script A) (k : A -> Script B) d :
  finalDocument (bind m k) d =
  match completion m d with
  | Normal a => finalDocument (k a) (finalDocument m d)
  | _ => finalDocument m d
  end.
Proof.
  unfold finalDocument, completion, bind.
  destruct (m d) as [[a|e|] d']; reflexivity.
Qed.


Lemma bind_query (f : Document -> A) (k : A -> Script B) d :
  bind (query f) k d = k (f d) d.
Proof. reflexivity. Qed.

Lemma bind_ret (a : A) (k : A -> Script B) d : bind (ret a) k d = k a d.
Proof. reflexivity. Qed.

Context (R : Document -> Document -> Prop) `{!PreOrder R}.

Lemma keeps_ret (a : A) : keeps R (ret a).
Proof. intros d. reflexivity. Qed.

Lemma keeps_query (f : Document -> A) : keeps R (query f).
Proof. intros d. reflexivity. Qed.

Lemma keeps_throw e : keeps R (@throw A e).
Proof. intros d. reflexivity. Qed.

Lemma keeps_outsideModel : keeps R (@outsideModel A).
Proof. intros d. reflexivity. Qed.

Lemma keeps_bind (m : Script A) (k : A -> Script B) :
  keeps R m -> (forall a, keeps R (k a)) -> keeps R (bind m k).
Proof.
  intros Hm Hk d. rewrite finalDocument_bind.
  destruct (completion m d) as [a|e|]; [|apply Hm..].
  transitivity (finalDocument m d); [apply Hm | apply Hk].
Qed.

End ScriptFacts.

Lemma keeps_mutate R (f : Document -> Document) :
  (forall d, R d (f d)) -> keeps R (mutate f).
Proof. intros H d. apply H. Qed.

Lemma keeps_forIn {V} R `{!PreOrder R} (body : jsstring -> V -> Script unit) object :
  (forall key v, In (key, v) object -> keeps R (body key v)) ->
  keeps R (forIn body object).
Proof.
  induction object as [|[key v] rest IH]; intros H; simpl.
  - apply keeps_ret; assumption.
  - apply keeps_bind; [assumption | apply H; left; reflexivity |].
    intros _. apply IH. intros k' v' Hin. apply H. right. exact Hin.
Qed.

Lemma keeps_forEachFrom {X} R `{!PreOrder R} (body : X -> nat -> Script unit) l :
  (forall x i, keeps R (body x i)) ->
  forall index, keeps R (forEachFrom body index l).
Proof.
  intros H. induction l as [|x l IH]; intros index; simpl.
  - apply keeps_ret; assumption.
  - apply keeps_bind; [assumption | apply H | intros _; apply IH].
Qed.

Global Instance agreeOn_preorder {B} (h : Element -> B) : PreOrder (agreeOn h).
Proof.
  split.
  - intros d. reflexivity.
  - intros d1 d2 d3 H1 H2. unfold agreeOn in *. congruence.
Qed.

Lemma agreeOn_alter {B} (h : Element -> B) (f : Element -> Element) n d :
  (forall el, h (f el) = h el) -> agreeOn h d (alter f n d).
Proof.
  intros Hf. unfold agreeOn. revert n.
  induction d as [|el d IH]; intros [|n]; simpl; try reflexivity.
  - rewrite Hf. reflexivity.
  - f_equal. apply IH.
Qed.

Lemma agreeOn_lookup {B} (h : Element -> B) d d' n :
  agreeOn h d d' -> h <$> d !! n = h <$> d' !! n.
Proof.
  unfold agreeOn. intros H. rewrite <- !list_lookup_fmap.
  change (map h d !! n = map h d' !! n). rewrite H. reflexivity.
Qed.

Lemma agreeOn_length {B} (h : Element -> B) d d' :
  agreeOn h d d' -> length d = length d'.
Proof.
  unfold agreeOn. intros H.
  rewrite <- (length_map h d), <- (length_map h d'), H. reflexivity.
Qed.

(** ** Node lists *)

Lemma nodesWhere_In d P n :
  In n (nodesWhere d P) <-> exists el, d !! n = Some el /\ P n el = true.
Proof.
  unfold nodesWhere. rewrite List.filter_In, in_seq. split.
  - intros [_ H]. destruct (d !! n) as [el|]; [eauto | discriminate].
  - intros (el & Hel & HP). rewrite Hel. split; [|exact HP].
    apply lookup_lt_Some in Hel. lia.
Qed.

Lemma nodesWhere_ext d d' P P' :
  length d = length d' ->
  (forall n, n < length d ->
     match d !! n with Some el => P n el | None => false end =
     match d' !! n with Some el => P' n el | None => false end) ->
  nodesWhere d P = nodesWhere d' P'.
Proof.
  intros Hlen H. unfold nodesWhere. rewrite <- Hlen.
  apply List.filter_ext_in. intros n Hn. apply in_seq in Hn. apply H. lia.
Qed.

Lemma nodesWhere_none d P :
  (forall n el, d !! n = Some el -> P n el = false) -> nodesWhere d P = [].
Proof.
  intros H. destruct (nodesWhere d P) as [|n l] eqn:E; [reflexivity|].
  assert (Hin : In n (nodesWhere d P)) by (rewrite E; left; reflexivity).
  apply nodesWhere_In in Hin. destruct Hin as (el & Hel & HP).
  rewrite (H _ _ Hel) in HP. discriminate.
Qed.

Lemma head_In {X} (l : list X) x : head l = Some x -> In x l.
Proof. destruct l; simpl; intros H; [discriminate | left; congruence]. Qed.

(** ** What the mutations leave alone *)

Lemma keeps_assignValue R n v :
  (forall d, R d (writeValue n v d)) -> keeps R (assignValue n v).
Proof. intros H d. apply H. Qed.

Lemma agreeOn_imap {B} (h : Element -> B) (f : nat -> Element -> Element) d :
  (forall m el, h (f m el) = h el) -> agreeOn h d (imap f d).
Proof.
  intros Hf. unfold agreeOn. revert f Hf.
  induction d as [|el d IH]; intros f Hf; simpl; [reflexivity|].
  rewrite Hf. f_equal. apply IH. intros m el'. apply Hf.
Qed.

Ltac frame :=
  repeat match goal with
    | |- keeps _ (ret _) => apply keeps_ret; typeclasses eauto
    | |- keeps _ (query _) => apply keeps_query; typeclasses eauto
    | |- keeps _ (throw _) => apply keeps_throw; typeclasses eauto
    | |- keeps _ outsideModel => apply keeps_outsideModel; typeclasses eauto
    | |- keeps _ (bind _ _) => apply keeps_bind; [typeclasses eauto | | intros ?]
    | |- keeps _ (mutate _) => apply keeps_mutate; intros ?
    | |- keeps _ (assignValue _ _) => apply keeps_assignValue; intros ?
    | |- keeps _ (match ?x with _ => _ end) => destruct x
    end.

Section Frames.

Context {B : Type} (h : Element -> B).

Lemma agreeOn_detach n d : ignoresPlace h -> agreeOn h d (detach n d).
Proof. intros H. apply agreeOn_alter. intros el. apply H. Qed.

Lemma agreeOn_writeValue n v d : ignoresValue h -> agreeOn h d (writeValue n v d).
Proof.
  intros H. unfold writeValue.
  destruct (valueSetter d n v); [|reflexivity..].
  apply agreeOn_alter. intros el. apply H.
Qed.

Lemma agreeOn_writeChecked n d : ignoresChecked h -> agreeOn h d (writeChecked n d).
Proof.
  intros H. apply agreeOn_imap. intros m el.
  case_bool_decide; [apply H|]. destruct (inRadioGroupOf d n m); [apply H | reflexivity].
Qed.


Lemma keeps_removeItem items i :
  ignoresPlace h -> keeps (agreeOn h) (removeItem items i).
Proof. intros Hp. unfold removeItem. frame. apply agreeOn_detach, Hp. Qed.

Lemma keeps_selectBranch e groupData :
  ignoresPlace h -> keeps (agreeOn h) (selectBranch e groupData).
Proof.
  intros Hp. unfold selectBranch, querySelectorAllIn.
  frame; apply keeps_removeItem, Hp.
Qed.


Lemma keeps_writeIfPresent input v :
  ignoresValue h -> keeps (agreeOn h) (writeIfPresent input v).
Proof. intros Hv. unfold writeIfPresent. frame. apply agreeOn_writeValue, Hv. Qed.

Lemma keeps_applyDateValue e v :
  ignoresValue h -> keeps (agreeOn h) (applyDateValue e v).
Proof.
  intros Hv. unfold applyDateValue, querySelectorIn.
  frame; apply keeps_writeIfPresent, Hv.
Qed.

Lemma keeps_applyPlainValue e v :
  ignoresValue h -> ignoresChecked h -> keeps (agreeOn h) (applyPlainValue e v).
Proof.
  intros Hv Hc.
  unfold applyPlainValue, querySelectorIn, querySelectorAllNameValue,
    querySelectorAll.
  frame; first [apply agreeOn_writeValue, Hv | apply agreeOn_writeChecked, Hc].
Qed.

Lemma keeps_applyToField f v :
  ignoresValue h -> ignoresChecked h -> keeps (agreeOn h) (applyToField f v).
Proof.
  intros Hv Hc. unfold applyToField, getElementById.
  frame; [apply keeps_applyDateValue | apply keeps_applyPlainValue]; assumption.
Qed.

Lemma keeps_applyFieldValue g key v :
  ignoresValue h -> ignoresChecked h -> keeps (agreeOn h) (applyFieldValue g key v).
Proof.
  intros Hv Hc. unfold applyFieldValue.
  frame. apply keeps_applyToField; assumption.
Qed.



(** Without a payload entry, a group is only ever reduced. *)
Lemma keeps_branchSelection i groupData :
  ignoresPlace h -> keeps (agreeOn h) (branchSelection i groupData).
Proof.
  intros Hp. unfold branchSelection, getElementById.
  frame. apply keeps_selectBranch, Hp.
Qed.


(** Without a payload entry, a group is only ever reduced. *)
Lemma keeps_processGroup_absent g :
  ignoresPlace h -> keeps (agreeOn h) (processGroup None g).
Proof.
  intros Hp. unfold processGroup.
  frame. apply keeps_branchSelection, Hp.
Qed.


End Frames.

(** ** Descent and detaching *)

Lemma wellFormedFrom_sound els : forall k n el p,
  wellFormedFrom k els = true ->
  els !! n = Some el -> place el = ChildOf p -> p < k + n.
Proof.
  induction els as [|e els IH]; intros k n el p Hc Hn Hp; [discriminate|].
  simpl in Hc. apply andb_true_iff in Hc as [H1 H2].
  destruct n as [|n]; simpl in Hn.
  - inversion Hn; subst. rewrite Hp in H1. apply Nat.ltb_lt in H1. lia.
  - specialize (IH (S k) n el p H2 Hn Hp). lia.
Qed.

Lemma wellFormed_checked d : wellFormedFrom 0 d = true -> wellFormed d.
Proof. intros H n el p Hn Hp. apply (wellFormedFrom_sound d 0 n el p H Hn Hp). Qed.

Lemma lookup_detach x d n :
  detach x d !! n =
  if decide (x = n) then withPlace Detached <$> d !! n else d !! n.
Proof.
  unfold detach. rewrite list_lookup_alter.
  destruct (decide (x = n)); subst; reflexivity.
Qed.

Lemma length_detach x d : length (detach x d) = length d.
Proof. apply length_alter. Qed.

Lemma wellFormed_detach x d : wellFormed d -> wellFormed (detach x d).
Proof.
  intros Hwf n el p Hn Hp. rewrite lookup_detach in Hn.
  destruct (decide (x = n)); [|eauto].
  destruct (d !! n); simpl in Hn; inversion Hn; subst. discriminate.
Qed.

Lemma below_lt d : wellFormed d ->
  forall f a n, below f d (Some a) n = true -> a < n.
Proof.
  intros Hwf f. induction f as [|f IH]; simpl; intros a n H; [discriminate|].
  destruct (d !! n) as [el|] eqn:E; simpl in H; [|discriminate].
  destruct (place el) as [| |p] eqn:Ep; try discriminate.
  specialize (Hwf n el p E Ep).
  apply orb_true_iff in H as [H|H].
  - apply bool_decide_eq_true in H. inversion H; subst. exact Hwf.
  - apply IH in H. lia.
Qed.

Lemma below_detach_self f d a x : below f (detach x d) a x = false.
Proof.
  destruct f; simpl; [reflexivity|].
  rewrite lookup_detach. destruct (decide (x = x)); [|congruence].
  destruct (d !! x); reflexivity.
Qed.

Lemma below_detach_other x d a : forall f n,
  n <> x -> below f d (Some x) n = false ->
  below f (detach x d) a n = below f d a n.
Proof.
  induction f as [|f IH]; simpl; intros n Hn H; [reflexivity|].
  rewrite lookup_detach. destruct (decide (x = n)); [congruence|].
  destruct (d !! n) as [el|]; simpl in *; [|reflexivity].
  destruct (place el) as [| |p]; try reflexivity.
  apply orb_false_iff in H as [H1 H2].
  apply bool_decide_eq_false in H1.
  rewrite IH; [reflexivity | congruence | exact H2].
Qed.

Lemma below_detach_mono x d a : forall f n,
  below f (detach x d) a n = true -> below f d a n = true.
Proof.
  induction f as [|f IH]; simpl; intros n H; [discriminate|].
  rewrite lookup_detach in H. destruct (decide (x = n)).
  - destruct (d !! n); discriminate.
  - destruct (d !! n) as [el|]; simpl in *; [|discriminate].
    destruct (place el) as [| |p]; try assumption.
    apply orb_true_iff in H as [H|H]; apply orb_true_iff; [left | right]; auto.
Qed.

Lemma below_detach_cut x d e : wellFormed d -> e < x ->
  forall f n, below f d (Some x) n = true ->
              below f (detach x d) (Some e) n = false.
Proof.
  intros Hwf Hex. induction f as [|f IH]; simpl; intros n H; [reflexivity|].
  rewrite lookup_detach. destruct (decide (x = n)).
  - destruct (d !! n); reflexivity.
  - destruct (d !! n) as [el|] eqn:E; simpl in *; [|reflexivity].
    destruct (place el) as [| |p]; try reflexivity.
    apply orb_true_iff in H as [H|H].
    + apply bool_decide_eq_true in H. inversion H; subst p.
      rewrite below_detach_self, orb_false_r.
      apply bool_decide_eq_false. intros Heq. inversion Heq. lia.
    + rewrite (IH _ H), orb_false_r.
      apply below_lt in H; [|exact Hwf].
      apply bool_decide_eq_false. intros Heq. inversion Heq. lia.
Qed.

Lemma descendantOf_detach d e x n :
  wellFormed d -> descendantOf d e x = true ->
  descendantOf (detach x d) e n =
  descendantOf d e n && negb (bool_decide (n = x)) && negb (descendantOf d x n).
Proof.
  intros Hwf Hx. unfold descendantOf in *. rewrite length_detach.
  assert (Hex : e < x) by (eapply below_lt; eauto).
  case_bool_decide as Hn; simpl.
  - subst. rewrite below_detach_self.
    destruct (below (length d) d (Some e) x); reflexivity.
  - destruct (below (length d) d (Some x) n) eqn:Hb; simpl.
    + rewrite (below_detach_cut x d e Hwf Hex _ _ Hb).
      destruct (below (length d) d (Some e) n); reflexivity.
    + rewrite below_detach_other by assumption.
      destruct (below (length d) d (Some e) n); reflexivity.
Qed.

Lemma filter_filter_bool {X} (f g : X -> bool) l :
  List.filter g (List.filter f l) = List.filter (fun x => f x && g x) l.
Proof.
  induction l as [|x l IH]; simpl; [reflexivity|].
  destruct (f x); simpl; [destruct (g x)|]; rewrite IH; reflexivity.
Qed.

Lemma radioItemsOf_detach d e x :
  wellFormed d -> In x (radioItemsOf d e) ->
  radioItemsOf (detach x d) e =
  List.filter (fun n => negb (bool_decide (n = x)) && negb (descendantOf d x n))
              (radioItemsOf d e).
Proof.
  intros Hwf Hin. apply nodesWhere_In in Hin as (elx & Hx & Hpx).
  apply andb_true_iff in Hpx as [Hbx _].
  unfold radioItemsOf, nodesWhere. rewrite length_detach, filter_filter_bool.
  apply List.filter_ext_in. intros n _.
  rewrite lookup_detach. destruct (decide (x = n)).
  - subst n. rewrite Hx. simpl. rewrite descendantOf_detach by assumption.
    rewrite bool_decide_eq_true_2 by reflexivity.
    destruct (descendantOf d e x), (isRadioItem (withPlace Detached elx)),
      (isRadioItem elx), (descendantOf d x x); reflexivity.
  - destruct (d !! n) as [el|]; [|reflexivity].
    rewrite descendantOf_detach by assumption.
    destruct (descendantOf d e n), (isRadioItem el), (bool_decide (n = x)),
      (descendantOf d x n); reflexivity.
Qed.

Lemma StronglySorted_filter_lt (f : nat -> bool) l :
  StronglySorted lt l -> StronglySorted lt (List.filter f l).
Proof.
  induction 1 as [|x l Hl IH Hx]; simpl; [constructor|].
  destruct (f x); [|exact IH]. constructor; [exact IH|].
  rewrite List.Forall_forall in *. intros y Hy.
  apply List.filter_In in Hy as [Hy _]. auto.
Qed.

Lemma StronglySorted_seq a n : StronglySorted lt (seq a n).
Proof.
  revert a. induction n as [|n IH]; intros a; simpl; constructor; [apply IH|].
  rewrite List.Forall_forall. intros y Hy. apply in_seq in Hy. lia.
Qed.

Lemma nodesWhere_sorted d P : StronglySorted lt (nodesWhere d P).
Proof. apply StronglySorted_filter_lt, StronglySorted_seq. Qed.

(** Removing one choice item leaves the others in place, provided none of
    the later ones sits inside it. *)
Lemma radioItemsOf_remove d e pre x post :
  wellFormed d ->
  radioItemsOf d e = pre ++ x :: post ->
  Forall (fun n => descendantOf d x n = false) post ->
  radioItemsOf (detach x d) e = pre ++ post.
Proof.
  intros Hwf Hitems Hpost.
  assert (Hs : StronglySorted lt (pre ++ x :: post))
    by (rewrite <- Hitems; apply nodesWhere_sorted).
  apply StronglySorted_app in Hs as (Hlt & _ & Hs2).
  apply StronglySorted_inv in Hs2 as [_ Hgt].
  rewrite radioItemsOf_detach;
    [|exact Hwf | rewrite Hitems; apply in_or_app; right; left; reflexivity].
  rewrite Hitems, List.filter_app. simpl.
  rewrite bool_decide_eq_true_2 by reflexivity. simpl.
  f_equal; apply forallb_filter_id, forallb_forall; intros n Hn.
  - assert (n < x) by (apply Hlt; [apply list_elem_of_In; exact Hn | left]).
    rewrite bool_decide_eq_false_2 by lia. simpl.
    destruct (descendantOf d x n) eqn:Hb; [|reflexivity].
    apply below_lt in Hb; [lia | exact Hwf].
  - rewrite List.Forall_forall in Hgt, Hpost.
    specialize (Hgt _ Hn). rewrite (Hpost _ Hn).
    rewrite bool_decide_eq_false_2 by lia. reflexivity.
Qed.

Lemma descendantOf_detach_mono d x e n :
  descendantOf (detach x d) e n = true -> descendantOf d e n = true.
Proof.
  unfold descendantOf. rewrite length_detach. apply below_detach_mono.
Qed.

(** ** The sample page *)

Example samplePage_wellFormed : wellFormed samplePage.
Proof. apply wellFormed_checked. vm_compute. reflexivity. Qed.

Example samplePage_extracted :
  groupFields (extractFieldsFromDOM samplePage) = [sampleGroup].
Proof. vm_compute. reflexivity. Qed.

(** ** Branch selection *)

Lemma selectBranch_present d e a b c x rest gd :
  radioItemsOf d e = a :: b :: c :: x :: rest ->
  selectBranch e (Some gd) d = (Normal tt, detach c (detach x d)).
Proof.
  intros H. unfold selectBranch, bind, querySelectorAllIn, query.
  change (nodesWhere d (fun n el => descendantOf d e n && isRadioItem el))
    with (radioItemsOf d e).
  rewrite H. reflexivity.
Qed.

Lemma selectBranch_absent d e a b c x rest :
  radioItemsOf d e = a :: b :: c :: x :: rest ->
  selectBranch e None d = (Normal tt, detach a (detach b d)).
Proof.
  intros H. unfold selectBranch, bind, querySelectorAllIn, query.
  change (nodesWhere d (fun n el => descendantOf d e n && isRadioItem el))
    with (radioItemsOf d e).
  rewrite H. reflexivity.
Qed.

Lemma selectBranch_few d e groupData :
  length (radioItemsOf d e) < 4 -> selectBranch e groupData d = (Normal tt, d).
Proof.
  intros H. unfold selectBranch, bind, querySelectorAllIn, query.
  change (nodesWhere d (fun n el => descendantOf d e n && isRadioItem el))
    with (radioItemsOf d e).
  destruct (Nat.leb_spec 4 (length (radioItemsOf d e))); [lia | reflexivity].
Qed.

(** After the first two items are gone, the others are still the choice
    items of the element, unless one of them sat inside a removed one. *)
Lemma radioItemsOf_first_two_removed d e a b rest :
  wellFormed d ->
  radioItemsOf d e = a :: b :: rest ->
  Forall (fun n => descendantOf d a n = false /\ descendantOf d b n = false) rest ->
  radioItemsOf (detach a (detach b d)) e = rest.
Proof.
  intros Hwf Hitems Hflat.
  assert (H1 : radioItemsOf (detach b d) e = [a] ++ rest).
  { apply radioItemsOf_remove; [exact Hwf | exact Hitems |].
    eapply Forall_impl; [exact Hflat | intros n [_ Hn]; exact Hn]. }
  apply (radioItemsOf_remove (detach b d) e [] a rest).
  - apply wellFormed_detach, Hwf.
  - exact H1.
  - eapply Forall_impl; [exact Hflat|]. intros n [Hn _].
    destruct (descendantOf (detach b d) a n) eqn:E; [|reflexivity].
    apply descendantOf_detach_mono in E. congruence.
Qed.

Lemma nodesWhere_NoDup d P : NoDup (nodesWhere d P).
Proof. apply NoDup_ListNoDup, List.NoDup_filter, List.seq_NoDup. Qed.

Lemma NoDup_lookup_ne (l : list nat) j k u v :
  NoDup l -> l !! j = Some u -> l !! k = Some v -> j <> k -> u <> v.
Proof.
  intros Hnd Hj Hk Hjk Heq. subst v. apply Hjk.
  eapply NoDup_lookup; eassumption.
Qed.

Lemma lookup_detach_ne x d n : x <> n -> detach x d !! n = d !! n.
Proof. intros H. rewrite lookup_detach. destruct (decide (x = n)); congruence. Qed.

Lemma place_detach_eq x d :
  x < length d -> place <$> detach x d !! x = Some Detached.
Proof.
  intros H. rewrite lookup_detach. destruct (decide (x = x)); [|congruence].
  destruct (lookup_lt_is_Some_2 d x H) as [el ->]. reflexivity.
Qed.

Lemma radioItemsOf_lt d e n : In n (radioItemsOf d e) -> n < length d.
Proof.
  intros H. apply nodesWhere_In in H as (el & Hel & _).
  eapply lookup_lt_Some, Hel.
Qed.

(** C2. A group whose request-content field resolves to an element with
    exactly four choice items [a; b; c; x] (document order).  With a payload
    entry, branch selection removes the item at index 3 and then the one at
    index 2 and leaves the items at indices 0 and 1 as they are; the
    prefill continues from that document, and the choice items of the
    element are then [a; b], in their original order.  Without a payload
    entry, processing the group removes the item at index 1 and then the
    one at index 0, leaves the items at indices 2 and 3 as they are and
    does nothing else; the choice items of the element are then [c; x],
    given that neither of them sits inside a removed item.  (Asking the
    page again for the choice items presupposes a store in document
    order.) *)
Theorem branchSelection_four_items
    (d : Document) (g : FieldGroup) (rf : FormField) (i : jsstring)
    (e a b c x : Node) :
  requestFieldOf g = Some rf ->
  usableId rf = Some i ->
  getElementById i d = (Normal (Some e), d) ->
  radioItemsOf d e = [a; b; c; x] ->
  (forall gd,
     let d' := detach c (detach x d) in
     branchSelection i (Some gd) d = (Normal tt, d') /\
     processGroup (Some gd) g d = prefillGroup g gd d' /\
     place <$> d' !! x = Some Detached /\
     place <$> d' !! c = Some Detached /\
     d' !! a = d !! a /\
     d' !! b = d !! b /\
     (wellFormed d -> radioItemsOf d' e = [a; b])) /\
  (let d' := detach a (detach b d) in
   processGroup None g d = (Normal tt, d') /\
   place <$> d' !! b = Some Detached /\
   place <$> d' !! a = Some Detached /\
   d' !! c = d !! c /\
   d' !! x = d !! x /\
   (wellFormed d ->
    Forall (fun n => descendantOf d a n = false /\ descendantOf d b n = false)
           [c; x] ->
    radioItemsOf d' e = [c; x])).
Proof.
  intros Hrf Hid Hget Hitems.
  assert (Hnd : NoDup [a; b; c; x])
    by (rewrite <- Hitems; apply nodesWhere_NoDup).
  assert (Hlt : forall n, In n [a; b; c; x] -> n < length d)
    by (intros n Hn; rewrite <- Hitems in Hn; eapply radioItemsOf_lt, Hn).
  assert (Hd : forall j k u v, [a; b; c; x] !! j = Some u ->
                 [a; b; c; x] !! k = Some v -> j <> k -> u <> v)
    by (intros j k u v; apply NoDup_lookup_ne, Hnd).
  assert (Hne : a <> b /\ a <> c /\ a <> x /\ b <> c /\ b <> x /\ c <> x).
  { repeat split;
      [ apply (Hd 0 1) | apply (Hd 0 2) | apply (Hd 0 3)
      | apply (Hd 1 2) | apply (Hd 1 3) | apply (Hd 2 3) ];
      (reflexivity || lia). }
  destruct Hne as (Hab & Hac & Hax & Hbc & Hbx & Hcx).
  split.
  - intros gd d'.
    assert (Hb : branchSelection i (Some gd) d = (Normal tt, d')).
    { unfold branchSelection, bind. rewrite Hget.
      apply (selectBranch_present d e a b c x [] gd Hitems). }
    split; [exact Hb|].
    split; [|split; [|split; [|split; [|split]]]].
    + unfold processGroup. rewrite Hrf, Hid.
      unfold bind at 1. rewrite Hb. reflexivity.
    + unfold d'. rewrite lookup_detach_ne by congruence.
      apply place_detach_eq, Hlt. simpl. auto.
    + unfold d'. apply place_detach_eq. rewrite length_detach.
      apply Hlt. simpl. auto.
    + unfold d'. rewrite !lookup_detach_ne by congruence. reflexivity.
    + unfold d'. rewrite !lookup_detach_ne by congruence. reflexivity.
    + intros Hwf.
      assert (H1 : radioItemsOf (detach x d) e = [a; b; c] ++ []).
      { apply radioItemsOf_remove; [exact Hwf | exact Hitems | constructor]. }
      rewrite <- (app_nil_r [a; b]).
      apply radioItemsOf_remove;
        [apply wellFormed_detach, Hwf | exact H1 | constructor].
  - intros d'. split; [|split; [|split; [|split; [|split]]]].
    + unfold processGroup. rewrite Hrf, Hid.
      unfold branchSelection, bind. rewrite Hget.
      rewrite (selectBranch_absent d e a b c x [] Hitems). reflexivity.
    + unfold d'. rewrite lookup_detach_ne by congruence.
      apply place_detach_eq, Hlt. simpl. auto.
    + unfold d'. apply place_detach_eq. rewrite length_detach.
      apply Hlt. simpl. auto.
    + unfold d'. rewrite !lookup_detach_ne by congruence. reflexivity.
    + unfold d'. rewrite !lookup_detach_ne by congruence. reflexivity.
    + intros Hwf Hflat. apply radioItemsOf_first_two_removed; assumption.
Qed.

Lemma branchSelection_four_items_witness :
  radioItemsOf (detach 10 (detach 12 samplePage)) 4 = [6; 8] /\
  radioItemsOf (detach 6 (detach 8 samplePage)) 4 = [10; 12].
Proof.
  destruct (branchSelection_four_items samplePage sampleGroup
              sampleRequestField (lit "id_11") 4 6 8 10 12)
    as (Hpresent & Habsent).
  - vm_compute. reflexivity.
  - vm_compute. reflexivity.
  - vm_compute. reflexivity.
  - vm_compute. reflexivity.
  - split.
    + apply (Hpresent (mkQueryGroupData [] [])). exact samplePage_wellFormed.
    + apply Habsent; [exact samplePage_wellFormed | repeat constructor].
Defined.

(** ** The header override *)

Lemma lookup_writeTextContent h t d n :
  writeTextContent h t d !! n =
  (fun el =>
     (if decide (h = n) then withOwnText t else fun el' => el')
       (if bool_decide (place el = ChildOf h) then withPlace Detached el else el))
  <$> d !! n.
Proof.
  unfold writeTextContent. rewrite list_lookup_alter.
  destruct (decide (h = n)) as [->|]; rewrite list_lookup_fmap;
    destruct (d !! n); reflexivity.
Qed.

Lemma writeTextContent_childless h t d n el :
  writeTextContent h t d !! n = Some el -> place el <> ChildOf h.
Proof.
  rewrite lookup_writeTextContent.
  destruct (d !! n) as [el0|]; simpl; [|discriminate].
  intros H. inversion H; subst el. clear H.
  destruct (decide (h = n)); case_bool_decide; simpl; congruence.
Qed.

Lemma below_childless d h :
  (forall n el, d !! n = Some el -> place el <> ChildOf h) ->
  forall f n, below f d (Some h) n = false.
Proof.
  intros Hd. induction f as [|f IH]; intros n; simpl; [reflexivity|].
  destruct (d !! n) as [el|] eqn:E; simpl; [|reflexivity].
  destruct (place el) as [| |p] eqn:Ep; try reflexivity.
  rewrite IH, orb_false_r. apply bool_decide_eq_false.
  intros Heq. inversion Heq; subst p. exact (Hd n el E Ep).
Qed.

(** Reading the text back after the assignment gives the assigned text. *)
Lemma textContent_writeTextContent h t d :
  h < length d -> textContent (writeTextContent h t d) h = t.
Proof.
  intros Hh. unfold textContent.
  rewrite (nodesWhere_none (writeTextContent h t d)).
  - rewrite lookup_writeTextContent.
    destruct (lookup_lt_is_Some_2 d h Hh) as [el Hel]. rewrite Hel. simpl.
    destruct (decide (h = h)); [|congruence].
    simpl. apply app_nil_r.
  - intros n el _. apply below_childless.
    intros m el'. apply writeTextContent_childless.
Qed.

Lemma querySelectorCollapseMid_valid i d h c :
  querySelectorCollapseMid i d = (c, d) -> c = Normal (Some h) -> h < length d.
Proof.
  unfold querySelectorCollapseMid, query, throw, outsideModel.
  destruct (idSelectorText i); intros H Hc; subst c; inversion H as [Hh].
  apply head_In, nodesWhere_In in Hh. destruct Hh as (el & Hel & _).
  eapply lookup_lt_Some, Hel.
Qed.

Lemma overrideHeader_empty g gd d :
  headerText gd = [] -> finalDocument (overrideHeader g gd) d = d.
Proof.
  intros He. unfold overrideHeader.
  destruct (usableId (collapseField g)) as [i|]; [|reflexivity].
  rewrite finalDocument_bind. unfold querySelectorCollapseMid.
  destruct (idSelectorText i); try reflexivity.
  unfold completion, finalDocument, query. simpl.
  destruct (head _); rewrite ?He; reflexivity.
Qed.

(** C9. An entry whose [headerText] is empty declares no override: the
    header step leaves the document as it is, and processing the whole
    group changes the text of no element.  The step changes the document
    only if [headerText] is not empty and the classed sub-element of the
    header exists; and whenever both hold, the step assigns the text: read
    back from the sub-element, it is [headerText]. *)
Theorem overrideHeader_only_with_text
    (g : FieldGroup) (gd : QueryGroupData) (d : Document) :
  (headerText gd = [] ->
     finalDocument (overrideHeader g gd) d = d /\
     agreeOn ownText d (finalDocument (processGroup (Some gd) g) d)) /\
  (finalDocument (overrideHeader g gd) d <> d ->
     headerText gd <> [] /\
     exists i h, usableId (collapseField g) = Some i /\
                 querySelectorCollapseMid i d = (Normal (Some h), d)) /\
  (forall i h,
     usableId (collapseField g) = Some i ->
     querySelectorCollapseMid i d = (Normal (Some h), d) ->
     headerText gd <> [] ->
     finalDocument (overrideHeader g gd) d = writeTextContent h (headerText gd) d /\
     textContent (writeTextContent h (headerText gd) d) h = headerText gd).
Proof.
  split; [|split].
  - intros He. split; [apply overrideHeader_empty, He|].
    unfold processGroup.
    destruct (requestFieldOf g) as [rf|]; [|reflexivity].
    destruct (usableId rf) as [i|]; [|reflexivity].
    apply keeps_bind; [typeclasses eauto | |intros _].
    + apply keeps_branchSelection. intros p el. reflexivity.
    + unfold prefillGroup. apply keeps_bind; [typeclasses eauto | |intros _].
      * intros d0. rewrite overrideHeader_empty by exact He. reflexivity.
      * apply keeps_forIn; [typeclasses eauto|]. intros key v _.
        apply keeps_applyFieldValue; intros ? el; reflexivity.
  - intros Hch. split.
    + intros He. apply Hch, overrideHeader_empty, He.
    + unfold overrideHeader in Hch.
      destruct (usableId (collapseField g)) as [i|];
        [|exfalso; apply Hch; reflexivity].
      exists i. unfold querySelectorCollapseMid in *.
      destruct (idSelectorText i); try (exfalso; apply Hch; reflexivity).
      unfold finalDocument, bind, query in Hch. unfold query.
      destruct (head _) as [h|]; [|exfalso; apply Hch; reflexivity].
      exists h. split; reflexivity.
  - intros i h Hi Hq Hne. split.
    + unfold overrideHeader. rewrite Hi.
      unfold finalDocument, bind. rewrite Hq.
      destruct (headerText gd); [congruence | reflexivity].
    + apply textContent_writeTextContent.
      eapply querySelectorCollapseMid_valid; [exact Hq | reflexivity].
Qed.

Lemma overrideHeader_only_with_text_witness :
  finalDocument
    (overrideHeader sampleGroup (mkQueryGroupData [] [])) samplePage = samplePage /\
  textContent (writeTextContent 3 (lit "Changed") samplePage) 3 = lit "Changed".
Proof.
  split.
  - destruct (overrideHeader_only_with_text sampleGroup
                (mkQueryGroupData [] []) samplePage) as (Hempty & _ & _).
    apply Hempty. reflexivity.
  - destruct (overrideHeader_only_with_text sampleGroup
                (mkQueryGroupData (lit "Changed") []) samplePage)
      as (_ & _ & Hwrite).
    apply (Hwrite (lit "id_10") 3).
    + vm_compute. reflexivity.
    + vm_compute. reflexivity.
    + discriminate.
Defined.

(** ** Instances on concrete data *)

Lemma removeWhiteSpace_idempotent_and_invariant_witness :
  removeWhiteSpace (lit " a b") = lit "ab" /\
  removeWhiteSpace (requestContent ++ [12288%N]) =
  removeWhiteSpace ([32%N] ++ requestContent).
Proof.
  destruct removeWhiteSpace_idempotent_and_invariant as (_ & Hfixed & Hsame).
  split.
  - transitivity (removeWhiteSpace (lit "ab")).
    + apply Hsame. vm_compute.
      repeat first [ apply sws_nil | apply sws_keep
                   | apply sws_left; [reflexivity|]
                   | apply sws_right; [reflexivity|] ].
    + apply Hfixed. vm_compute. repeat constructor.
  - apply Hsame. vm_compute.
    repeat first [ apply sws_nil | apply sws_keep
                 | apply sws_left; [reflexivity|]
                 | apply sws_right; [reflexivity|] ].
Defined.

Lemma extractFieldsFromDOM_order_witness :
  map order (extractFieldsFromDOM samplePage) = [1; 2; 3; 4; 5] /\
  order sampleDateField = 4.
Proof.
  destruct (extractFieldsFromDOM_order samplePage) as (Hseq & _ & _ & Hnth & _).
  split.
  - rewrite Hseq. vm_compute. reflexivity.
  - apply (Hnth 3 sampleDateField). vm_compute. reflexivity.
Defined.

(** ** Without a payload *)

Global Instance reducedFrom_preorder : PreOrder reducedFrom.
Proof.
  split.
  - intros d. split; [reflexivity | auto].
  - intros d1 d2 d3 [Ha1 Hp1] [Ha2 Hp2]. split; [etransitivity; eassumption|].
    intros n el Hn. destruct (Hp2 n el Hn) as [?|H2]; [auto|].
    apply Hp1, H2.
Qed.

Lemma contentOf_withPlace p el : contentOf (withPlace p el) = contentOf el.
Proof. reflexivity. Qed.

Lemma isRadioItem_contentOf el : isRadioItem (contentOf el) = isRadioItem el.
Proof. reflexivity. Qed.

Lemma reducedFrom_detach x d : reducedFrom d (detach x d).
Proof.
  split.
  - apply agreeOn_detach. intros p el. apply contentOf_withPlace.
  - intros n el' Hn. rewrite lookup_detach in Hn.
    destruct (decide (x = n)); [|auto].
    destruct (d !! n); simpl in Hn; inversion Hn; subst. left. reflexivity.
Qed.

Lemma reducedFrom_wellFormed d d' :
  reducedFrom d d' -> wellFormed d -> wellFormed d'.
Proof.
  intros [_ Hp] Hwf n el p Hn Hpl.
  destruct (Hp n el Hn) as [H|H]; [congruence | eauto].
Qed.

Lemma reducedFrom_below d d' : reducedFrom d d' ->
  forall f a n, below f d' a n = true -> below f d a n = true.
Proof.
  intros [_ Hp]. induction f as [|f IH]; simpl; intros a n H; [discriminate|].
  destruct (d' !! n) as [el|] eqn:E; simpl in H; [|discriminate].
  destruct (Hp n el E) as [Hd|Hd]; [rewrite Hd in H; discriminate|].
  rewrite Hd. simpl. destruct (place el); try assumption.
  apply orb_true_iff in H as [H|H]; apply orb_true_iff; [left | right]; auto.
Qed.

Lemma reducedFrom_flatItems d d' :
  reducedFrom d d' -> flatItems d -> flatItems d'.
Proof.
  intros Hr Hflat x y ex ey Hx Hy Hix Hiy.
  destruct (descendantOf d' x y) eqn:E; [|reflexivity].
  assert (Hlen : length d = length d') by (eapply agreeOn_length, Hr).
  unfold descendantOf in E. rewrite <- Hlen in E.
  apply (reducedFrom_below d d' Hr) in E.
  destruct Hr as [Ha _].
  pose proof (agreeOn_lookup contentOf d d' x Ha) as Hcx.
  pose proof (agreeOn_lookup contentOf d d' y Ha) as Hcy.
  rewrite Hx in Hcx. rewrite Hy in Hcy.
  destruct (d !! x) as [ex0|] eqn:Ex0; [|discriminate].
  destruct (d !! y) as [ey0|] eqn:Ey0; [|discriminate].
  simpl in Hcx, Hcy.
  assert (Hcx' : contentOf ex0 = contentOf ex) by (apply (inj Some), Hcx).
  assert (Hcy' : contentOf ey0 = contentOf ey) by (apply (inj Some), Hcy).
  assert (Hx0 : isRadioItem ex0 = true).
  { rewrite <- isRadioItem_contentOf, Hcx', isRadioItem_contentOf. exact Hix. }
  assert (Hy0 : isRadioItem ey0 = true).
  { rewrite <- isRadioItem_contentOf, Hcy', isRadioItem_contentOf. exact Hiy. }
  rewrite <- (Hflat x y ex0 ey0 Ex0 Ey0 Hx0 Hy0). symmetry. exact E.
Qed.

Lemma keeps_reduced_processGroup g : keeps reducedFrom (processGroup None g).
Proof.
  unfold processGroup, branchSelection, getElementById, selectBranch,
    querySelectorAllIn, removeItem.
  frame; apply reducedFrom_detach.
Qed.

Lemma completion_processGroup_absent g d :
  completion (processGroup None g) d = Normal tt.
Proof.
  unfold processGroup.
  destruct (requestFieldOf g) as [rf|]; [|reflexivity].
  destruct (usableId rf) as [i|]; [|reflexivity].
  unfold completion, branchSelection, bind, getElementById, query.
  destruct (if truthy i then _ else _) as [e|]; [|reflexivity].
  unfold selectBranch, bind, querySelectorAllIn, query.
  destruct (nodesWhere d _) as [|a [|b [|c [|x rest]]]]; reflexivity.
Qed.

Lemma applyDataToForm_null_unfold gs d :
  applyDataToForm gs None d =
  forEachFrom (fun g _ => processGroup None g) 0 gs d.
Proof. reflexivity. Qed.

Lemma forEachFrom_absent gs : forall index d,
  forEachFrom (fun g (_ : nat) => processGroup None g) index gs d =
  (Normal tt, foldl (fun d g => finalDocument (processGroup None g) d) d gs).
Proof.
  induction gs as [|g gs IH]; intros index d; simpl; [reflexivity|].
  unfold bind at 1.
  pose proof (completion_processGroup_absent g d) as Hc.
  unfold completion in Hc. unfold finalDocument at 2.
  destruct (processGroup None g d) as [c d']. simpl in *. subst c.
  apply IH.
Qed.

Lemma documentBefore_step gs k g d :
  gs !! k = Some g ->
  documentBefore gs (S k) d =
  finalDocument (processGroup None g) (documentBefore gs k d).
Proof.
  intros Hk. unfold documentBefore, finalDocument at 1 3.
  rewrite !applyDataToForm_null_unfold, !forEachFrom_absent. simpl.
  rewrite (take_S_r _ _ _ Hk), foldl_app. reflexivity.
Qed.

Lemma keeps_reduced_null gs : keeps reducedFrom (applyDataToForm gs None).
Proof.
  unfold applyDataToForm, applyTopLevel, forEach.
  apply keeps_bind; [typeclasses eauto | apply keeps_ret; typeclasses eauto |].
  intros _. apply keeps_forEachFrom; [typeclasses eauto|].
  intros g i. apply keeps_reduced_processGroup.
Qed.

(** C7. Without a payload, [applyDataToForm] completes normally, and the
    document it leaves differs from the one it started from only by
    detached elements: the text, the value and the checked state of every
    element are what they were, so no header is overwritten and no field
    value written.  Each group is reduced in the document as the groups
    before it have left it: if its request-content field resolves there to
    an element with at least four choice items, the first two of them are
    removed (index 1, then index 0) and all the others, the last two among
    them, are left as they are; on a page in document order where no choice
    item sits inside another, the choice items of the element are then
    exactly those others. *)
Theorem applyDataToForm_without_payload
    (formGroups : list FieldGroup) (d : Document) :
  completion (applyDataToForm formGroups None) d = Normal tt /\
  agreeOn contentOf d (finalDocument (applyDataToForm formGroups None) d) /\
  forall k g rf i e a b rest,
    formGroups !! k = Some g ->
    requestFieldOf g = Some rf ->
    usableId rf = Some i ->
    getElementById i (documentBefore formGroups k d) =
      (Normal (Some e), documentBefore formGroups k d) ->
    radioItemsOf (documentBefore formGroups k d) e = a :: b :: rest ->
    2 <= length rest ->
    documentBefore formGroups (S k) d =
      detach a (detach b (documentBefore formGroups k d)) /\
    (forall n, In n rest ->
       documentBefore formGroups (S k) d !! n =
       documentBefore formGroups k d !! n) /\
    drop (length rest - 2) rest =
      drop (length (a :: b :: rest) - 2) (a :: b :: rest) /\
    (wellFormed d -> flatItems d ->
     radioItemsOf (documentBefore formGroups (S k) d) e = rest).
Proof.
  split; [|split].
  - unfold completion.
    rewrite applyDataToForm_null_unfold, forEachFrom_absent. reflexivity.
  - apply (keeps_reduced_null formGroups d).
  - intros k g rf i e a b rest Hk Hrf Hid Hget Hitems Hlen.
    pose proof (keeps_reduced_null (take k formGroups) d) as Hred.
    fold (documentBefore formGroups k d) in Hred.
    set (dk := documentBefore formGroups k d) in *.
    assert (Hstep : documentBefore formGroups (S k) d = detach a (detach b dk)).
    { rewrite (documentBefore_step _ _ _ _ Hk). fold dk.
      unfold finalDocument, processGroup. rewrite Hrf, Hid.
      unfold branchSelection, bind. rewrite Hget.
      destruct rest as [|c [|x rest']]; simpl in Hlen; try lia.
      rewrite (selectBranch_absent dk e a b c x rest' Hitems). reflexivity. }
    split; [exact Hstep | split; [|split]].
    + intros n Hn. rewrite Hstep.
      assert (Hnd : NoDup (a :: b :: rest))
        by (rewrite <- Hitems; apply nodesWhere_NoDup).
      apply list_elem_of_In, list_elem_of_lookup in Hn as [j Hj].
      rewrite !lookup_detach_ne; [reflexivity | |].
      * apply (NoDup_lookup_ne (a :: b :: rest) 1 (S (S j)) b n Hnd);
          [reflexivity | exact Hj | lia].
      * apply (NoDup_lookup_ne (a :: b :: rest) 0 (S (S j)) a n Hnd);
          [reflexivity | exact Hj | lia].
    + change (length (a :: b :: rest)) with (S (S (length rest))).
      replace (S (S (length rest)) - 2) with (2 + (length rest - 2)) by lia.
      reflexivity.
    + intros Hwf Hflat.
      assert (Hwfk : wellFormed dk) by (eapply reducedFrom_wellFormed; eauto).
      assert (Hflatk : flatItems dk) by (eapply reducedFrom_flatItems; eauto).
      rewrite Hstep. apply radioItemsOf_first_two_removed; try assumption.
      assert (Hin : forall n, In n (a :: b :: rest) ->
                exists el, dk !! n = Some el /\ isRadioItem el = true).
      { intros n Hn. rewrite <- Hitems in Hn.
        apply nodesWhere_In in Hn as (el & Hel & HP).
        apply andb_true_iff in HP as [_ HP]. eauto. }
      destruct (Hin a) as (ea & Hea & Hia); [left; reflexivity|].
      destruct (Hin b) as (eb & Heb & Hib); [right; left; reflexivity|].
      apply List.Forall_forall. intros n Hn.
      destruct (Hin n) as (en & Hen & Hien); [right; right; exact Hn|].
      split; eapply Hflatk; eassumption.
Qed.

Lemma flatItems_checked d : flatItemsCheck d = true -> flatItems d.
Proof.
  unfold flatItemsCheck. intros H x y ex ey Hx Hy Hix Hiy.
  rewrite forallb_forall in H.
  assert (Hinx : In x (nodesWhere d (fun _ el => isRadioItem el)))
    by (apply nodesWhere_In; eauto).
  assert (Hiny : In y (nodesWhere d (fun _ el => isRadioItem el)))
    by (apply nodesWhere_In; eauto).
  specialize (H x Hinx). rewrite forallb_forall in H.
  specialize (H y Hiny). destruct (descendantOf d x y); [discriminate|reflexivity].
Qed.

Example samplePage_flat : flatItems samplePage.
Proof. apply flatItems_checked. vm_compute. reflexivity. Qed.

Lemma applyDataToForm_without_payload_witness :
  completion (applyDataToForm [sampleGroup] None) samplePage = Normal tt /\
  radioItemsOf (documentBefore [sampleGroup] 1 samplePage) 4 = [10; 12].
Proof.
  destruct (applyDataToForm_without_payload [sampleGroup] samplePage)
    as (Hc & _ & Hgroups).
  split; [exact Hc|].
  destruct (Hgroups 0 sampleGroup sampleRequestField (lit "id_11") 4 6 8 [10; 12])
    as (_ & _ & _ & Hitems).
  - reflexivity.
  - vm_compute. reflexivity.
  - vm_compute. reflexivity.
  - vm_compute. reflexivity.
  - vm_compute. reflexivity.
  - simpl. lia.
  - apply Hitems; [exact samplePage_wellFormed | exact samplePage_flat].
Defined.

(** ** Writing values *)

Lemma lookup_writeValue n v d m :
  writeValue n v d !! m =
  match valueSetter d n v with
  | Holds s => if decide (n = m) then withValue s <$> d !! m else d !! m
  | _ => d !! m
  end.
Proof.
  unfold writeValue. destruct (valueSetter d n v); [|reflexivity..].
  rewrite list_lookup_alter. destruct (decide (n = m)); subst; reflexivity.
Qed.

Lemma length_writeValue n v d : length (writeValue n v d) = length d.
Proof.
  unfold writeValue. destruct (valueSetter d n v); [|reflexivity..].
  apply length_alter.
Qed.

Lemma below_agree d d' : agreeOn place d d' ->
  forall f a n, below f d a n = below f d' a n.
Proof.
  intros Ha. induction f as [|f IH]; intros a n; simpl; [reflexivity|].
  rewrite (agreeOn_lookup place d d' n Ha).
  destruct (place <$> d' !! n) as [[| |p]|]; try reflexivity.
  rewrite IH. reflexivity.
Qed.

Lemma descendantOf_writeValue n v d e m :
  descendantOf (writeValue n v d) e m = descendantOf d e m.
Proof.
  unfold descendantOf. rewrite length_writeValue. symmetry.
  apply below_agree, agreeOn_writeValue. intros v' el. reflexivity.
Qed.

(** A selection inside [e] by tag, id or name is the same before and after
    a value is written. *)
Lemma selection_writeValue (sel : Element -> bool) n v d e :
  (forall v' el, sel (withValue v' el) = sel el) ->
  nodesWhere (writeValue n v d)
             (fun m el => descendantOf (writeValue n v d) e m && sel el) =
  nodesWhere d (fun m el => descendantOf d e m && sel el).
Proof.
  intros Hsel. apply nodesWhere_ext; [apply length_writeValue|].
  intros m _. rewrite lookup_writeValue, descendantOf_writeValue.
  destruct (valueSetter d n v); [|reflexivity..].
  destruct (decide (n = m)), (d !! m); simpl; rewrite ?Hsel; reflexivity.
Qed.

Lemma visibleDateInputOf_written input v d e :
  visibleDateInputOf (written input v d) e = visibleDateInputOf d e.
Proof.
  destruct input as [n|]; [|reflexivity]. unfold visibleDateInputOf. simpl.
  rewrite selection_writeValue; [reflexivity | intros; reflexivity].
Qed.

Lemma splitInputOf_written input v d e suffix :
  splitInputOf (written input v d) e suffix = splitInputOf d e suffix.
Proof.
  destruct input as [n|]; [|reflexivity]. unfold splitInputOf. simpl.
  rewrite selection_writeValue; [reflexivity | intros; reflexivity].
Qed.

Lemma writeIfPresent_run input v d :
  writeIfPresent input v d = (assignment d input v, written input v d).
Proof. destruct input; reflexivity. Qed.

Lemma value_written n v d s :
  n < length d -> valueSetter d n v = Holds s ->
  value <$> written (Some n) v d !! n = Some s.
Proof.
  intros Hn Hs. simpl. rewrite lookup_writeValue, Hs.
  destruct (decide (n = n)); [|congruence].
  destruct (lookup_lt_is_Some_2 d n Hn) as [el ->]. reflexivity.
Qed.

Lemma written_elsewhere input v d m :
  input <> Some m -> written input v d !! m = d !! m.
Proof.
  intros Hm. destruct input as [n|]; [|reflexivity]. simpl.
  rewrite lookup_writeValue. destruct (valueSetter d n v); [|reflexivity..].
  destruct (decide (n = m)); congruence.
Qed.

Lemma length_written input v d : length (written input v d) = length d.
Proof. destruct input; [apply length_writeValue | reflexivity]. Qed.

(** A setter that does not return leaves the document as it is. *)
Lemma written_refused input v d :
  assignment d input v <> Normal tt -> written input v d = d.
Proof.
  destruct input as [n|]; [|reflexivity]. simpl. unfold assigning, writeValue.
  destruct (valueSetter d n v); [congruence | reflexivity..].
Qed.

(** *** What the setter goes by *)

Lemma agreeOn_compose {B C} (h : Element -> B) (g : B -> C) d d' :
  agreeOn h d d' -> agreeOn (fun el => g (h el)) d d'.
Proof.
  unfold agreeOn. intros H.
  rewrite <- (map_map h g d), <- (map_map h g d'), H. reflexivity.
Qed.

Lemma setterView_withValue s el : setterView (withValue s el) = setterView el.
Proof.
  unfold setterView, withValue, valueInAttribute, hasTag, str_eqb. simpl.
  destruct (bool_decide (tagName el = lit "input")); reflexivity.
Qed.

Lemma agreeOn_setterView_writeValue n v d :
  agreeOn setterView d (writeValue n v d).
Proof.
  unfold writeValue. destruct (valueSetter d n v); [|reflexivity..].
  apply agreeOn_alter, setterView_withValue.
Qed.

Lemma existsb_pointwise {X} (f g : X -> bool) l :
  (forall x, f x = g x) -> existsb f l = existsb g l.
Proof.
  intros H. induction l as [|x l IH]; simpl; [reflexivity|].
  rewrite H, IH. reflexivity.
Qed.

Lemma omap_pointwise {X Y} (f g : X -> option Y) (l : list X) :
  (forall x, f x = g x) -> omap f l = omap g l.
Proof.
  intros H. induction l as [|x l IH]; csimpl; [reflexivity|].
  rewrite H. destruct (g x); [f_equal|]; exact IH.
Qed.

Section SetterView.

Context (d d' : Document) (Hview : agreeOn setterView d d').

Lemma view_lookup m :
  match d !! m, d' !! m with
  | Some el, Some el' => setterView el = setterView el'
  | None, None => True
  | _, _ => False
  end.
Proof.
  pose proof (agreeOn_lookup setterView d d' m Hview) as H.
  destruct (d !! m), (d' !! m); simpl in H; try discriminate; [|exact I].
  apply (inj Some) in H. exact H.
Qed.

Lemma view_length : length d = length d'.
Proof. eapply agreeOn_length, Hview. Qed.

Lemma view_descendantOf a m : descendantOf d a m = descendantOf d' a m.
Proof.
  unfold descendantOf. rewrite view_length. apply below_agree.
  apply (agreeOn_compose setterView (fun x => x.1.1.1.1)), Hview.
Qed.

Lemma view_nodesWhere (P P' : Node -> Element -> bool) :
  (forall m el el', d !! m = Some el -> d' !! m = Some el' ->
     setterView el = setterView el' -> P m el = P' m el') ->
  nodesWhere d P = nodesWhere d' P'.
Proof.
  intros H. apply nodesWhere_ext; [apply view_length|].
  intros m _. pose proof (view_lookup m) as Hm.
  destruct (d !! m) as [el|] eqn:E, (d' !! m) as [el'|] eqn:E';
    try contradiction; [|reflexivity].
  eapply H; eauto.
Qed.

Lemma view_ownText m : ownText <$> d !! m = ownText <$> d' !! m.
Proof.
  pose proof (view_lookup m) as Hm.
  destruct (d !! m) as [el|], (d' !! m) as [el'|]; try contradiction;
    [|reflexivity].
  simpl. f_equal. unfold setterView in Hm. congruence.
Qed.

Lemma view_hasTag t m :
  match d !! m with Some el => hasTag t el | None => false end =
  match d' !! m with Some el => hasTag t el | None => false end.
Proof.
  pose proof (view_lookup m) as Hm.
  destruct (d !! m) as [el|], (d' !! m) as [el'|]; try contradiction;
    [|reflexivity].
  unfold hasTag, setterView in *. congruence.
Qed.

Lemma view_optionsOf select : optionsOf d select = optionsOf d' select.
Proof.
  apply view_nodesWhere. intros m el el' _ _ Hv.
  unfold isOptionOf, hasTag, setterView in *.
  assert (Hp : place el = place el') by congruence.
  assert (Ht : tagName el = tagName el') by congruence.
  rewrite Hp, Ht. destruct (place el') as [| |p]; try reflexivity.
  pose proof (view_lookup p) as Hparent.
  destruct (d !! p) as [a|], (d' !! p) as [a'|]; try contradiction;
    [|reflexivity].
  unfold setterView in Hparent.
  assert (place a = place a') as -> by congruence.
  assert (tagName a = tagName a') as -> by congruence.
  reflexivity.
Qed.

Lemma view_inScriptBelow o m el el' :
  setterView el = setterView el' ->
  inScriptBelow d o m el = inScriptBelow d' o m el'.
Proof.
  intros Hv. unfold inScriptBelow. rewrite view_length. f_equal.
  - unfold hasTag, setterView in *. congruence.
  - apply existsb_pointwise. intros x. rewrite !view_descendantOf.
    rewrite (view_hasTag (lit "script") x). reflexivity.
Qed.

Lemma view_optionText o : optionText d o = optionText d' o.
Proof.
  unfold optionText. pose proof (view_lookup o) as Ho.
  destruct (d !! o) as [el|], (d' !! o) as [el'|]; try contradiction;
    [|reflexivity].
  assert (ownText el = ownText el') as ->
    by (unfold setterView in Ho; congruence).
  f_equal. f_equal. f_equal.
  rewrite (view_nodesWhere
             (fun m x => descendantOf d o m && negb (inScriptBelow d o m x))
             (fun m x => descendantOf d' o m && negb (inScriptBelow d' o m x))).
  - apply omap_pointwise. intros m. apply view_ownText.
  - intros m x x' _ _ Hx. rewrite view_descendantOf.
    rewrite (view_inScriptBelow o m x x' Hx). reflexivity.
Qed.

Lemma view_optionValue select o :
  In o (optionsOf d select) -> optionValue d o = optionValue d' o.
Proof.
  intros Hin. apply nodesWhere_In in Hin as (el & Hel & Hopt).
  unfold optionValue. rewrite <- view_optionText.
  pose proof (view_lookup o) as Ho. rewrite Hel in Ho |- *.
  destruct (d' !! o) as [el'|]; [|contradiction].
  unfold isOptionOf in Hopt. apply andb_true_iff in Hopt as [Htag _].
  unfold setterView, hasTag, str_eqb in *.
  apply bool_decide_eq_true in Htag.
  assert (Ht' : tagName el' = lit "option") by congruence.
  rewrite Htag, Ht' in Ho.
  rewrite !bool_decide_eq_false_2 in Ho by discriminate.
  assert (valueAttr el = valueAttr el') as -> by congruence.
  reflexivity.
Qed.

Lemma inputValue_view el el' v :
  setterView el = setterView el' -> inputValue el v = inputValue el' v.
Proof.
  intros Hv. unfold setterView in Hv.
  unfold inputValue, valueInAttribute, hasInputType, str_eqb.
  assert (tagName el = tagName el') as -> by congruence.
  assert (inputType el = inputType el') as -> by congruence.
  reflexivity.
Qed.

(** The setter of every element goes by the view alone. *)
Lemma valueSetter_view n v : valueSetter d n v = valueSetter d' n v.
Proof.
  unfold valueSetter. pose proof (view_lookup n) as Hn.
  destruct (d !! n) as [el|], (d' !! n) as [el'|]; try contradiction;
    [|reflexivity].
  assert (Htag : tagName el = tagName el')
    by (unfold setterView in Hn; congruence).
  unfold hasTag. rewrite Htag.
  destruct (str_eqb (tagName el') (lit "input")); [apply inputValue_view, Hn|].
  destruct (str_eqb (tagName el') (lit "select")); [|reflexivity].
  rewrite <- view_optionsOf.
  rewrite (map_ext_in (optionValue d) (optionValue d') (optionsOf d n));
    [reflexivity|].
  intros o Ho. eapply view_optionValue, Ho.
Qed.

Lemma assignment_view input v : assignment d input v = assignment d' input v.
Proof.
  destruct input as [n|]; [|reflexivity]. simpl. unfold assigning.
  rewrite valueSetter_view. reflexivity.
Qed.

End SetterView.

Lemma valueSetter_written input w d n v :
  valueSetter (written input w d) n v = valueSetter d n v.
Proof.
  symmetry. apply valueSetter_view.
  destruct input as [m|]; [apply agreeOn_setterView_writeValue | reflexivity].
Qed.

Lemma assignment_written input w d input' v :
  assignment (written input w d) input' v = assignment d input' v.
Proof.
  symmetry. apply assignment_view.
  destruct input as [m|]; [apply agreeOn_setterView_writeValue | reflexivity].
Qed.

(** An input of a text type holds what it is assigned without its line
    breaks; one whose setter writes the content attribute holds it as it
    is. *)
Lemma valueSetter_text d n el v :
  d !! n = Some el -> hasTag (lit "input") el = true ->
  hasInputType ["text"%string; "search"%string; "tel"%string;
                "password"%string] el = true ->
  valueSetter d n v = Holds (stripNewlines v).
Proof.
  intros Hel Htag Hty. unfold valueSetter. rewrite Hel, Htag.
  unfold inputValue. rewrite Hty.
  assert (valueInAttribute el = false) as ->; [|reflexivity].
  unfold valueInAttribute, hasInputType in *.
  apply bool_decide_eq_true in Hty.
  apply andb_false_intro2, bool_decide_eq_false. intros Hin.
  apply list_elem_of_In in Hty. apply list_elem_of_In in Hin.
  simpl in Hty. destruct Hty as [H|[H|[H|[H|[]]]]]; rewrite <- H in Hin;
    vm_compute in Hin; intuition discriminate.
Qed.

Lemma stripNewlines_plain v :
  Forall (fun c => c <> 10%N /\ c <> 13%N) v -> stripNewlines v = v.
Proof.
  unfold stripNewlines. induction 1 as [|c v [H10 H13] _ IH]; [reflexivity|].
  rewrite filter_cons, IH.
  apply N.eqb_neq in H10, H13. rewrite H10, H13. reflexivity.
Qed.

Lemma splitInputOf_In d e suffix n :
  splitInputOf d e suffix = Some n ->
  exists el, d !! n = Some el /\ isInputNamedWithSuffix suffix el = true.
Proof.
  intros H. apply head_In, nodesWhere_In in H as (el & Hel & HP).
  apply andb_true_iff in HP as [_ HP]. eauto.
Qed.

Lemma startsWith_second a b b' p p' s :
  startsWith (a :: b :: p) s = true -> startsWith (a :: b' :: p') s = true ->
  b = b'.
Proof.
  destruct s as [|c1 [|c2 s]]; simpl; try discriminate;
    rewrite ?andb_false_r; try discriminate.
  intros H1 H2.
  apply andb_true_iff in H1 as [_ H1]. apply andb_true_iff in H1 as [H1 _].
  apply andb_true_iff in H2 as [_ H2]. apply andb_true_iff in H2 as [H2 _].
  apply N.eqb_eq in H1, H2. congruence.
Qed.

(** No input is named with two of the three suffixes. *)
Lemma splitInputs_distinct d e s1 s2 a b b' p p' n1 n2 :
  reverse s1 = a :: b :: p -> reverse s2 = a :: b' :: p' -> b <> b' ->
  splitInputOf d e s1 = Some n1 -> splitInputOf d e s2 = Some n2 -> n1 <> n2.
Proof.
  intros Hs1 Hs2 Hb H1 H2 Heq. subst n2.
  apply splitInputOf_In in H1 as (el1 & Hel1 & HP1).
  apply splitInputOf_In in H2 as (el2 & Hel2 & HP2).
  rewrite Hel1 in Hel2. inversion Hel2; subst el2.
  unfold isInputNamedWithSuffix in *.
  apply andb_true_iff in HP1 as [_ HP1]. apply andb_true_iff in HP2 as [_ HP2].
  destruct (nameAttr el1) as [nm|]; [|discriminate].
  unfold endsWith in *. rewrite Hs1 in HP1. rewrite Hs2 in HP2.
  apply Hb. eapply startsWith_second; eassumption.
Qed.

(** A run of assignments that all return, as one document
    transformation. *)
Lemma assignAll_one input v d :
  assignAll [(input, v)] d = (assignment d input v, written input v d).
Proof.
  simpl. unfold bind. rewrite writeIfPresent_run.
  destruct (assignment d input v) as [[]| |]; reflexivity.
Qed.

Lemma assignAll_cons input v rest d :
  assignment d input v = Normal tt ->
  assignAll ((input, v) :: rest) d = assignAll rest (written input v d).
Proof.
  intros H. simpl. unfold bind. rewrite writeIfPresent_run, H. reflexivity.
Qed.

Lemma assignAll_refused input v rest d :
  assignment d input v <> Normal tt ->
  assignAll ((input, v) :: rest) d = (assignment d input v, d).
Proof.
  intros H. simpl. unfold bind. rewrite writeIfPresent_run.
  rewrite (written_refused _ _ _ H).
  destruct (assignment d input v) as [[]| |]; [congruence | reflexivity..].
Qed.

Lemma bind_ret_tt (m : Script unit) d : bind m (fun _ => ret tt) d = m d.
Proof. unfold bind. destruct (m d) as [[[]| |] d']; reflexivity. Qed.

Lemma bind_writeIfPresent input v (k1 k2 : unit -> Script unit) d :
  k1 tt (written input v d) = k2 tt (written input v d) ->
  bind (writeIfPresent input v) k1 d = bind (writeIfPresent input v) k2 d.
Proof.
  intros H. unfold bind. rewrite writeIfPresent_run.
  destruct (assignment d input v) as [[]| |]; [exact H | reflexivity..].
Qed.

(** The date branch, as the assignments it makes: the inputs are those
    of the page as it is when the branch starts. *)
Lemma applyDateValue_run e v d :
  applyDateValue e v d =
  match split 45 v with
  | [year; month; day] =>
      assignAll [(visibleDateInputOf d e, v);
                 (splitInputOf d e (lit "[year]"), year);
                 (splitInputOf d e (lit "[month]"), month);
                 (splitInputOf d e (lit "[day]"), day)] d
  | _ => assignAll [(visibleDateInputOf d e, v)] d
  end.
Proof.
  unfold applyDateValue, querySelectorIn. rewrite bind_query.
  fold (visibleDateInputOf d e).
  assert (Hone : forall k : Script unit,
            k = ret tt ->
            bind (writeIfPresent (visibleDateInputOf d e) v) (fun _ => k) d =
            assignAll [(visibleDateInputOf d e, v)] d).
  { intros k ->. reflexivity. }
  destruct (split 45 v) as [|y [|m [|dd [|? ?]]]]; try (apply Hone; reflexivity).
  change (assignAll [(visibleDateInputOf d e, v);
                     (splitInputOf d e (lit "[year]"), y);
                     (splitInputOf d e (lit "[month]"), m);
                     (splitInputOf d e (lit "[day]"), dd)] d)
    with (bind (writeIfPresent (visibleDateInputOf d e) v)
               (fun _ => assignAll [(splitInputOf d e (lit "[year]"), y);
                                    (splitInputOf d e (lit "[month]"), m);
                                    (splitInputOf d e (lit "[day]"), dd)]) d).
  apply bind_writeIfPresent.
  rewrite !bind_query.
  fold (splitInputOf (written (visibleDateInputOf d e) v d) e (lit "[year]")).
  fold (splitInputOf (written (visibleDateInputOf d e) v d) e (lit "[month]")).
  fold (splitInputOf (written (visibleDateInputOf d e) v d) e (lit "[day]")).
  rewrite !splitInputOf_written. symmetry. cbn [assignAll].
  apply bind_writeIfPresent. cbv beta. apply bind_writeIfPresent. cbv beta.
  apply bind_ret_tt.
Qed.

(** ** The date branch *)

Lemma zeroPad_cases nk raw :
  zeroPad nk raw = raw \/
  (zeroPad nk raw = 48%N :: raw /\ length raw = 1 /\
   (nk = hourKey \/ nk = minuteKey)).
Proof.
  unfold zeroPad, str_eqb.
  destruct (bool_decide (nk = hourKey)) eqn:Eh;
    destruct (bool_decide (nk = minuteKey)) eqn:Em; simpl; auto;
    destruct (Nat.eqb_spec (length raw) 1); auto; right;
    repeat split; auto;
    first [ left; apply bool_decide_eq_true in Eh; exact Eh
          | right; apply bool_decide_eq_true in Em; exact Em ].
Qed.

Lemma zeroPad_three_parts nk raw year month day :
  split 45 (zeroPad nk raw) = [year; month; day] -> zeroPad nk raw = raw.
Proof.
  destruct (zeroPad_cases nk raw) as [H|(H & Hlen & _)]; [auto|].
  rewrite H. destruct raw as [|c [|? ?]]; try discriminate.
  simpl. destruct (c =? 45)%N; discriminate.
Qed.

Lemma applyFieldValue_date g key raw d tf i e :
  key <> requestContent ->
  resolveField g key (removeWhiteSpace key) = Some tf ->
  type tf = Some control_datetime ->
  usableId tf = Some i ->
  getElementById i d = (Normal (Some e), d) ->
  applyFieldValue g key raw d =
  applyDateValue e (zeroPad (removeWhiteSpace key) raw) d.
Proof.
  intros Hkey Hres Hty Hid Hget. unfold applyFieldValue, str_eqb.
  rewrite bool_decide_eq_false_2 by exact Hkey. cbv zeta.
  rewrite Hres. unfold applyToField. rewrite Hid.
  unfold bind. rewrite Hget. unfold opt_str_eqb.
  rewrite bool_decide_eq_true_2 by exact Hty. reflexivity.
Qed.

(** Four assignments that all return. *)
Lemma assignAll_four i1 v1 i2 v2 i3 v3 i4 v4 d :
  assignment d i1 v1 = Normal tt -> assignment d i2 v2 = Normal tt ->
  assignment d i3 v3 = Normal tt -> assignment d i4 v4 = Normal tt ->
  assignAll [(i1, v1); (i2, v2); (i3, v3); (i4, v4)] d =
  (Normal tt, written i4 v4 (written i3 v3 (written i2 v2 (written i1 v1 d)))).
Proof.
  intros H1 H2 H3 H4.
  rewrite assignAll_cons by exact H1.
  rewrite assignAll_cons by (rewrite assignment_written; exact H2).
  rewrite assignAll_cons by (rewrite !assignment_written; exact H3).
  rewrite assignAll_one, !assignment_written, H4. reflexivity.
Qed.

(** C5, as the code has it.  When a key resolves to a date/time field whose
    element exists, the value applied is the payload value, with a zero put
    in front when the key is an hour or minute key and the value is one unit
    long; it is the payload value itself whenever it splits on '-' into
    three parts.  The visible date input, if present, is assigned that
    value.  If the value splits into exactly three parts, the split inputs
    that are present ([year], [month], [day] name suffix) are then assigned
    their parts, in this order, whether or not the others are present; if
    it does not, nothing but the visible input is assigned.  An assignment
    is made through the [value] setter of the input: where every present
    input takes its string, each holds afterwards what its setter makes of
    it (an input of type text, search, tel or password the string without
    its line breaks, so the string itself when it has none), and the
    visible input keeps its value unless it is itself one of the split
    inputs.  An assignment that does not return ends the branch: the
    inputs after it are not assigned, and a visible input that refuses
    leaves the page as it was. *)
Theorem dateValue_applied
    (g : FieldGroup) (key raw : jsstring) (d : Document)
    (tf : FormField) (i : jsstring) (e : Node) :
  key <> requestContent ->
  resolveField g key (removeWhiteSpace key) = Some tf ->
  type tf = Some control_datetime ->
  usableId tf = Some i ->
  getElementById i d = (Normal (Some e), d) ->
  let v := zeroPad (removeWhiteSpace key) raw in
  let visible := visibleDateInputOf d e in
  let shown := written visible v d in
  (v = raw \/
   (v = 48%N :: raw /\ length raw = 1 /\
    (removeWhiteSpace key = hourKey \/ removeWhiteSpace key = minuteKey))) /\
  (forall n s, visible = Some n -> valueSetter d n v = Holds s ->
               value <$> shown !! n = Some s) /\
  (forall year month day, split 45 v = [year; month; day] ->
     let yearInput := splitInputOf d e (lit "[year]") in
     let monthInput := splitInputOf d e (lit "[month]") in
     let dayInput := splitInputOf d e (lit "[day]") in
     let d' := written dayInput day
                 (written monthInput month (written yearInput year shown)) in
     v = raw /\
     applyFieldValue g key raw d =
       assignAll [(visible, v); (yearInput, year); (monthInput, month);
                  (dayInput, day)] d /\
     (assignment d visible v = Normal tt ->
      assignment d yearInput year = Normal tt ->
      assignment d monthInput month = Normal tt ->
      assignment d dayInput day = Normal tt ->
      applyFieldValue g key raw d = (Normal tt, d') /\
      (forall n s, yearInput = Some n -> valueSetter d n year = Holds s ->
                   value <$> d' !! n = Some s) /\
      (forall n s, monthInput = Some n -> valueSetter d n month = Holds s ->
                   value <$> d' !! n = Some s) /\
      (forall n s, dayInput = Some n -> valueSetter d n day = Holds s ->
                   value <$> d' !! n = Some s) /\
      (forall n s, visible = Some n -> valueSetter d n v = Holds s ->
                   yearInput <> Some n -> monthInput <> Some n ->
                   dayInput <> Some n ->
                   value <$> d' !! n = Some s))) /\
  (length (split 45 v) <> 3 ->
     applyFieldValue g key raw d = (assignment d visible v, shown) /\
     forall m, visible <> Some m -> shown !! m = d !! m) /\
  (forall n el w, d !! n = Some el -> hasTag (lit "input") el = true ->
     hasInputType ["text"%string; "search"%string; "tel"%string;
                   "password"%string] el = true ->
     valueSetter d n w = Holds (stripNewlines w) /\
     (Forall (fun c => c <> 10%N /\ c <> 13%N) w -> valueSetter d n w = Holds w)) /\
  (assignment d visible v <> Normal tt ->
   applyFieldValue g key raw d = (assignment d visible v, d)).
Proof.
  intros Hkey Hres Hty Hid Hget v visible shown.
  assert (Hrun := applyFieldValue_date g key raw d tf i e Hkey Hres Hty Hid Hget).
  rewrite applyDateValue_run in Hrun. fold v in Hrun. fold visible in Hrun.
  assert (Hvis : forall n s, visible = Some n -> valueSetter d n v = Holds s ->
                             value <$> shown !! n = Some s).
  { intros n s Hn Hs. unfold shown. rewrite Hn. apply value_written; [|exact Hs].
    apply head_In, nodesWhere_In in Hn as (el & Hel & _).
    eapply lookup_lt_Some, Hel. }
  assert (Hlt : forall s n, splitInputOf d e s = Some n -> n < length d).
  { intros s n Hn. apply splitInputOf_In in Hn as (el & Hel & _).
    eapply lookup_lt_Some, Hel. }
  split; [apply zeroPad_cases | split; [exact Hvis | split; [|split; [|split]]]].
  - intros year month day Hsplit yearInput monthInput dayInput d'.
    rewrite Hsplit in Hrun. fold yearInput monthInput dayInput in Hrun.
    split; [eapply zeroPad_three_parts, Hsplit | split; [exact Hrun|]].
    intros Hv Hy Hm Hd.
    split; [rewrite Hrun; apply assignAll_four; assumption|].
    assert (Hym : forall n1 n2, yearInput = Some n1 -> monthInput = Some n2 ->
                                n1 <> n2).
    { intros n1 n2. eapply splitInputs_distinct; [reflexivity..|discriminate]. }
    assert (Hyd : forall n1 n2, yearInput = Some n1 -> dayInput = Some n2 ->
                                n1 <> n2).
    { intros n1 n2. eapply splitInputs_distinct; [reflexivity..|discriminate]. }
    assert (Hmd : forall n1 n2, monthInput = Some n1 -> dayInput = Some n2 ->
                                n1 <> n2).
    { intros n1 n2. eapply splitInputs_distinct; [reflexivity..|discriminate]. }
    split; [|split; [|split]].
    + intros n s Hn Hs. unfold d'.
      rewrite (written_elsewhere dayInput)
        by (intros Hd'; apply (Hyd n n Hn Hd'); reflexivity).
      rewrite (written_elsewhere monthInput)
        by (intros Hm'; apply (Hym n n Hn Hm'); reflexivity).
      rewrite Hn. apply value_written.
      * unfold shown. rewrite length_written. eapply Hlt, Hn.
      * unfold shown. rewrite valueSetter_written. exact Hs.
    + intros n s Hn Hs. unfold d'.
      rewrite (written_elsewhere dayInput)
        by (intros Hd'; apply (Hmd n n Hn Hd'); reflexivity).
      rewrite Hn. apply value_written.
      * unfold shown. rewrite !length_written. eapply Hlt, Hn.
      * unfold shown. rewrite !valueSetter_written. exact Hs.
    + intros n s Hn Hs. unfold d'. rewrite Hn. apply value_written.
      * unfold shown. rewrite !length_written. eapply Hlt, Hn.
      * unfold shown. rewrite !valueSetter_written. exact Hs.
    + intros n s Hn Hs Hy' Hm' Hd'. unfold d'.
      rewrite !written_elsewhere by assumption. apply Hvis; assumption.
  - intros Hparts. split.
    + rewrite Hrun. destruct (split 45 v) as [|y [|m [|dd [|? ?]]]];
        try apply assignAll_one. simpl in Hparts. congruence.
    + intros m Hm. unfold shown. apply written_elsewhere, Hm.
  - intros n el w Hel Htag Hty'.
    pose proof (valueSetter_text d n el w Hel Htag Hty') as Hs.
    split; [exact Hs|]. intros Hw. rewrite Hs, stripNewlines_plain by exact Hw.
    reflexivity.
  - intros Hno. rewrite Hrun.
    destruct (split 45 v) as [|y [|m [|dd [|? ?]]]];
      try (rewrite assignAll_one, (written_refused _ _ _ Hno); reflexivity).
    apply assignAll_refused, Hno.
Qed.

Example hourPage_extracted :
  groupFields (extractFieldsFromDOM hourPage) = [hourGroup].
Proof. vm_compute. reflexivity. Qed.

(** C5, as stated, fails for an hour key: the visible input of a date field
    labelled with the hour key receives "05" for the payload value "5". *)
Lemma dateValue_raw_counterexample :
  resolveField hourGroup hourKey (removeWhiteSpace hourKey) = Some hourField /\
  type hourField = Some control_datetime /\
  visibleDateInputOf hourPage 17 = Some 19 /\
  value <$> finalDocument (applyFieldValue hourGroup hourKey (lit "5")) hourPage
            !! 19 = Some (lit "05") /\
  lit "05" <> lit "5".
Proof. vm_compute. repeat split; discriminate. Qed.

Lemma dateValue_applied_witness :
  (let d' := finalDocument
               (applyFieldValue sampleGroup (lit "Date") (lit "2024-5-03"))
               samplePage in
   value <$> d' !! 19 = Some (lit "2024-5-03") /\
   value <$> d' !! 20 = Some (lit "2024") /\
   value <$> d' !! 21 = Some (lit "5") /\
   value <$> d' !! 22 = Some (lit "03")) /\
  finalDocument (applyFieldValue sampleGroup (lit "Date") (lit "2024/05/03"))
                samplePage =
  writeValue 19 (lit "2024/05/03") samplePage.
Proof.
  split.
  - destruct (dateValue_applied sampleGroup (lit "Date") (lit "2024-5-03")
                samplePage sampleDateField (lit "id_13") 17)
      as (_ & _ & Hthree & _);
      [discriminate | vm_compute; reflexivity..|].
    destruct (Hthree (lit "2024") (lit "5") (lit "03"))
      as (_ & _ & Hheld); [vm_compute; reflexivity|].
    destruct Hheld as (Hrun & Hy & Hm & Hd & Hv);
      [vm_compute; reflexivity..|].
    unfold finalDocument. rewrite Hrun. cbv zeta. simpl snd.
    split; [apply Hv; vm_compute; (reflexivity || discriminate)|].
    split; [apply Hy; vm_compute; reflexivity|].
    split; [apply Hm | apply Hd]; vm_compute; reflexivity.
  - destruct (dateValue_applied sampleGroup (lit "Date") (lit "2024/05/03")
                samplePage sampleDateField (lit "id_13") 17)
      as (_ & _ & _ & Hother & _);
      [discriminate | vm_compute; reflexivity..|].
    destruct Hother as [Hrun _]; [vm_compute; discriminate|].
    unfold finalDocument. rewrite Hrun. vm_compute. reflexivity.
Defined.

(** ** Keys that are the request-content label up to white space *)

Lemma find_agree {X} (p q : X -> bool) l :
  Forall (fun x => p x = q x) l -> List.find p l = List.find q l.
Proof.
  induction 1 as [|x l Hx _ IH]; simpl; [reflexivity|].
  rewrite Hx, IH. reflexivity.
Qed.

Lemma requestContent_normal : removeWhiteSpace requestContent = requestContent.
Proof. reflexivity. Qed.

Lemma find_some_holds {X} (p : X -> bool) l x :
  List.find p l = Some x -> p x = true.
Proof. intros H. apply List.find_some in H. apply H. Qed.

(** C10. A key that differs from the request-content label by white space
    only is not the reserved key: the loop does not skip it; its normal
    form is the label, so it resolves to the first member whose label has
    that normal form, and the value, unpadded, is applied to that member.
    Where no member label other than the exact one equals the label up to
    white space, that member is the request-content field itself, and
    unless the field is of date/time type its element receives the generic
    mutation of [applyPlainValue]. *)
Theorem spaced_requestContent_key
    (g : FieldGroup) (key raw : jsstring) (d : Document) (rf : FormField) :
  key <> requestContent ->
  sameUpToWhiteSpace key requestContent ->
  requestFieldOf g = Some rf ->
  str_eqb key requestContent = false /\
  removeWhiteSpace key = requestContent /\
  (exists tf,
     resolveField g key (removeWhiteSpace key) = Some tf /\
     removeWhiteSpace <$> text tf = Some requestContent /\
     applyFieldValue g key raw d = applyToField tf raw d) /\
  (Forall (fun f => forall t, text f = Some t ->
                              sameUpToWhiteSpace t requestContent ->
                              t = requestContent)
          (childFields g) ->
   resolveField g key (removeWhiteSpace key) = Some rf /\
   applyFieldValue g key raw d = applyToField rf raw d /\
   forall i e,
     usableId rf = Some i ->
     getElementById i d = (Normal (Some e), d) ->
     type rf <> Some control_datetime ->
     applyFieldValue g key raw d = applyPlainValue e raw d).
Proof.
  intros Hkey Hsame Hrf.
  assert (Hnorm : removeWhiteSpace key = requestContent).
  { rewrite (sameUpToWhiteSpace_normal _ _ Hsame). apply requestContent_normal. }
  assert (Hnot : str_eqb key requestContent = false)
    by (apply bool_decide_eq_false; exact Hkey).
  assert (Htime : str_eqb key (lit "timeOption") = false).
  { apply bool_decide_eq_false. intros ->. discriminate Hnorm. }
  assert (Hres : resolveField g key (removeWhiteSpace key) =
                 List.find (fun f => opt_str_eqb (removeWhiteSpace <$> text f)
                                                 (Some requestContent))
                           (childFields g)).
  { unfold resolveField. rewrite Htime, Hnorm. reflexivity. }
  assert (Hrun : forall tf, resolveField g key (removeWhiteSpace key) = Some tf ->
                   applyFieldValue g key raw d = applyToField tf raw d).
  { intros tf Htf. unfold applyFieldValue. rewrite Hnot. cbv zeta.
    rewrite Htf, Hnorm. reflexivity. }
  split; [exact Hnot | split; [exact Hnorm | split]].
  - destruct (resolveField g key (removeWhiteSpace key)) as [tf|] eqn:E.
    + exists tf. split; [reflexivity | split; [|apply Hrun; reflexivity]].
      symmetry in Hres. apply find_some_holds in Hres.
      apply bool_decide_eq_true in Hres. exact Hres.
    + exfalso. symmetry in Hres. unfold requestFieldOf in Hrf.
      apply List.find_some in Hrf as [Hin Hp].
      apply (List.find_none _ _ Hres) in Hin.
      apply bool_decide_eq_true in Hp. rewrite Hp in Hin. discriminate Hin.
  - intros Hlabels.
    assert (Hrf' : resolveField g key (removeWhiteSpace key) = Some rf).
    { rewrite Hres, <- Hrf. unfold requestFieldOf. apply find_agree.
      eapply Forall_impl; [exact Hlabels|]. intros f Hf. simpl in Hf.
      unfold opt_str_eqb. destruct (text f) as [t|] eqn:Et; simpl.
      - destruct (decide (removeWhiteSpace t = requestContent)) as [Ht|Ht].
        + assert (t = requestContent) as ->.
          { apply Hf; [reflexivity|]. rewrite <- Ht.
            apply sameUpToWhiteSpace_removed. }
          reflexivity.
        + rewrite !bool_decide_eq_false_2; [reflexivity | |congruence].
          intros Heq. inversion Heq; subst t. apply Ht. reflexivity.
      - reflexivity. }
    split; [exact Hrf' | split; [apply Hrun, Hrf'|]].
    intros i e Hid Hget Hty. rewrite (Hrun rf Hrf').
    unfold applyToField. rewrite Hid. unfold bind. rewrite Hget.
    unfold opt_str_eqb. rewrite bool_decide_eq_false_2 by exact Hty.
    reflexivity.
Qed.

Lemma spaced_requestContent_key_witness :
  checked <$>
    finalDocument
      (applyFieldValue sampleGroup (requestContent ++ [32%N]) (lit "cancel"))
      samplePage !! 9 = Some true.
Proof.
  destruct (spaced_requestContent_key sampleGroup (requestContent ++ [32%N])
              (lit "cancel") samplePage sampleRequestField)
    as (_ & _ & _ & Hfield).
  - discriminate.
  - vm_compute.
    repeat first [ apply sws_nil | apply sws_keep
                 | apply sws_left; [reflexivity|] ].
  - reflexivity.
  - destruct Hfield as (_ & _ & Hplain).
    + repeat constructor; intros t Ht Hs; vm_compute in Ht; inversion Ht;
        subst t; try reflexivity; apply sameUpToWhiteSpace_normal in Hs;
        vm_compute in Hs; discriminate Hs.
    + unfold finalDocument.
      rewrite (Hplain (lit "id_11") 4); vm_compute; (reflexivity || discriminate).
Defined.

(** ** Completion *)

























Example twoSectionPage_extracted :
  groupFields (extractFieldsFromDOM twoSectionPage) = twoSectionGroups.
Proof. vm_compute. reflexivity. Qed.


(** A file-upload input as the control of a matched field raises as well:
    the month field of the sample page with such an input in place of its
    select; the page is one that meets every other condition. *)
Example applyDataToForm_file_input_raises :
  completion (applyDataToForm [sampleGroup] monthPayload) filePage =
    Throw InvalidStateError /\
  namesPlainCheck filePage = true /\
  Forall (fun kv => plainInQuotes kv.2 = true)
         (concat (map fields (payloadGroups monthPayload))) /\
  cssIdentifier (lit "id_10") = true.
Proof. vm_compute. repeat split. repeat constructor. Qed.


(** ** The older form modifier *)

Lemma forEachFrom_ext {X} (body body' : X -> nat -> Script unit) l :
  (forall x i d, body x i d = body' x i d) ->
  forall index d, forEachFrom body index l d = forEachFrom body' index l d.
Proof.
  intros H. induction l as [|x l IH]; intros index d; simpl; [reflexivity|].
  unfold bind. rewrite H. destruct (body' x index d) as [[[]|e|] d'];
    [apply IH | reflexivity..].
Qed.

(** [src/form-modifier.ts] behaves as the form modifier with top-level
    bindings does on a payload that has none. *)
Lemma formModifierTs_agrees formGroups queryData d :
  FormModifierTs.applyDataToForm formGroups queryData d =
  applyDataToForm formGroups
    (match queryData with
     | Some q => Some (mkPrefillData None (Some q))
     | None => None
     end) d.
Proof.
  unfold FormModifierTs.applyDataToForm, applyDataToForm, forEach.
  destruct queryData as [q|]; simpl; unfold bind at 1; simpl;
    apply forEachFrom_ext; reflexivity.
Qed.

(** ** Decoding the payload *)







(** ** Grouping: composition and round trip *)

Lemma groupStep_header st f :
  isCollapse f = true ->
  groupStep st f = mkGroupingState (pushCurrent st) (Some (mkFieldGroup f [])).
Proof. intros H. unfold groupStep. rewrite H. reflexivity. Qed.

Lemma groupStep_member G g f :
  isCollapse f = false ->
  groupStep (mkGroupingState G (Some g)) f =
  mkGroupingState G (Some (mkFieldGroup (collapseField g) (childFields g ++ [f]))).
Proof. intros H. unfold groupStep. rewrite H. reflexivity. Qed.

Lemma groupStep_dropped G f :
  isCollapse f = false ->
  groupStep (mkGroupingState G None) f = mkGroupingState G None.
Proof. intros H. unfold groupStep. rewrite H. reflexivity. Qed.

Lemma pushCurrent_foldl_prefix fields : forall G c,
  pushCurrent (foldl groupStep (mkGroupingState G c) fields) =
  G ++ pushCurrent (foldl groupStep (mkGroupingState [] c) fields).
Proof.
  induction fields as [|f fs IH]; intros G c; simpl.
  - unfold pushCurrent. simpl. destruct c; simpl; [reflexivity|].
    rewrite app_nil_r. reflexivity.
  - destruct (isCollapse f) eqn:Hf.
    + rewrite !groupStep_header by exact Hf.
      rewrite IH. rewrite (IH (pushCurrent (mkGroupingState [] c))).
      unfold pushCurrent. simpl. destruct c; simpl;
        rewrite ?app_nil_r, <- ?app_assoc; reflexivity.
    + destruct c as [g|].
      * rewrite !groupStep_member by exact Hf. apply IH.
      * rewrite !groupStep_dropped by exact Hf. apply IH.
Qed.

Lemma foldl_groupStep_members members : forall G g,
  Forall (fun f => isCollapse f = false) members ->
  foldl groupStep (mkGroupingState G (Some g)) members =
  mkGroupingState G
    (Some (mkFieldGroup (collapseField g) (childFields g ++ members))).
Proof.
  induction members as [|f fs IH]; intros G g Hplain; simpl.
  - rewrite app_nil_r. destruct g; reflexivity.
  - apply Forall_cons in Hplain as [Hf Hfs].
    rewrite groupStep_member by exact Hf.
    rewrite IH by exact Hfs. simpl. rewrite <- app_assoc. reflexivity.
Qed.

Lemma groupFields_one_group h members :
  isCollapse h = true ->
  Forall (fun f => isCollapse f = false) members ->
  groupFields (h :: members) = [mkFieldGroup h members].
Proof.
  intros Hh Hm. unfold groupFields. simpl.
  rewrite groupStep_header by exact Hh. simpl.
  rewrite foldl_groupStep_members by exact Hm. reflexivity.
Qed.

Lemma groupFields_app_cut before h after :
  isCollapse h = true ->
  groupFields (before ++ h :: after) =
  groupFields before ++ groupFields (h :: after).
Proof.
  intros Hh. unfold groupFields. rewrite foldl_app. simpl.
  rewrite !groupStep_header by exact Hh.
  rewrite pushCurrent_foldl_prefix. reflexivity.
Qed.

(** X1. Grouping distributes over a cut in front of a section header: the
    groups of [before ++ h :: after], [h] a header, are the groups of
    [before] followed by the groups of [h :: after].  What comes before a
    header never changes the groups that start at it. *)
Theorem groupFields_app_header (before after : list FormField) (h : FormField) :
  isCollapse h = true ->
  groupFields (before ++ h :: after) =
  groupFields before ++ groupFields (h :: after).
Proof. apply groupFields_app_cut. Qed.

Lemma groupFields_app_header_witness :
  groupFields ([sampleButtonField; sampleHeader; sampleRequestField] ++
               sampleHeader :: [sampleMonthField]) =
  [mkFieldGroup sampleHeader [sampleRequestField];
   mkFieldGroup sampleHeader [sampleMonthField]].
Proof.
  rewrite (groupFields_app_header
             [sampleButtonField; sampleHeader; sampleRequestField]
             [sampleMonthField] sampleHeader); reflexivity.
Defined.

(** X2. Grouping undoes flattening: for groups that are each opened by a
    header and hold no header among their members, grouping their
    descriptors (header, then members, group after group) gives the groups
    back.  So the grouped model is determined by the flat list from its
    first header on, and nothing of that list is lost in it. *)
Theorem groupFields_allDescriptors (gs : list FieldGroup) :
  Forall anchored gs -> groupFields (allDescriptors gs) = gs.
Proof.
  induction gs as [|g gs IH]; intros Hgs; [reflexivity|].
  apply Forall_cons in Hgs as [[Hh Hm] Hgs].
  specialize (IH Hgs).
  change (allDescriptors (g :: gs))
    with ((collapseField g :: childFields g) ++ allDescriptors gs).
  destruct gs as [|g' gs'].
  - change (allDescriptors []) with (@nil FormField). rewrite app_nil_r.
    rewrite groupFields_one_group by assumption. destruct g; reflexivity.
  - assert (Hh' : isCollapse (collapseField g') = true).
    { apply Forall_cons in Hgs as [[Hh' _] _]. exact Hh'. }
    change (allDescriptors (g' :: gs'))
      with (collapseField g' :: (childFields g' ++ allDescriptors gs')) in *.
    rewrite groupFields_app_cut by exact Hh'.
    rewrite groupFields_one_group by assumption.
    rewrite IH. destruct g; reflexivity.
Qed.

Lemma groupFields_allDescriptors_witness :
  groupFields (allDescriptors [sampleGroup; hourGroup]) = [sampleGroup; hourGroup].
Proof.
  apply groupFields_allDescriptors.
  repeat constructor.
Defined.

Lemma headerCount_zero fields :
  headerCount fields = 0 <-> Forall (fun f => isCollapse f = false) fields.
Proof.
  unfold headerCount. induction fields as [|f fs IH]; simpl.
  - split; [constructor | reflexivity].
  - rewrite filter_cons. destruct (isCollapse f) eqn:Hf.
    + rewrite decide_True by reflexivity. simpl. split.
      * intros H. discriminate H.
      * intros H. apply Forall_cons in H as [H _]. simpl in H. congruence.
    + rewrite decide_False by discriminate. rewrite IH. split.
      * intros H. constructor; assumption.
      * intros H. apply Forall_cons in H as [_ H]. exact H.
Qed.

Lemma length_groupFields fields : length (groupFields fields) = headerCount fields.
Proof. unfold groupFields. rewrite length_foldl_groupStep. reflexivity. Qed.

Lemma applyDataToForm_no_group prefillData d :
  applyDataToForm [] prefillData d = applyTopLevel prefillData d.
Proof.
  unfold applyDataToForm, forEach, bind. simpl.
  destruct (applyTopLevel prefillData d) as [[[]|e|] d']; reflexivity.
Qed.

(** X3. A field list yields no group exactly when it holds no section
    header: every field is then dropped from the grouped model, and the
    form modifier, run on that model, does what its top-level bindings do
    and nothing else, whatever group entries the payload has. *)
Theorem groupFields_without_header (fields : list FormField) :
  (groupFields fields = [] <->
   Forall (fun f => isCollapse f = false) fields) /\
  (Forall (fun f => isCollapse f = false) fields ->
   forall prefillData d,
     applyDataToForm (groupFields fields) prefillData d =
     applyTopLevel prefillData d).
Proof.
  assert (Hiff : groupFields fields = [] <->
                 Forall (fun f => isCollapse f = false) fields).
  { rewrite <- headerCount_zero, <- length_groupFields.
    split; [intros ->; reflexivity | apply length_zero_iff_nil]. }
  split; [exact Hiff|].
  intros Hplain prefillData d. apply Hiff in Hplain. rewrite Hplain.
  apply applyDataToForm_no_group.
Qed.

Lemma groupFields_without_header_witness :
  applyDataToForm (groupFields [sampleRequestField; sampleMonthField])
                  plainPayload samplePage =
  (Normal tt, samplePage).
Proof.
  destruct (groupFields_without_header [sampleRequestField; sampleMonthField])
    as [_ Hrun].
  rewrite Hrun; [reflexivity | repeat constructor].
Defined.

(** X4. Extraction followed by grouping, as [getJotformStructure] does it:
    the order values of the grouped model, read header then members, group
    after group, are the consecutive numbers from the order of the first
    section header up to the number of candidate elements.  So orders
    increase inside a group and from one group to the next, and the fields
    dropped in front of the first header are those with the smallest
    orders. *)
Theorem grouped_orders_consecutive (d : Document) :
  map order (allDescriptors (groupFields (extractFieldsFromDOM d))) =
  seq (S (length (beforeFirstHeader (extractFieldsFromDOM d))))
      (length (allElementsOf d) -
       length (beforeFirstHeader (extractFieldsFromDOM d))).
Proof.
  set (fs := extractFieldsFromDOM d).
  assert (Hall : allDescriptors (groupFields fs) = fromFirstHeader fs)
    by apply foldl_groupStep_closed.
  assert (Hseq : map order fs = seq 1 (length (allElementsOf d)))
    by apply describeFrom_order.
  rewrite Hall.
  rewrite (split_at_first_header fs) in Hseq at 1.
  rewrite map_app in Hseq.
  assert (Hdrop : drop (length (map order (beforeFirstHeader fs)))
                       (map order (beforeFirstHeader fs) ++
                        map order (fromFirstHeader fs)) =
                  map order (fromFirstHeader fs)) by apply drop_app_length.
  rewrite Hseq, length_map, drop_seq in Hdrop.
  rewrite <- Hdrop. reflexivity.
Qed.

(** ** The candidate elements *)

Lemma nodesWhere_lt d P n : In n (nodesWhere d P) -> n < length d.
Proof.
  intros H. apply nodesWhere_In in H as (el & Hel & _).
  eapply lookup_lt_Some, Hel.
Qed.

Lemma describeFrom_id d els : forall k,
  map id (describeFrom d k els) = map (fun n => Some (idOf d n)) els.
Proof.
  induction els as [|n els IH]; intros k; simpl; [reflexivity|].
  rewrite IH. reflexivity.
Qed.

(** X5. The candidate elements of the extractor are elements of the page,
    none of them twice: the check [fieldElements.includes(buttonElement)]
    keeps the submit element from being described a second time.  The
    descriptors are in one-to-one correspondence with them, each with the
    id of its element, never null; and when the submit element exists and
    is no section item, its descriptor is the last one. *)
Theorem extractFieldsFromDOM_candidates (d : Document) :
  NoDup (allElementsOf d) /\
  Forall (fun n => n < length d) (allElementsOf d) /\
  map id (extractFieldsFromDOM d) =
    map (fun n => Some (idOf d n)) (allElementsOf d) /\
  Forall (fun f => id f <> None) (extractFieldsFromDOM d) /\
  (forall b, buttonElementOf d = Some b ->
             ~ In b (fieldElementsOf d) ->
             last (allElementsOf d) = Some b /\
             id <$> last (extractFieldsFromDOM d) = Some (Some (idOf d b))).
Proof.
  assert (Hid : map id (extractFieldsFromDOM d) =
                map (fun n => Some (idOf d n)) (allElementsOf d))
    by apply describeFrom_id.
  split; [|split; [|split; [exact Hid | split]]].
  - unfold allElementsOf. apply NoDup_app. split; [apply nodesWhere_NoDup|].
    split.
    + intros n Hn. destruct (buttonElementOf d) as [b|]; [|apply not_elem_of_nil].
      case_bool_decide as Hb; [apply not_elem_of_nil|].
      intros Hin. apply list_elem_of_singleton in Hin. subst b. exact (Hb Hn).
    + destruct (buttonElementOf d) as [b|]; [|constructor].
      case_bool_decide; [constructor | apply NoDup_singleton].
  - unfold allElementsOf. apply Forall_app. split.
    + apply List.Forall_forall. intros n. apply nodesWhere_lt.
    + destruct (buttonElementOf d) as [b|] eqn:Eb; [|constructor].
      case_bool_decide; [constructor|]. apply Forall_singleton.
      eapply nodesWhere_lt, head_In, Eb.
  - apply List.Forall_forall. intros f Hf Hnull.
    apply (in_map id) in Hf. rewrite Hid, Hnull in Hf.
    apply in_map_iff in Hf as (n & Hn & _). discriminate.
  - intros b Hb Hnot.
    assert (Hlast : last (allElementsOf d) = Some b).
    { unfold allElementsOf. rewrite Hb.
      rewrite bool_decide_eq_false_2
        by (intros Hin; apply Hnot, list_elem_of_In, Hin).
      apply last_snoc. }
    split; [exact Hlast|].
    rewrite <- (fmap_last id). change (fmap id) with (map id).
    rewrite Hid. change (map (fun n => Some (idOf d n))) with
      (fmap (M := list) (fun n => Some (idOf d n))).
    rewrite fmap_last, Hlast. reflexivity.
Qed.

Lemma extractFieldsFromDOM_candidates_witness :
  last (allElementsOf samplePage) = Some 23 /\
  id <$> last (extractFieldsFromDOM samplePage) = Some (Some (lit "id_2")).
Proof.
  destruct (extractFieldsFromDOM_candidates samplePage) as (_ & _ & _ & _ & Hb).
  apply (Hb 23).
  - vm_compute. reflexivity.
  - vm_compute. intros H. decompose [or] H; discriminate || assumption.
Defined.

(** ** Hour and minute values *)

(** X6. The zero padding of [applyDataToForm]: under a key whose normal
    form is the hour or the minute key, a value of one unit gets one '0' in
    front and any other value is kept; under any other key every value is
    kept.  Padding twice is padding once, and under an hour or minute key
    no padded value is one unit long.  The key counts by its normal form,
    white space in it does not matter. *)
Theorem zeroPad_behaviour (normalizedKey value : jsstring) :
  (normalizedKey = hourKey \/ normalizedKey = minuteKey ->
   length value = 1 -> zeroPad normalizedKey value = 48%N :: value) /\
  (length value <> 1 -> zeroPad normalizedKey value = value) /\
  (normalizedKey <> hourKey -> normalizedKey <> minuteKey ->
   zeroPad normalizedKey value = value) /\
  zeroPad normalizedKey (zeroPad normalizedKey value) =
    zeroPad normalizedKey value /\
  (normalizedKey = hourKey \/ normalizedKey = minuteKey ->
   length (zeroPad normalizedKey value) <> 1) /\
  (forall key, sameUpToWhiteSpace key normalizedKey ->
     Forall (fun c => isWhiteSpace c = false) normalizedKey ->
     zeroPad (removeWhiteSpace key) value = zeroPad normalizedKey value).
Proof.
  assert (Hkey : str_eqb normalizedKey hourKey || str_eqb normalizedKey minuteKey
                 = true <-> normalizedKey = hourKey \/ normalizedKey = minuteKey).
  { unfold str_eqb. rewrite orb_true_iff, !bool_decide_eq_true. reflexivity. }
  assert (Hone : normalizedKey = hourKey \/ normalizedKey = minuteKey ->
                 length value = 1 -> zeroPad normalizedKey value = 48%N :: value).
  { intros Hk Hl. unfold zeroPad. apply Hkey in Hk. rewrite Hk, Hl. reflexivity. }
  assert (Hlen : length value <> 1 -> zeroPad normalizedKey value = value).
  { intros Hl. unfold zeroPad.
    destruct (_ || _); [|reflexivity].
    destruct (Nat.eqb_spec (length value) 1); [contradiction | reflexivity]. }
  assert (Hother : normalizedKey <> hourKey -> normalizedKey <> minuteKey ->
                   zeroPad normalizedKey value = value).
  { intros H1 H2. unfold zeroPad, str_eqb.
    rewrite !bool_decide_eq_false_2 by assumption. reflexivity. }
  split; [exact Hone | split; [exact Hlen | split; [exact Hother | split; [|split]]]].
  - destruct (zeroPad_cases normalizedKey value) as [Hp|(Hp & Hl & _)].
    + rewrite !Hp. reflexivity.
    + rewrite Hp. unfold zeroPad at 1. destruct (_ || _); [|reflexivity].
      simpl. rewrite Hl. reflexivity.
  - intros Hk. destruct (Nat.eq_dec (length value) 1) as [Hl|Hl].
    + rewrite (Hone Hk Hl). simpl. lia.
    + rewrite (Hlen Hl). exact Hl.
  - intros key Hsame Hnormal.
    rewrite (sameUpToWhiteSpace_normal _ _ Hsame).
    rewrite (removeWhiteSpace_fixed _ Hnormal). reflexivity.
Qed.

Lemma zeroPad_behaviour_witness :
  zeroPad (removeWhiteSpace (32%N :: minuteKey)) (lit "5") = lit "05" /\
  zeroPad hourKey (lit "12") = lit "12" /\
  zeroPad (lit "Date") (lit "5") = lit "5".
Proof.
  destruct (zeroPad_behaviour minuteKey (lit "5")) as (Hone & _ & _ & _ & _ & Hkey).
  destruct (zeroPad_behaviour hourKey (lit "12")) as (_ & Hlen & _).
  destruct (zeroPad_behaviour (lit "Date") (lit "5")) as (_ & _ & Hother & _).
  split; [|split].
  - rewrite Hkey.
    + apply Hone; [right; reflexivity | reflexivity].
    + apply sws_left; [reflexivity|]. repeat apply sws_keep. apply sws_nil.
    + repeat constructor.
  - apply Hlen. discriminate.
  - apply Hother; discriminate.
Defined.

(** ** Keys up to white space *)

Lemma resolveField_generic g key :
  key <> lit "timeOption" ->
  resolveField g key (removeWhiteSpace key) =
  List.find (fun f => opt_str_eqb (removeWhiteSpace <$> text f)
                                  (Some (removeWhiteSpace key)))
            (childFields g).
Proof.
  intros Hk. unfold resolveField, str_eqb.
  rewrite bool_decide_eq_false_2 by exact Hk. reflexivity.
Qed.

Lemma find_firstWhere {X} (P : X -> Prop) `{!forall x, Decision (P x)} l x :
  List.find (fun y => bool_decide (P y)) l = Some x <-> firstWhere P l x.
Proof.
  unfold firstWhere. induction l as [|y l IH]; simpl.
  - split; [discriminate|]. intros (pre & post & Hl & _). destruct pre; discriminate.
  - destruct (bool_decide (P y)) eqn:E.
    + apply bool_decide_eq_true in E. split.
      * intros Hy. apply (inj Some) in Hy. subst y.
        exists [], l. repeat split; [exact E | constructor].
      * intros (pre & post & Hl & Hx & Hpre). destruct pre as [|z pre].
        -- simpl in Hl. congruence.
        -- simpl in Hl. injection Hl as -> _.
           apply Forall_cons in Hpre as [Hz _]. contradiction.
    + apply bool_decide_eq_false in E. rewrite IH. split.
      * intros (pre & post & -> & Hx & Hpre). exists (y :: pre), post.
        repeat split; [exact Hx | constructor; assumption].
      * intros (pre & post & Hl & Hx & Hpre). destruct pre as [|z pre].
        -- simpl in Hl. injection Hl as -> _. contradiction.
        -- simpl in Hl. injection Hl as -> ->.
           apply Forall_cons in Hpre as [_ Hpre]. exists pre, post. auto.
Qed.

Lemma find_none_Forall {X} (P : X -> Prop) `{!forall x, Decision (P x)} l :
  List.find (fun y => bool_decide (P y)) l = None <-> Forall (fun y => ~ P y) l.
Proof.
  induction l as [|y l IH]; simpl.
  - split; [constructor | reflexivity].
  - destruct (bool_decide (P y)) eqn:E.
    + apply bool_decide_eq_true in E. split; [discriminate|].
      intros Hl. apply Forall_cons in Hl as [Hl _]. contradiction.
    + apply bool_decide_eq_false in E. rewrite IH. split.
      * intros Hl. constructor; assumption.
      * intros Hl. apply Forall_cons in Hl as [_ Hl]. exact Hl.
Qed.

(** X7. Payload keys are matched up to white space.  The key "timeOption"
    resolves to the first member without label, and to none exactly when
    every member has a label; any other key resolves to the first member
    whose label has the normal form of the key, and to none exactly when no
    member has such a label; and two keys that differ by white space only,
    neither of them one of the two reserved literals, have the same effect
    on the page. *)
Theorem applyFieldValue_key_whitespace
    (g : FieldGroup) (key key' value : jsstring) (d : Document) :
  (forall f, resolveField g (lit "timeOption")
               (removeWhiteSpace (lit "timeOption")) = Some f <->
             firstWhere (fun x => text x = None) (childFields g) f) /\
  (resolveField g (lit "timeOption") (removeWhiteSpace (lit "timeOption")) = None <->
   Forall (fun x => text x <> None) (childFields g)) /\
  (key <> lit "timeOption" ->
   (forall f, resolveField g key (removeWhiteSpace key) = Some f <->
              firstWhere (fun x => removeWhiteSpace <$> text x =
                                   Some (removeWhiteSpace key))
                         (childFields g) f) /\
   (resolveField g key (removeWhiteSpace key) = None <->
    Forall (fun x => removeWhiteSpace <$> text x <> Some (removeWhiteSpace key))
           (childFields g))) /\
  (sameUpToWhiteSpace key key' ->
   key <> requestContent -> key' <> requestContent ->
   key <> lit "timeOption" -> key' <> lit "timeOption" ->
   applyFieldValue g key value d = applyFieldValue g key' value d).
Proof.
  assert (Htime : resolveField g (lit "timeOption")
                    (removeWhiteSpace (lit "timeOption")) =
                  List.find (fun f => opt_str_eqb (text f) None) (childFields g)).
  { unfold resolveField, str_eqb.
    rewrite bool_decide_eq_true_2 by reflexivity. reflexivity. }
  split; [|split; [|split]].
  - intros f. rewrite Htime. unfold opt_str_eqb.
    apply (@find_firstWhere _ (fun x => text x = None) _).
  - rewrite Htime. unfold opt_str_eqb.
    apply (@find_none_Forall _ (fun x => text x = None) _).
  - intros Hk. rewrite resolveField_generic by exact Hk. unfold opt_str_eqb.
    split.
    + intros f.
      apply (@find_firstWhere _
               (fun x => removeWhiteSpace <$> text x = Some (removeWhiteSpace key))
               _).
    + apply (@find_none_Forall _
               (fun x => removeWhiteSpace <$> text x = Some (removeWhiteSpace key))
               _).
  - intros Hsame Hr Hr' Ht Ht'. unfold applyFieldValue, str_eqb.
    rewrite !bool_decide_eq_false_2 by assumption. cbv zeta.
    rewrite !resolveField_generic by assumption.
    rewrite (sameUpToWhiteSpace_normal _ _ Hsame). reflexivity.
Qed.

Lemma applyFieldValue_key_whitespace_witness :
  applyFieldValue sampleGroup (lit " Da te") (lit "2024-5-03") samplePage =
    applyFieldValue sampleGroup (lit "Date") (lit "2024-5-03") samplePage /\
  resolveField sampleGroup (lit " Da te") (removeWhiteSpace (lit " Da te")) =
    Some sampleDateField.
Proof.
  destruct (applyFieldValue_key_whitespace sampleGroup (lit " Da te") (lit "Date")
              (lit "2024-5-03") samplePage) as (_ & _ & Hfirst & Hsame).
  split.
  - apply Hsame; try discriminate.
    vm_compute.
    repeat first [ apply sws_nil | apply sws_keep
                 | apply sws_left; [reflexivity|] ].
  - destruct Hfirst as [Hfirst _]; [discriminate|]. apply Hfirst.
    exists [sampleRequestField; sampleMonthField], [sampleButtonField].
    split; [reflexivity|]. split; [reflexivity|].
    repeat constructor; vm_compute; discriminate.
Defined.

(** ** The branch of plain values *)

Lemma lookup_writeChecked n d m :
  writeChecked n d !! m =
  (fun el => if bool_decide (m = n) then withChecked true el
             else if inRadioGroupOf d n m then withChecked false el
             else el) <$> d !! m.
Proof. unfold writeChecked. apply list_lookup_imap. Qed.

Lemma hasTag_exclusive t t' el : hasTag t el = true -> t <> t' -> hasTag t' el = false.
Proof.
  unfold hasTag, str_eqb. intros H Hne. apply bool_decide_eq_true in H.
  apply bool_decide_eq_false. congruence.
Qed.

Lemma applyPlainValue_first e v d :
  applyPlainValue e v d =
  match firstControlOf d e with
  | Some n =>
      match d !! n with
      | Some el =>
          if hasTag (lit "select") el then assignValue n v d
          else if hasTag (lit "input") el then
            if str_eqb (inputType el) (lit "radio") then
              bind (querySelectorAllNameValue (default [] (nameAttr el)) v)
                   (fun radioGroup =>
                      match radioGroup with
                      | first :: _ => mutate (writeChecked first)
                      | [] => ret tt
                      end) d
            else assignValue n v d
          else assignValue n v d
      | None => (Normal tt, d)
      end
  | None => (Normal tt, d)
  end.
Proof.
  unfold applyPlainValue, querySelectorIn. rewrite bind_query.
  fold (firstControlOf d e). destruct (firstControlOf d e) as [n|]; [|reflexivity].
  rewrite bind_query. destruct (d !! n) as [el|]; [|reflexivity].
  destruct (hasTag (lit "select") el); [reflexivity|].
  destruct (hasTag (lit "input") el); [|reflexivity].
  destruct (str_eqb (inputType el) (lit "radio")); reflexivity.
Qed.

(** X8. Radio value application.  When the first control of the field
    element is a radio input (its name and the value standing for
    themselves between quotes), the inputs of the whole page with that
    name attribute and the value as value attribute are looked up: if there
    is none, nothing is checked, the page is unchanged and nothing is
    raised; otherwise the first of them is checked, the other radio
    buttons of its group (the radio inputs of its tree with its form owner
    and its name, if it has one) are unchecked, and nothing else on the
    page changes: every other element is as it was, and the elements of
    the group differ from what they were by their checked state only.  No
    value is ever written on this path. *)
Theorem applyPlainValue_radio
    (e : Node) (value : jsstring) (d : Document) (n : Node) (el : Element) :
  firstControlOf d e = Some n ->
  d !! n = Some el ->
  hasTag (lit "input") el = true ->
  inputType el = lit "radio" ->
  plainInQuotes (default [] (nameAttr el)) = true ->
  plainInQuotes value = true ->
  (inputsNamed d (default [] (nameAttr el)) value = [] ->
   applyPlainValue e value d = (Normal tt, d)) /\
  (forall first rest,
     inputsNamed d (default [] (nameAttr el)) value = first :: rest ->
     applyPlainValue e value d = (Normal tt, writeChecked first d) /\
     checked <$> writeChecked first d !! first = Some true /\
     (forall m, inRadioGroupOf d first m = true ->
                writeChecked first d !! m = withChecked false <$> d !! m) /\
     (forall m, m <> first -> inRadioGroupOf d first m = false ->
                writeChecked first d !! m = d !! m) /\
     agreeOn (withChecked false) d (writeChecked first d)) /\
  (forall first m a b,
     d !! first = Some a -> d !! m = Some b ->
     (inRadioGroupOf d first m = true <->
      m <> first /\ isRadio a = true /\ isRadio b = true /\
      (exists name, name <> [] /\ nameAttr a = Some name /\ nameAttr b = Some name) /\
      formOwner (length d) d first = formOwner (length d) d m /\
      rootOf (length d) d first = rootOf (length d) d m)).
Proof.
  intros Hfirst Hel Htag Htype Hname Hvalue.
  assert (Hrun : applyPlainValue e value d =
                 match inputsNamed d (default [] (nameAttr el)) value with
                 | first :: _ => (Normal tt, writeChecked first d)
                 | [] => (Normal tt, d)
                 end).
  { rewrite applyPlainValue_first, Hfirst, Hel.
    rewrite (hasTag_exclusive _ (lit "select") _ Htag) by discriminate.
    rewrite Htag, Htype. unfold str_eqb at 1.
    rewrite bool_decide_eq_true_2 by reflexivity.
    unfold bind, querySelectorAllNameValue, attributeSelectorText.
    rewrite Hname, Hvalue. simpl. unfold querySelectorAll, query.
    fold (inputsNamed d (default [] (nameAttr el)) value).
    destruct (inputsNamed d (default [] (nameAttr el)) value); reflexivity. }
  split; [|split].
  - intros Hnone. rewrite Hrun, Hnone. reflexivity.
  - intros first rest Hsome. rewrite Hrun, Hsome.
    split; [reflexivity | split; [|split; [|split]]].
    + rewrite lookup_writeChecked.
      rewrite bool_decide_eq_true_2 by reflexivity.
      assert (Hlt : first < length d).
      { eapply nodesWhere_lt. unfold inputsNamed in Hsome. rewrite Hsome.
        left. reflexivity. }
      destruct (lookup_lt_is_Some_2 d first Hlt) as [el' ->]. reflexivity.
    + intros m Hm. rewrite lookup_writeChecked, Hm.
      unfold inRadioGroupOf in Hm. apply andb_true_iff in Hm as [Hm _].
      apply negb_true_iff in Hm. rewrite Hm. reflexivity.
    + intros m Hm Hout. rewrite lookup_writeChecked, Hout.
      rewrite bool_decide_eq_false_2 by exact Hm.
      destruct (d !! m); reflexivity.
    + apply agreeOn_writeChecked. intros b el'. reflexivity.
  - intros first m a b Ha Hb. unfold inRadioGroupOf. rewrite Ha, Hb.
    rewrite !andb_true_iff, negb_true_iff, !bool_decide_eq_true,
      bool_decide_eq_false.
    split.
    + intros (Hm & ((((Hra & Hrb) & Hnm) & Heq) & Hform) & Hroot).
      repeat split; try assumption.
      destruct (nameAttr a) as [name|]; [|discriminate].
      exists name. split; [intros ->; discriminate | auto].
    + intros (Hm & Hra & Hrb & (name & Hne & Hna & Hnb) & Hform & Hroot).
      rewrite Hna, Hnb. repeat split; try assumption.
      destruct name; [congruence | reflexivity].
Qed.

Lemma applyPlainValue_radio_witness :
  applyPlainValue 4 (lit "later") samplePage = (Normal tt, samplePage) /\
  applyPlainValue 4 (lit "cancel") (writeChecked 7 samplePage) =
    (Normal tt, writeChecked 9 (writeChecked 7 samplePage)) /\
  checked <$> writeChecked 9 (writeChecked 7 samplePage) !! 7 = Some false.
Proof.
  destruct (applyPlainValue_radio 4 (lit "later") samplePage 7
              (withPlace (ChildOf 6)
                 (sampleElement (ChildOf 0) "input" noString [] None
                    (Some "q11_request"%string) "radio" (Some "change"%string) [])))
    as (Hnone & _ & _); try (vm_compute; reflexivity).
  destruct (applyPlainValue_radio 4 (lit "cancel") (writeChecked 7 samplePage) 7
              (withChecked true
                 (withPlace (ChildOf 6)
                    (sampleElement (ChildOf 0) "input" noString [] None
                       (Some "q11_request"%string) "radio"
                       (Some "change"%string) []))))
    as (_ & Hsome & _); try (vm_compute; reflexivity).
  split; [apply Hnone; vm_compute; reflexivity|].
  destruct (Hsome 9 []) as (Hrun & _ & Hgroup & _); [vm_compute; reflexivity|].
  split; [exact Hrun|].
  rewrite (Hgroup 7) by (vm_compute; reflexivity).
  vm_compute. reflexivity.
Defined.



(** ** The top-level bindings *)

Lemma connected_writeValue n v d m :
  connected (writeValue n v d) m = connected d m.
Proof.
  unfold connected. rewrite length_writeValue. symmetry.
  apply below_agree, agreeOn_writeValue. intros v' el. reflexivity.
Qed.

Lemma elementById_written input v d i :
  elementById (written input v d) i = elementById d i.
Proof.
  destruct input as [n|]; [|reflexivity]. unfold elementById. simpl.
  destruct (truthy i); [|reflexivity]. f_equal.
  apply nodesWhere_ext; [apply length_writeValue|].
  intros m _. rewrite lookup_writeValue, connected_writeValue.
  destruct (valueSetter d n v); [|reflexivity..].
  destruct (decide (n = m)), (d !! m); reflexivity.
Qed.


Lemma prefillById_run v i d :
  prefillById v i d =
  writeIfPresent (topLevelTargetOf d v i) (default [] v) d.
Proof.
  unfold prefillById, topLevelTargetOf. destruct (truthy_opt v); [|reflexivity].
  unfold bind, getElementById, query. fold (elementById d i).
  destruct (elementById d i); reflexivity.
Qed.

Lemma topLevelTargetOf_written input w d v i :
  topLevelTargetOf (written input w d) v i = topLevelTargetOf d v i.
Proof.
  unfold topLevelTargetOf. rewrite elementById_written. reflexivity.
Qed.




Lemma prefillById_step d d0 v i (k1 k2 : unit -> Script unit) :
  (forall v' i', topLevelTargetOf d0 v' i' = topLevelTargetOf d v' i') ->
  (forall d1, (forall v' i', topLevelTargetOf d1 v' i' = topLevelTargetOf d v' i') ->
              k1 tt d1 = k2 tt d1) ->
  bind (prefillById v i) k1 d0 =
  bind (writeIfPresent (topLevelTargetOf d v i) (default [] v)) k2 d0.
Proof.
  intros Hinv Hk. unfold bind at 1. rewrite prefillById_run, Hinv.
  unfold bind. rewrite writeIfPresent_run.
  destruct (assignment d0 _ _) as [[]| |]; [|reflexivity..].
  apply Hk. intros v' i'. rewrite topLevelTargetOf_written. apply Hinv.
Qed.

(** The top-level bindings, as the assignments they make. *)
Lemma applyTopLevel_run pd tl d :
  topLevel pd = Some tl ->
  applyTopLevel (Some pd) d =
  assignAll
    [(topLevelTarget d tl childFamilyNameKey (lit "first_195"),
      default [] (property tl childFamilyNameKey));
     (topLevelTarget d tl childGivenNameKey (lit "last_195"),
      default [] (property tl childGivenNameKey));
     (topLevelTarget d tl guardianEmailKey (lit "input_6"),
      default [] (property tl guardianEmailKey));
     (topLevelTarget d tl targetMonthKey (lit "input_34"),
      default [] (property tl targetMonthKey))] d.
Proof.
  intros Htl. unfold applyTopLevel. rewrite Htl. cbn [assignAll].
  unfold topLevelTarget.
  apply prefillById_step; [reflexivity|]. intros d1 H1. cbv beta.
  apply prefillById_step; [exact H1|]. intros d2 H2. cbv beta.
  apply prefillById_step; [exact H2|]. intros d3 H3. cbv beta.
  rewrite prefillById_run, H3, bind_ret_tt. reflexivity.
Qed.



(** ** Groups that are skipped, and the alignment with the payload *)

Lemma processGroup_skipped groupData g d :
  requestFieldIdOf g = None -> processGroup groupData g d = (Normal tt, d).
Proof.
  unfold requestFieldIdOf, processGroup. intros H.
  destruct (requestFieldOf g) as [rf|]; [|reflexivity].
  rewrite H. reflexivity.
Qed.

Lemma forEachFrom_ext_range {X} (body body' : X -> nat -> Script unit) l :
  forall index,
    (forall x i d, index <= i < index + length l -> body x i d = body' x i d) ->
    forall d, forEachFrom body index l d = forEachFrom body' index l d.
Proof.
  induction l as [|x l IH]; intros index H d; simpl; [reflexivity|].
  unfold bind. rewrite H by (simpl; lia).
  destruct (body' x index d) as [[[]|e|] d']; [|reflexivity..].
  apply IH. intros y i d0 Hi. apply H. simpl. lia.
Qed.

Lemma forEachFrom_skipped (body : FieldGroup -> nat -> Script unit) l :
  (forall g i d, In g l -> body g i d = (Normal tt, d)) ->
  forall index d, forEachFrom body index l d = (Normal tt, d).
Proof.
  induction l as [|x l IH]; intros H index d; simpl; [reflexivity|].
  unfold bind. rewrite H by (left; reflexivity).
  apply IH. intros g i d0 Hg. apply H. right. exact Hg.
Qed.

(** X11. A group without a request-content field, or whose request-content
    field has no usable id, is skipped as a whole: neither its header nor
    any of its fields is touched, even though the payload has an entry for
    it.  Where every group is such a group, [applyDataToForm] does what the
    top-level bindings do and nothing else. *)
Theorem applyDataToForm_without_requestField
    (formGroups : list FieldGroup) (prefillData : option PrefillData)
    (d : Document) :
  Forall (fun g => requestFieldIdOf g = None) formGroups ->
  (forall g groupData d0, In g formGroups ->
     processGroup groupData g d0 = (Normal tt, d0)) /\
  applyDataToForm formGroups prefillData d = applyTopLevel prefillData d.
Proof.
  intros Hskip. rewrite List.Forall_forall in Hskip.
  assert (Hgroup : forall g groupData d0, In g formGroups ->
                     processGroup groupData g d0 = (Normal tt, d0))
    by (intros g groupData d0 Hg; apply processGroup_skipped, Hskip, Hg).
  split; [exact Hgroup|].
  unfold applyDataToForm, forEach, bind.
  destruct (applyTopLevel prefillData d) as [[[]|e|] d']; [|reflexivity..].
  apply forEachFrom_skipped. intros g i d0 Hg. apply Hgroup, Hg.
Qed.

Lemma applyDataToForm_without_requestField_witness :
  applyDataToForm
    [mkFieldGroup sampleHeader [sampleMonthField; sampleDateField]]
    plainPayload samplePage = (Normal tt, samplePage).
Proof.
  destruct (applyDataToForm_without_requestField
              [mkFieldGroup sampleHeader [sampleMonthField; sampleDateField]]
              plainPayload samplePage) as [_ Hrun].
  - repeat constructor.
  - rewrite Hrun. reflexivity.
Defined.

(** X12. The payload is aligned with the groups by position only.  Entries
    beyond the number of groups are never read: a payload and its
    extension by further entries have the same effect.  A group beyond the
    entries has no entry; and a payload without top-level bindings whose
    list of entries is empty or missing has the effect of no payload. *)
Theorem payload_alignment
    (formGroups : list FieldGroup) (tl : option (list (jsstring * jsstring)))
    (entries surplus : list QueryGroupData) (d : Document) :
  (length formGroups <= length entries ->
   applyDataToForm formGroups
     (Some (mkPrefillData tl (Some (entries ++ surplus)))) d =
   applyDataToForm formGroups (Some (mkPrefillData tl (Some entries))) d) /\
  (forall k, length entries <= k ->
     groupDataAt (Some (mkPrefillData tl (Some entries))) k = None) /\
  applyDataToForm formGroups (Some (mkPrefillData None (Some []))) d =
    applyDataToForm formGroups None d /\
  applyDataToForm formGroups (Some (mkPrefillData None None)) d =
    applyDataToForm formGroups None d.
Proof.
  split; [|split; [|split]].
  - intros Hlen. unfold applyDataToForm, forEach, bind.
    change (applyTopLevel (Some (mkPrefillData tl (Some (entries ++ surplus)))))
      with (applyTopLevel (Some (mkPrefillData tl (Some entries)))).
    destruct (applyTopLevel _ d) as [[[]|e|] d']; [|reflexivity..].
    apply forEachFrom_ext_range. intros g i d0 Hi. simpl.
    rewrite lookup_app_l by lia. reflexivity.
  - intros k Hk. simpl. apply lookup_ge_None_2. exact Hk.
  - unfold applyDataToForm, forEach, bind. simpl.
    apply forEachFrom_ext. reflexivity.
  - unfold applyDataToForm, forEach, bind. simpl.
    apply forEachFrom_ext. reflexivity.
Qed.

Lemma payload_alignment_witness :
  applyDataToForm [sampleGroup]
    (Some (mkPrefillData None
             (Some ([mkQueryGroupData (lit "Changed") []] ++
                    [mkQueryGroupData (lit "Other") [(lit "Date", lit "x")]]))))
    samplePage =
  applyDataToForm [sampleGroup]
    (Some (mkPrefillData None (Some [mkQueryGroupData (lit "Changed") []])))
    samplePage.
Proof.
  destruct (payload_alignment [sampleGroup] None
              [mkQueryGroupData (lit "Changed") []]
              [mkQueryGroupData (lit "Other") [(lit "Date", lit "x")]]
              samplePage) as [Hsurplus _].
  apply Hsurplus. simpl. lia.
Defined.

(** ** The two versions of the form modifier *)

Lemma applyTopLevel_idle pd d :
  topLevel pd = None \/
  Forall (fun i => elementById d i = None)
         [lit "first_195"; lit "last_195"; lit "input_6"; lit "input_34"] ->
  applyTopLevel (Some pd) d = (Normal tt, d).
Proof.
  intros [Htl|Hids].
  - unfold applyTopLevel. rewrite Htl. reflexivity.
  - destruct (topLevel pd) as [tl|] eqn:Htl;
      [|unfold applyTopLevel; rewrite Htl; reflexivity].
    rewrite (applyTopLevel_run pd tl d Htl).
    inversion Hids as [|? ? H1 Hids1]; subst.
    inversion Hids1 as [|? ? H2 Hids2]; subst.
    inversion Hids2 as [|? ? H3 Hids3]; subst.
    inversion Hids3 as [|? ? H4 _]; subst.
    unfold topLevelTarget, topLevelTargetOf.
    rewrite H1, H2, H3, H4, !Tauto.if_same. reflexivity.
Qed.

(** X13. The form modifier of [src/form-modifier.ts] and the one with
    top-level bindings run the same loop over the groups.  On a payload
    that has no top-level bindings, or on a page that has none of the four
    elements they write to, the second does exactly what the first does on
    the list of group entries; and the first is the second on a payload
    made of the list alone. *)
Theorem formModifier_versions
    (formGroups : list FieldGroup) (d : Document) :
  (forall queryData,
     FormModifierTs.applyDataToForm formGroups queryData d =
     applyDataToForm formGroups
       (match queryData with
        | Some q => Some (mkPrefillData None (Some q))
        | None => None
        end) d) /\
  (forall pd,
     topLevel pd = None \/
     Forall (fun i => elementById d i = None)
            [lit "first_195"; lit "last_195"; lit "input_6"; lit "input_34"] ->
     applyDataToForm formGroups (Some pd) d =
     FormModifierTs.applyDataToForm formGroups (groups pd) d).
Proof.
  split.
  - intros queryData. apply formModifierTs_agrees.
  - intros pd H. unfold applyDataToForm, FormModifierTs.applyDataToForm, forEach.
    unfold bind at 1. rewrite (applyTopLevel_idle pd d H).
    apply forEachFrom_ext. intros g i d0. reflexivity.
Qed.

Lemma formModifier_versions_witness :
  applyDataToForm [sampleGroup]
    (Some (mkPrefillData (Some [(targetMonthKey, lit "5")])
                         (Some [mkQueryGroupData (lit "Changed") []])))
    samplePage =
  FormModifierTs.applyDataToForm [sampleGroup]
    (Some [mkQueryGroupData (lit "Changed") []]) samplePage.
Proof.
  destruct (formModifier_versions [sampleGroup] samplePage) as [_ H].
  apply (H (mkPrefillData (Some [(targetMonthKey, lit "5")])
                          (Some [mkQueryGroupData (lit "Changed") []]))).
  right. repeat constructor.
Defined.

(** ** What no run of the form modifier does *)

Section Steady.

Context (R : Document -> Document -> Prop) `{!PreOrder R}.
Hypothesis R_detach : forall n d, R d (detach n d).
Hypothesis R_writeValue : forall n v d, R d (writeValue n v d).
Hypothesis R_writeChecked : forall n d, R d (writeChecked n d).
Hypothesis R_writeTextContent : forall n t d, R d (writeTextContent n t d).

Lemma steady_selectBranch e groupData : keeps R (selectBranch e groupData).
Proof.
  unfold selectBranch, querySelectorAllIn, removeItem. frame; apply R_detach.
Qed.

Lemma steady_overrideHeader g gd : keeps R (overrideHeader g gd).
Proof.
  unfold overrideHeader, querySelectorCollapseMid.
  frame. apply R_writeTextContent.
Qed.

Lemma steady_applyDateValue e v : keeps R (applyDateValue e v).
Proof.
  unfold applyDateValue, querySelectorIn, writeIfPresent.
  frame; apply R_writeValue.
Qed.

Lemma steady_applyPlainValue e v : keeps R (applyPlainValue e v).
Proof.
  unfold applyPlainValue, querySelectorIn, querySelectorAllNameValue,
    querySelectorAll.
  frame; first [apply R_writeValue | apply R_writeChecked].
Qed.

Lemma steady_applyFieldValue g key v : keeps R (applyFieldValue g key v).
Proof.
  unfold applyFieldValue, applyToField, getElementById.
  frame; [apply steady_applyDateValue | apply steady_applyPlainValue].
Qed.

Lemma steady_applyTopLevel prefillData : keeps R (applyTopLevel prefillData).
Proof.
  unfold applyTopLevel, prefillById, getElementById. frame; apply R_writeValue.
Qed.

Lemma steady_processGroup groupData g : keeps R (processGroup groupData g).
Proof.
  unfold processGroup, branchSelection, getElementById, prefillGroup.
  frame; try apply steady_selectBranch; try apply steady_overrideHeader.
  apply keeps_forIn; [typeclasses eauto|].
  intros key v _. apply steady_applyFieldValue.
Qed.

Lemma steady_applyDataToForm formGroups prefillData :
  keeps R (applyDataToForm formGroups prefillData).
Proof.
  unfold applyDataToForm, forEach.
  apply keeps_bind; [typeclasses eauto | apply steady_applyTopLevel |].
  intros _. apply keeps_forEachFrom; [typeclasses eauto|].
  intros g i. apply steady_processGroup.
Qed.

End Steady.

Lemma fadesTo_refl el : fadesTo el el.
Proof. split; [reflexivity | left; reflexivity]. Qed.

Lemma fadesTo_trans el1 el2 el3 :
  fadesTo el1 el2 -> fadesTo el2 el3 -> fadesTo el1 el3.
Proof.
  intros [Ha1 Hp1] [Ha2 Hp2]. split; [congruence|].
  destruct Hp2 as [Hp2|Hp2]; [|right; exact Hp2].
  destruct Hp1 as [Hp1|Hp1]; [left | right]; congruence.
Qed.

Global Instance fades_preorder : PreOrder fades.
Proof.
  split.
  - intros d. apply Forall2_same_length_lookup. split; [reflexivity|].
    intros i x y Hx Hy. assert (x = y) by congruence. subst y.
    apply fadesTo_refl.
  - intros d1 d2 d3 H12 H23. unfold fades in *.
    revert d3 H23. induction H12 as [|x y l l' Hxy _ IH]; intros d3 H23.
    + inversion H23. constructor.
    + inversion H23 as [|? z ? l3 Hyz Hrest]; subst. constructor.
      * eapply fadesTo_trans; eassumption.
      * apply IH, Hrest.
Qed.

Lemma fades_alter (f : Element -> Element) n d :
  (forall el, fadesTo el (f el)) -> fades d (alter f n d).
Proof.
  intros Hf. unfold fades. revert n.
  induction d as [|el d IH]; intros [|n]; simpl; constructor;
    first [apply Hf | apply fadesTo_refl | apply IH | idtac].
  change (fades d d). reflexivity.
Qed.

Lemma fades_imap (f : nat -> Element -> Element) d :
  (forall m el, fadesTo el (f m el)) -> fades d (imap f d).
Proof.
  intros Hf. unfold fades. revert f Hf.
  induction d as [|el d IH]; intros f Hf; simpl; constructor;
    [apply Hf | apply IH; intros m el'; apply Hf].
Qed.

Lemma fades_map (f : Element -> Element) d :
  (forall el, fadesTo el (f el)) -> fades d (map f d).
Proof.
  intros Hf. unfold fades. induction d as [|el d IH]; simpl; constructor;
    [apply Hf | apply IH].
Qed.

Lemma fades_lookup d d' n el :
  fades d d' -> d !! n = Some el ->
  exists el', d' !! n = Some el' /\ fadesTo el el'.
Proof. intros H Hel. eapply Forall2_lookup_l; eassumption. Qed.

(** X14. Whatever the groups and the payload, and however the run ends,
    [applyDataToForm] leaves a document with the same elements in the same
    order, each with the tag name, id, classes, data type, name and input
    type it had, and each either in the place it was or detached: no
    element is created, renamed, moved or put back.  In particular an
    element that is detached stays detached.  The same holds for the
    version of [src/form-modifier.ts]. *)
Theorem applyDataToForm_only_fades
    (formGroups : list FieldGroup) (prefillData : option PrefillData)
    (queryData : option (list QueryGroupData)) (d : Document) :
  let d' := finalDocument (applyDataToForm formGroups prefillData) d in
  fades d d' /\
  length d' = length d /\
  (forall n el, d !! n = Some el ->
     exists el', d' !! n = Some el' /\ attributesOf el' = attributesOf el /\
                 (place el = Detached -> place el' = Detached)) /\
  fades d (finalDocument (FormModifierTs.applyDataToForm formGroups queryData) d).
Proof.
  assert (Hall : forall p, fades d (finalDocument (applyDataToForm formGroups p) d)).
  { intros p. apply steady_applyDataToForm; try typeclasses eauto.
    - intros n d0. apply fades_alter. intros el.
      split; [reflexivity | right; reflexivity].
    - intros n v d0. unfold writeValue.
      destruct (valueSetter d0 n v); [|reflexivity..].
      apply fades_alter. intros el.
      split; [reflexivity | left; reflexivity].
    - intros n d0. apply fades_imap. intros m el.
      case_bool_decide; [split; [reflexivity | left; reflexivity]|].
      destruct (inRadioGroupOf d0 n m); [|apply fadesTo_refl].
      split; [reflexivity | left; reflexivity].
    - intros n t d0. unfold writeTextContent.
      transitivity (map (fun el => if bool_decide (place el = ChildOf n)
                                   then withPlace Detached el else el) d0).
      + apply fades_map. intros el. case_bool_decide; [|apply fadesTo_refl].
        split; [reflexivity | right; reflexivity].
      + apply fades_alter. intros el.
        split; [reflexivity | left; reflexivity]. }
  intros d'. split; [apply Hall | split; [|split]].
  - symmetry. eapply Forall2_length. apply Hall.
  - intros n el Hel.
    destruct (fades_lookup _ _ _ _ (Hall prefillData) Hel) as (el' & Hel' & Ha & Hp).
    exists el'. split; [exact Hel' | split; [exact Ha|]].
    intros Hd. destruct Hp as [Hp|Hp]; congruence.
  - unfold finalDocument. rewrite formModifierTs_agrees. apply Hall.
Qed.

(** ** The parts of a date value *)

Lemma split_free sep a :
  Forall (fun c => c <> sep) a -> split sep a = [a].
Proof.
  induction 1 as [|c a Hc _ IH]; simpl; [reflexivity|].
  rewrite (proj2 (N.eqb_neq c sep) Hc), IH. reflexivity.
Qed.

Lemma split_app_sep sep a s :
  Forall (fun c => c <> sep) a -> split sep (a ++ sep :: s) = a :: split sep s.
Proof.
  induction 1 as [|c a Hc _ IH]; simpl.
  - rewrite N.eqb_refl. reflexivity.
  - rewrite (proj2 (N.eqb_neq c sep) Hc), IH. reflexivity.
Qed.

Lemma length_split sep s :
  length (split sep s) = S (length (filter (fun c => c = sep) s)).
Proof.
  induction s as [|c s IH]; simpl; [reflexivity|].
  rewrite filter_cons. destruct (N.eqb_spec c sep) as [->|Hne].
  - rewrite decide_True by reflexivity. simpl. rewrite IH. reflexivity.
  - rewrite decide_False by exact Hne.
    destruct (split sep s) as [|p ps]; simpl in *; [discriminate | exact IH].
Qed.

(** X15. Which date values reach the split inputs.  A value is split at
    every '-': it has three parts exactly when it holds two of them, and
    then the parts are the texts between them, empty ones included.  With
    any other number of '-', [applyDateValue] assigns the visible input, if
    present, and nothing else; with two, every split input that is present
    is assigned after it, with its part: the branch is the run of these
    assignments, which ends at the first whose setter does not return, and
    where all of them return it leaves the page with each assignment made
    in turn. *)
Theorem applyDateValue_parts (e : Node) (value : jsstring) (d : Document) :
  let visible := visibleDateInputOf d e in
  let shown := written visible value d in
  (length (filter (fun c => c = 45%N) value) <> 2 ->
   applyDateValue e value d = (assignment d visible value, shown)) /\
  (forall year month day,
     hyphenFree year -> hyphenFree month -> hyphenFree day ->
     value = year ++ 45%N :: month ++ 45%N :: day ->
     let yearInput := splitInputOf d e (lit "[year]") in
     let monthInput := splitInputOf d e (lit "[month]") in
     let dayInput := splitInputOf d e (lit "[day]") in
     split 45 value = [year; month; day] /\
     applyDateValue e value d =
       assignAll [(visible, value); (yearInput, year); (monthInput, month);
                  (dayInput, day)] d /\
     (assignment d visible value = Normal tt ->
      assignment d yearInput year = Normal tt ->
      assignment d monthInput month = Normal tt ->
      assignment d dayInput day = Normal tt ->
      applyDateValue e value d =
      (Normal tt,
       written dayInput day
         (written monthInput month (written yearInput year shown))))).
Proof.
  intros visible shown. split.
  - intros Hcount. rewrite applyDateValue_run.
    pose proof (length_split 45 value) as Hlen.
    destruct (split 45 value) as [|y [|m [|dd [|? ?]]]];
      try apply assignAll_one.
    simpl in Hlen. exfalso. apply Hcount. lia.
  - intros year month day Hy Hm Hd -> yearInput monthInput dayInput.
    assert (Hsplit : split 45 (year ++ 45%N :: month ++ 45%N :: day) =
                     [year; month; day]).
    { rewrite split_app_sep by exact Hy. rewrite split_app_sep by exact Hm.
      rewrite split_free by exact Hd. reflexivity. }
    split; [exact Hsplit|].
    rewrite applyDateValue_run, Hsplit.
    split; [reflexivity|]. intros A1 A2 A3 A4. apply assignAll_four; assumption.
Qed.

Lemma applyDateValue_parts_witness :
  split 45 (lit "2024--07") = [lit "2024"; []; lit "07"] /\
  applyDateValue 17 (lit "2024--07") samplePage =
  (Normal tt,
   written (splitInputOf samplePage 17 (lit "[day]")) (lit "07")
     (written (splitInputOf samplePage 17 (lit "[month]")) []
        (written (splitInputOf samplePage 17 (lit "[year]")) (lit "2024")
           (written (visibleDateInputOf samplePage 17) (lit "2024--07")
                    samplePage)))).
Proof.
  destruct (applyDateValue_parts 17 (lit "2024--07") samplePage) as [_ H].
  destruct (H (lit "2024") [] (lit "07")) as (Hsplit & _ & Hrun).
  - unfold hyphenFree. repeat constructor; discriminate.
  - constructor.
  - unfold hyphenFree. repeat constructor; discriminate.
  - reflexivity.
  - split; [exact Hsplit|]. apply Hrun; vm_compute; reflexivity.
Defined.

(** ** From the extractor to the form modifier *)

Lemma elementById_some d i n el :
  truthy i = true -> d !! n = Some el -> connected d n = true -> elemId el = i ->
  exists e el', elementById d i = Some e /\ d !! e = Some el' /\
                elemId el' = i /\ connected d e = true /\ e <= n.
Proof.
  intros Ht Hel Hc Hi. unfold elementById. rewrite Ht.
  set (P := fun n el => connected d n && str_eqb (elemId el) i).
  assert (Hin : In n (nodesWhere d P)).
  { apply nodesWhere_In. exists el. split; [exact Hel|]. unfold P, str_eqb.
    rewrite Hc, bool_decide_eq_true_2 by exact Hi. reflexivity. }
  destruct (nodesWhere d P) as [|e rest] eqn:E; [destruct Hin|].
  assert (He : In e (nodesWhere d P)) by (rewrite E; left; reflexivity).
  apply nodesWhere_In in He as (el' & Hel' & HP).
  unfold P in HP. apply andb_true_iff in HP as [Hce Hie].
  apply bool_decide_eq_true_1 in Hie.
  exists e, el'. split; [reflexivity|]. split; [exact Hel'|].
  split; [exact Hie|]. split; [exact Hce|].
  pose proof (nodesWhere_sorted d P) as Hs. rewrite E in Hs.
  destruct Hin as [->|Hin]; [lia|].
  inversion Hs as [|? ? _ Hall]; subst.
  rewrite List.Forall_forall in Hall. specialize (Hall _ Hin). lia.
Qed.

Lemma fromFirstHeader_In f fields : In f (fromFirstHeader fields) -> In f fields.
Proof.
  induction fields as [|x fs IH]; simpl; [tauto|].
  destruct (isCollapse x); [tauto|]. intros H. right. apply IH, H.
Qed.

Lemma grouped_In fields g f :
  In g (groupFields fields) -> In f (groupDescriptors g) -> In f fields.
Proof.
  intros Hg Hf. apply fromFirstHeader_In.
  rewrite <- (foldl_groupStep_closed fields).
  unfold allDescriptors. apply in_concat. exists (groupDescriptors g).
  split; [apply in_map, Hg | exact Hf].
Qed.

Lemma allElementsOf_connected d n :
  In n (allElementsOf d) -> exists el, d !! n = Some el /\ connected d n = true.
Proof.
  unfold allElementsOf. intros H. apply in_app_or in H as [H|H].
  - apply nodesWhere_In in H as (el & Hel & HP).
    apply andb_true_iff in HP as [Hc _]. eauto.
  - destruct (buttonElementOf d) as [b|] eqn:Eb; [|destruct H].
    case_bool_decide; [destruct H|]. destruct H as [<-|[]].
    apply head_In, nodesWhere_In in Eb as (el & Hel & HP).
    apply andb_true_iff in HP as [Hc _]. eauto.
Qed.

(** X16. From the extractor to the form modifier, as [main.ts] chains
    them.  Every descriptor of the grouped model that has a usable id, a
    header or a member, resolves on the page it was extracted from:
    [getElementById] returns a connected element with that id, never null.
    So on that page the form modifier finds the element of the
    request-content field of a group whenever the field has a non-empty
    id. *)
Theorem grouped_ids_resolve
    (d : Document) (g : FieldGroup) (f : FormField) (i : jsstring) :
  In g (groupFields (extractFieldsFromDOM d)) ->
  In f (groupDescriptors g) ->
  usableId f = Some i ->
  exists e el,
    getElementById i d = (Normal (Some e), d) /\
    d !! e = Some el /\ elemId el = i /\ connected d e = true.
Proof.
  intros Hg Hf Hi.
  pose proof (grouped_In _ _ _ Hg Hf) as Hin.
  apply (in_map id) in Hin. unfold extractFieldsFromDOM in Hin.
  rewrite describeFrom_id in Hin.
  apply in_map_iff in Hin as (n & Hn & Hcand).
  unfold usableId in Hi. rewrite <- Hn in Hi.
  destruct (truthy (idOf d n)) eqn:Ht; [|discriminate].
  apply (inj Some) in Hi. subst i.
  destruct (allElementsOf_connected d n Hcand) as (el & Hel & Hc).
  assert (Hid : elemId el = idOf d n) by (unfold idOf; rewrite Hel; reflexivity).
  destruct (elementById_some d (idOf d n) n el Ht Hel Hc Hid)
    as (e & el' & He & Hel' & Hid' & Hc' & _).
  exists e, el'. split; [|auto].
  unfold getElementById, query. fold (elementById d (idOf d n)).
  rewrite He. reflexivity.
Qed.

Lemma grouped_ids_resolve_witness :
  exists e el,
    getElementById (lit "id_11") samplePage = (Normal (Some e), samplePage) /\
    samplePage !! e = Some el /\ elemId el = lit "id_11" /\
    connected samplePage e = true.
Proof.
  apply (grouped_ids_resolve samplePage sampleGroup sampleRequestField).
  - vm_compute. left. reflexivity.
  - right. left. reflexivity.
  - reflexivity.
Defined.

(** ** The conditions extractor *)

Lemma startsWith_app p t : startsWith p (p ++ t) = true.
Proof.
  induction p as [|c p IH]; simpl; [reflexivity|].
  rewrite N.eqb_refl, IH. reflexivity.
Qed.

Lemma startsWith_split p s :
  startsWith p s = true -> s = p ++ drop (length p) s.
Proof.
  revert s. induction p as [|c p IH]; intros s H; [reflexivity|].
  destruct s as [|c' s]; simpl in H; [discriminate|].
  apply andb_true_iff in H as [Hc Hp]. apply N.eqb_eq in Hc. subst c'.
  simpl. f_equal. apply IH, Hp.
Qed.

Lemma startsWith_longer p s t :
  startsWith p s = true -> startsWith p (s ++ t) = true.
Proof.
  revert s. induction p as [|c p IH]; intros s H; [reflexivity|].
  destruct s as [|c' s]; simpl in *; [discriminate|].
  apply andb_true_iff in H as [Hc Hp]. rewrite Hc. simpl. apply IH, Hp.
Qed.

Lemma closeCall_not_inside c post :
  c <> [] -> startsWith closeCall c = false ->
  startsWith closeCall (c ++ closeCall ++ post) = false.
Proof.
  assert (E : closeCall = [41; 59]%N) by reflexivity. rewrite E. clear E.
  intros Hne H. destruct c as [|u c]; [congruence|].
  cbn [startsWith app] in *. destruct (41 =? u)%N; [|reflexivity].
  destruct c as [|v c]; [reflexivity|].
  cbn [startsWith app andb] in *.
  destruct (59 =? v)%N; [discriminate | reflexivity].
Qed.

Lemma lazyUntilClose_sound s : forall c,
  lazyUntilClose s = Some c ->
  withinCall c /\ exists post, s = c ++ closeCall ++ post.
Proof.
  induction s as [|u s IH]; intros c H.
  - simpl in H. discriminate.
  - cbn [lazyUntilClose] in H.
    destruct (startsWith closeCall (u :: s)) eqn:Hclose.
    + apply (inj Some) in H. subst c. split.
      * split; [constructor|]. intros k. rewrite drop_nil. reflexivity.
      * exists (drop (length closeCall) (u :: s)).
        apply (startsWith_split closeCall (u :: s) Hclose).
    + destruct (isLineTerminator u) eqn:Hu; [discriminate|].
      destruct (lazyUntilClose s) as [c'|] eqn:Hs; [|discriminate].
      apply (inj Some) in H. subst c.
      destruct (IH c' eq_refl) as [[Hline Hfree] [post Hpost]].
      split; [split|].
      * constructor; assumption.
      * intros [|k]; [|apply Hfree].
        rewrite drop_0. destruct (startsWith closeCall (u :: c')) eqn:E;
          [|reflexivity].
        apply (startsWith_longer _ _ (closeCall ++ post)) in E.
        change ((u :: c') ++ closeCall ++ post)
          with (u :: (c' ++ closeCall ++ post)) in E.
        rewrite <- Hpost in E. congruence.
      * exists post. rewrite Hpost. reflexivity.
Qed.

Lemma lazyUntilClose_complete c post :
  withinCall c -> lazyUntilClose (c ++ closeCall ++ post) = Some c.
Proof.
  intros [Hline Hfree]. induction c as [|u c IH].
  - reflexivity.
  - assert (Hhere : startsWith closeCall ((u :: c) ++ closeCall ++ post) = false).
    { apply closeCall_not_inside; [discriminate | apply (Hfree 0)]. }
    change ((u :: c) ++ closeCall ++ post) with (u :: (c ++ closeCall ++ post)) in *.
    cbn [lazyUntilClose]. rewrite Hhere.
    apply Forall_cons in Hline as [Hu Hline]. rewrite Hu.
    rewrite IH; [reflexivity | exact Hline |].
    intros k. apply (Hfree (S k)).
Qed.

Lemma matchConditions_here s c :
  conditionsAt s = Some c -> matchConditions s = Some c.
Proof.
  intros H. destruct s; unfold matchConditions; fold matchConditions;
    rewrite H; reflexivity.
Qed.

Lemma matchConditions_sound text : forall c,
  matchConditions text = Some c ->
  withinCall c /\
  exists pre post, text = pre ++ setConditionsCall ++ c ++ closeCall ++ post.
Proof.
  assert (Hat : forall s c, conditionsAt s = Some c ->
            withinCall c /\
            exists post, s = setConditionsCall ++ c ++ closeCall ++ post).
  { intros s c H. unfold conditionsAt in H.
    destruct (startsWith setConditionsCall s) eqn:Hcall; [|discriminate].
    apply lazyUntilClose_sound in H as [Hc [post Hpost]].
    split; [exact Hc|]. exists post.
    rewrite (startsWith_split _ _ Hcall) at 1. rewrite Hpost. reflexivity. }
  induction text as [|u text IH]; intros c H.
  - cbn [matchConditions] in H.
    destruct (conditionsAt []) as [c'|] eqn:E; [|discriminate].
    apply (inj Some) in H. subst c'.
    destruct (Hat _ _ E) as [Hc [post Hpost]].
    split; [exact Hc|]. exists [], post. exact Hpost.
  - cbn [matchConditions] in H.
    destruct (conditionsAt (u :: text)) as [c'|] eqn:E.
    + apply (inj Some) in H. subst c'.
      destruct (Hat _ _ E) as [Hc [post Hpost]].
      split; [exact Hc|]. exists [], post. exact Hpost.
    + destruct (IH c H) as [Hc (pre & post & Htext)].
      split; [exact Hc|]. exists (u :: pre), post. rewrite Htext. reflexivity.
Qed.

Lemma matchConditions_complete pre c post :
  (forall k, k < length pre ->
     startsWith setConditionsCall
       (drop k (pre ++ setConditionsCall ++ c ++ closeCall ++ post)) = false) ->
  withinCall c ->
  matchConditions (pre ++ setConditionsCall ++ c ++ closeCall ++ post) = Some c.
Proof.
  intros Hpre Hc. induction pre as [|u pre IH].
  - assert (Hat : conditionsAt (setConditionsCall ++ c ++ closeCall ++ post) = Some c).
    { unfold conditionsAt. rewrite startsWith_app, drop_app_length.
      apply lazyUntilClose_complete, Hc. }
    simpl app. apply matchConditions_here, Hat.
  - change ((u :: pre) ++ setConditionsCall ++ c ++ closeCall ++ post)
      with (u :: (pre ++ setConditionsCall ++ c ++ closeCall ++ post)) in *.
    assert (Hno : conditionsAt
              (u :: (pre ++ setConditionsCall ++ c ++ closeCall ++ post)) = None).
    { unfold conditionsAt. pose proof (Hpre 0 ltac:(simpl; lia)) as H0.
      rewrite drop_0 in H0. rewrite H0. reflexivity. }
    unfold matchConditions; fold matchConditions. rewrite Hno.
    apply IH. intros k Hk. apply (Hpre (S k)). simpl. lia.
Qed.

(** X17. What [text.match(/JotForm\.setConditions\((.*?)\);/)] captures.
    A captured group stands in the text between an occurrence of
    [JotForm.setConditions(] and the first [);] after it, and it is one
    line in which [);] does not occur.  Conversely, when the first
    occurrence of [JotForm.setConditions(] in the text is followed by such
    a group and [);], that group is the one captured, whatever follows.  So
    an argument that holds [);] itself, or spans lines, is not captured
    whole. *)
Theorem matchConditions_capture (text : jsstring) :
  (forall c, matchConditions text = Some c ->
     withinCall c /\
     exists pre post, text = pre ++ setConditionsCall ++ c ++ closeCall ++ post) /\
  (forall pre c post,
     text = pre ++ setConditionsCall ++ c ++ closeCall ++ post ->
     (forall k, k < length pre ->
        startsWith setConditionsCall (drop k text) = false) ->
     withinCall c ->
     matchConditions text = Some c).
Proof.
  split.
  - apply matchConditions_sound.
  - intros pre c post -> Hpre Hc. apply matchConditions_complete; assumption.
Qed.

Lemma matchConditions_capture_witness :
  matchConditions
    (lit "JotForm.setConditions([" ++ [34%N] ++ lit ");" ++ [34%N] ++ lit "]);") =
  Some (lit "[" ++ [34%N]).
Proof.
  destruct (matchConditions_capture
              (lit "JotForm.setConditions([" ++ [34%N] ++ lit ");" ++ [34%N] ++
               lit "]);")) as [_ H].
  apply (H [] (lit "[" ++ [34%N]) ([34%N] ++ lit "]);")).
  - reflexivity.
  - intros k Hk. simpl in Hk. lia.
  - split; [repeat constructor|].
    intros [|[|[|k]]]; reflexivity.
Defined.

Lemma conditionsFrom_skip d scripts rest :
  Forall (withoutConditions d) scripts ->
  conditionsFrom d (scripts ++ rest) = conditionsFrom d rest.
Proof.
  induction 1 as [|n scripts Hn _ IH]; [reflexivity|].
  simpl. rewrite IH.
  destruct Hn as [Hn|Hn]; rewrite Hn; simpl;
    destruct (truthy (textContent d n)); reflexivity.
Qed.

Lemma conditionsFrom_decides d n c rest :
  matchConditions (textContent d n) = Some c -> c <> [] ->
  conditionsFrom d (n :: rest) = default (JArray []) (JSONparse c).
Proof.
  intros Hm Hc. simpl. rewrite Hm.
  destruct (textContent d n) as [|u t] eqn:Et.
  - cbn in Hm. discriminate.
  - simpl. destruct c as [|v c]; [congruence|]. simpl.
    destruct (JSONparse (v :: c)); reflexivity.
Qed.

(** X18. Which script decides the conditions.  The scripts of the page are
    read in document order, and the first one whose text gives a group
    that is not empty decides alone: the result is what [JSON.parse]
    makes of that group, whatever it is, and the empty list
    where the group is no JSON text; no later script is read, not even
    then.  A page none of whose scripts gives such a group has the empty
    list as its conditions. *)
Theorem extractConditionsFromScripts_first (d : Document) :
  (forall before n after c,
     scriptsOf d = before ++ n :: after ->
     Forall (withoutConditions d) before ->
     matchConditions (textContent d n) = Some c -> c <> [] ->
     extractConditionsFromScripts d = default (JArray []) (JSONparse c)) /\
  (Forall (withoutConditions d) (scriptsOf d) ->
   extractConditionsFromScripts d = JArray []).
Proof.
  unfold extractConditionsFromScripts. split.
  - intros before n after c -> Hbefore Hm Hc.
    rewrite conditionsFrom_skip by exact Hbefore.
    apply conditionsFrom_decides; assumption.
  - intros Hall. rewrite <- (app_nil_r (scriptsOf d)).
    rewrite conditionsFrom_skip by exact Hall. reflexivity.
Qed.

Lemma extractConditionsFromScripts_first_witness :
  extractConditionsFromScripts scriptPage = JArray [].
Proof.
  destruct (extractConditionsFromScripts_first scriptPage) as [H _].
  rewrite (H [1] 2 [3] (lit "[" ++ [34%N])).
  - reflexivity.
  - reflexivity.
  - constructor; [right; reflexivity | constructor].
  - reflexivity.
  - discriminate.
Defined.

(** ** Script loading *)

Lemma makes_done w : Main.makes w Main.done [].
Proof.
  intros log. exists []. simpl. rewrite app_nil_r.
  split; [reflexivity|]. split; [discriminate|].
  split; [reflexivity|]. split; reflexivity.
Qed.

Lemma makes_settled w (m : Main.Async unit) (handler e : Main.Event) o :
  Main.isCall e = true -> Main.isCall handler = false ->
  (forall log, m log = (Main.settle (o log), log ++ [e])) ->
  (Main.alwaysEnds w -> forall log, o log <> Main.NeverEnds) ->
  Main.makes w (Main.tryCatch m (Main.emit handler)) [e].
Proof.
  intros He Hh Hm Ho log. unfold Main.tryCatch, Main.emit. rewrite Hm.
  destruct (o log) eqn:E; simpl.
  - exists [e]. rewrite filter_cons, decide_True by exact He.
    split; [reflexivity|]. split; [discriminate|].
    split; [reflexivity|]. split; reflexivity.
  - exists [e; handler]. rewrite <- app_assoc.
    rewrite filter_cons, decide_True by exact He.
    rewrite filter_cons, decide_False by (rewrite Hh; discriminate).
    split; [reflexivity|]. split; [discriminate|].
    split; [reflexivity|]. split; reflexivity.
  - exists [e]. rewrite filter_cons, decide_True by exact He.
    split; [reflexivity|]. split; [discriminate|].
    split; [reflexivity|]. split; [reflexivity|].
    intros Hw. destruct (Ho Hw log E).
Qed.

Lemma makes_load w url :
  Main.makes w
    (Main.tryCatch (Main.loadExternalScript w url) (Main.emit Main.ConsoleError))
    [Main.LoadExternal url].
Proof.
  apply (makes_settled w _ _ _ (fun log => Main.loading w log url));
    [reflexivity | reflexivity | reflexivity |].
  intros [Hl _] log. apply Hl.
Qed.

Lemma makes_run w code :
  Main.makes w (Main.executeInlineScript w code) [Main.RunInline code].
Proof.
  apply (makes_settled w _ _ _ (fun log => Main.running w log code));
    [reflexivity | reflexivity | reflexivity |].
  intros [_ Hr] log. apply Hr.
Qed.

Lemma makes_await w (m k : Main.Async unit) a b :
  Main.makes w m a -> Main.makes w k b ->
  Main.makes w (Main.await m (fun _ => k)) (a ++ b).
Proof.
  intros Hm Hk log. unfold Main.await.
  destruct (Hm log) as (ev & Hlog & Hrej & Hpre & Hful & Hend).
  destruct (m log) as [[[]| |] log'] eqn:E; simpl in *.
  - subst log'.
    destruct (Hk (log ++ ev)) as (ev' & Hlog' & Hrej' & Hpre' & Hful' & Hend').
    exists (ev ++ ev'). rewrite Hlog', filter_app, Hful by reflexivity.
    split; [symmetry; apply app_assoc|]. split; [exact Hrej'|].
    split; [apply prefix_app, Hpre'|].
    split; [intros H; rewrite (Hful' H); reflexivity | exact Hend'].
  - congruence.
  - exists ev. split; [exact Hlog|]. split; [discriminate|].
    split; [apply prefix_app_r, Hpre|].
    split; [discriminate|]. intros H. specialize (Hend H). discriminate.
Qed.

Lemma makes_forOf {X} w (body : X -> Main.Async unit)
    (calls : X -> list Main.Event) l :
  (forall x, Main.makes w (body x) (calls x)) ->
  Main.makes w (Main.forOf body l) (concat (map calls l)).
Proof.
  intros H. induction l as [|x l IH]; simpl.
  - apply makes_done.
  - apply makes_await; [apply H | exact IH].
Qed.

Lemma makes_executeScriptsSequentially w scriptElements :
  Main.makes w (Main.executeScriptsSequentially w scriptElements)
    (concat (map Main.immediateCall scriptElements) ++
     concat (map Main.deferredCall scriptElements)).
Proof.
  unfold Main.executeScriptsSequentially.
  apply makes_await; apply makes_forOf; intros script.
  - unfold Main.immediateCall.
    destruct (truthy (Main.src script) && negb (Main.defer script));
      [apply makes_load|].
    destruct (truthy (Main.textContent script));
      [apply makes_run | apply makes_done].
  - unfold Main.deferredCall.
    destruct (truthy (Main.src script) && Main.defer script);
      [apply makes_load | apply makes_done].
Qed.

(** X19. [executeScriptsSequentially] never rejects: a load that fails and
    inline code that throws are caught and reported, and the run goes on.
    It makes its calls in two passes over the script elements: first, in
    the order of the elements, the load of each script with a source that
    is not deferred and the run of the text of each other script that has
    text; then the loads of the deferred scripts with a source.  As far as
    it gets, the loads and runs it has made are the beginning of that
    list; when it is fulfilled they are the whole list; and it is
    fulfilled whenever every load and every run ends.  So a deferred
    script is loaded after every inline script, also those behind it, and
    a deferred script with a source that has text as well has its text run
    in the first pass. *)
Theorem executeScriptsSequentially_calls
    (w : Main.World) (scriptElements : list Main.HTMLScriptElement)
    (log : list Main.Event) :
  let calls := concat (map Main.immediateCall scriptElements) ++
               concat (map Main.deferredCall scriptElements) in
  let result := Main.executeScriptsSequentially w scriptElements log in
  exists happened,
    result.2 = log ++ happened /\
    result.1 <> Main.Rejected /\
    filter (fun e => Main.isCall e = true) happened `prefix_of` calls /\
    (result.1 = Main.Fulfilled tt ->
     filter (fun e => Main.isCall e = true) happened = calls) /\
    (Main.alwaysEnds w -> result.1 = Main.Fulfilled tt) /\
    (forall script,
       In script scriptElements ->
       truthy (Main.src script) = true -> Main.defer script = true ->
       truthy (Main.textContent script) = true ->
       In (Main.RunInline (Main.textContent script))
          (concat (map Main.immediateCall scriptElements)) /\
       In (Main.LoadExternal (Main.src script))
          (concat (map Main.deferredCall scriptElements))).
Proof.
  intros calls result.
  destruct (makes_executeScriptsSequentially w scriptElements log)
    as (happened & Hlog & Hrej & Hpre & Hful & Hend).
  exists happened. repeat (split; [assumption|]).
  intros script Hin Hsrc Hdefer Htext. split.
  - apply in_concat. exists (Main.immediateCall script).
    split; [apply in_map, Hin|].
    unfold Main.immediateCall. rewrite Hsrc, Hdefer, Htext. left. reflexivity.
  - apply in_concat. exists (Main.deferredCall script).
    split; [apply in_map, Hin|].
    unfold Main.deferredCall. rewrite Hsrc, Hdefer. left. reflexivity.
Qed.

Lemma executeScriptsSequentially_calls_witness :
  (Main.executeScriptsSequentially Main.failingWorld
     [Main.mkScript (lit "a.js") true (lit "boom");
      Main.mkScript [] false (lit "init()");
      Main.mkScript (lit "b.js") false []] []).1 = Main.Fulfilled tt /\
  In (Main.RunInline (lit "boom"))
     (concat (map Main.immediateCall
        [Main.mkScript (lit "a.js") true (lit "boom");
         Main.mkScript [] false (lit "init()");
         Main.mkScript (lit "b.js") false []])).
Proof.
  destruct (executeScriptsSequentially_calls Main.failingWorld
              [Main.mkScript (lit "a.js") true (lit "boom");
               Main.mkScript [] false (lit "init()");
               Main.mkScript (lit "b.js") false []] [])
    as (happened & _ & _ & _ & _ & Hend & Hdeferred).
  split.
  - apply Hend. split; intros l x; simpl; [discriminate|].
    destruct (str_eqb x (lit "boom")); discriminate.
  - apply (Hdeferred (Main.mkScript (lit "a.js") true (lit "boom")));
      [left; reflexivity | reflexivity..].
Defined.

(** ** The text and the type of a descriptor *)

Lemma trimStart_idempotent s : trimStart (trimStart s) = trimStart s.
Proof.
  induction s as [|c s IH]; simpl; [reflexivity|].
  destruct (isWhiteSpace c) eqn:E; [exact IH|]. simpl. rewrite E. reflexivity.
Qed.

Lemma trimStart_snoc l c :
  isWhiteSpace c = false -> exists l', trimStart (l ++ [c]) = l' ++ [c].
Proof.
  intros Hc. induction l as [|u l IH]; simpl.
  - rewrite Hc. exists []. reflexivity.
  - destruct (isWhiteSpace u); [exact IH|]. exists (u :: l). reflexivity.
Qed.

Lemma trim_idempotent s : trim (trim s) = trim s.
Proof.
  unfold trim. set (x := trimStart s).
  assert (Hstart : trimStart (reverse (trimStart (reverse x))) =
                   reverse (trimStart (reverse x))).
  { destruct x as [|c x'] eqn:Ex; [reflexivity|].
    assert (Hc : isWhiteSpace c = false).
    { destruct (isWhiteSpace c) eqn:E; [|reflexivity].
      pose proof (trimStart_idempotent s) as Hi. fold x in Hi. rewrite Ex in Hi.
      simpl in Hi. rewrite E in Hi.
      assert (Hlen : length (trimStart x') <= length x').
      { clear. induction x' as [|u l IH]; simpl; [lia|].
        destruct (isWhiteSpace u); simpl; lia. }
      rewrite Hi in Hlen. simpl in Hlen. lia. }
    rewrite reverse_cons.
    destruct (trimStart_snoc (reverse x') c Hc) as [l' ->].
    rewrite reverse_app. simpl. rewrite Hc. reflexivity. }
  rewrite Hstart, reverse_involutive, trimStart_idempotent. reflexivity.
Qed.

(** X20. The type and the text of a descriptor.  The type of a descriptor
    is never the empty string, and its text is never a string with white
    space at either end.  The text of a descriptor that is no submit
    button is never the empty string either: an empty label gives null.
    The id is the id of the element, and the order the value of the
    counter. *)
Theorem describeElement_text (d : Document) (k : nat) (n : Node) (f : FormField) :
  f = describeElement d k n ->
  type f <> Some [] /\
  (forall t, text f = Some t -> trim t = t) /\
  (type f <> Some control_button -> text f <> Some []) /\
  id f = Some (idOf d n) /\ order f = k.
Proof.
  intros ->.
  assert (HorNull : forall s, orNull s <> Some []).
  { intros [|c s]; simpl; discriminate. }
  assert (Htrimmed : forall s t, orNull (trim s) = Some t -> trim t = t).
  { intros s t H. unfold orNull in H. destruct (truthy (trim s)); [|discriminate].
    apply (inj Some) in H. subst t. apply trim_idempotent. }
  unfold describeElement. cbn [type text id order].
  split; [|split; [|split; [|split; reflexivity]]].
  - destruct (dataTypeOf d n); [apply HorNull | discriminate].
  - intros t. destruct (opt_str_eqb _ _).
    + destruct (head _) as [b|]; [|discriminate].
      intros Ht. apply (inj Some) in Ht. subst t. apply trim_idempotent.
    + destruct (head _) as [l|]; [apply Htrimmed | discriminate].
  - intros Hty. unfold opt_str_eqb. rewrite bool_decide_eq_false_2 by exact Hty.
    destruct (head _) as [l|]; [apply HorNull | discriminate].
Qed.

Lemma describeElement_text_witness :
  text (describeElement samplePage 2 4) <> Some [] /\
  trim requestContent = requestContent.
Proof.
  destruct (describeElement_text samplePage 2 4 (describeElement samplePage 2 4)
              eq_refl) as (_ & Htrim & Htext & _).
  split.
  - apply Htext. vm_compute. discriminate.
  - apply Htrim. vm_compute. reflexivity.
Defined.
